(** * Arc layout of the DMRS visualiser (pydmrs/visualization/static/dmrs.js)

    A shallow embedding of [prepareGraph], [nextAvailableLevel],
    [getPathSpec], the set computations of [updateHighlights], the drawing
    made by [dmrsDisplay] and the selection kept by its mouse handlers and
    [toggleSticky], with the properties of the layout proved over it.

    Conventions of the embedding.
    - Node identifiers ([nodeid], [from], [to]) are the integers of the DMRS
      serialisation; [d.start == 0] is the numeric test.  The object
      [nodeIdx], keyed by identifier, is a [gmap Z nat].
    - The key ["i,i+1"] of [levelIdx] is represented by [i]; the object
      stored under it, whose property names are levels, is a [gset Z].
    - [undefined] and [NaN] are [None].
    - A [while] loop is run with a bound on its number of iterations
      ([fuel]); running out of it is the outcome [OutOfFuel].
    - Levels are mathematical integers; pixel quantities are rationals.
    - The box that the browser measures for the text of node number [i]
      ([getBBox]) is given by a function of [i].
    - Of the elements of the drawing, the attributes and classes that the
      code sets are kept; the state of the selection is [d.sticky] and the
      class [selected] of each node, and [graph.sticky]. *)

From stdpp Require Import gmap strings list sorting.
From Stdlib Require Import Ascii QArith Lqa.

Set Default Proof Using "Type".
Open Scope Z_scope.

(** * The embedding *)

(** ** Outcomes of a JavaScript computation *)

Inductive error : Set := TypeError.

Inductive outcome (A : Type) : Type :=
  | Done (a : A)
  | Raise (e : error)
  | OutOfFuel.
Arguments Done {A} a.
Arguments Raise {A} e.
Arguments OutOfFuel {A}.

#[global] Instance outcome_ret : MRet outcome := @Done.
#[global] Instance outcome_bind : MBind outcome := λ A B f m,
  match m with
  | Done a => f a
  | Raise e => Raise e
  | OutOfFuel => OutOfFuel
  end.

(** ** Data model *)

(** A node of [graph.nodes]; [x] and [bbox_height] are the fields that
    [dmrsDisplay] sets from the rendered text before any path is drawn. *)
Record node := Node {
  id : Z;
  x : Q;
  bbox_height : Q
}.

(** A link as [parseXmlDMRS] hands it over. *)
Record d3_link := D3Link {
  start : Z;
  end_ : Z;
  rargname : string;
  post : string
}.

(** A link object once [prepareGraph] has gone over it: the parsed fields
    and the ones [prepareGraph] sets.  [source] of a TOP link is never read
    and is kept undefined. *)
Record link := Link {
  parsed : d3_link;
  source : option nat;
  target : option nat;
  distance : option nat;
  dir : Z;
  level : option Z
}.

Record d3_graph := D3Graph {
  nodes : list node;
  links : list d3_link
}.

(** The lane bookkeeping of one layout pass: the local [levelIdx] and the two
    counters kept on the graph object. *)
Record lanes := Lanes {
  levelIdx : gmap nat (gset Z);
  maxTopLevel : Z;
  maxBottomLevel : Z
}.

Record graph := Graph {
  g_nodes : list node;
  g_links : list link;
  g_maxTopLevel : Z;
  g_maxBottomLevel : Z;
  g_sticky : bool
}.

Definition set_level (d : link) (lvl : Z) : link :=
  Link (parsed d) (source d) (target d) (distance d) (dir d) (Some lvl).

(** ** Strings *)

Definition upper_ascii (c : ascii) : ascii :=
  let n := nat_of_ascii c in
  if ((97 <=? n) && (n <=? 122))%nat then ascii_of_nat (n - 32) else c.

Fixpoint toUpperCase (s : string) : string :=
  match s with
  | EmptyString => EmptyString
  | String c s' => String (upper_ascii c) (toUpperCase s')
  end.

(** ** nextAvailableLevel *)

(** The values of [i] in [for (var i = source; i < target; i++)]; a
    comparison with [undefined] is false, so the loop body never runs when an
    end is undefined. *)
Definition gaps (source target : option nat) : list nat :=
  match source, target with
  | Some s, Some t => seq s (t - s)
  | _, _ => []
  end.

(** [source > target] *)
Definition js_gt (a b : option nat) : bool :=
  match a, b with
  | Some s, Some t => (t <? s)%nat
  | _, _ => false
  end.

(** The first [for] loop: is [curLevel] taken on one of the gaps?  [in]
    applied to an absent entry of [lvlIdx] throws. *)
Fixpoint occupied (lvlIdx : gmap nat (gset Z)) (curLevel : Z) (gs : list nat)
  : outcome bool :=
  match gs with
  | [] => Done false
  | i :: gs' =>
      match lvlIdx !! i with
      | None => Raise TypeError
      | Some lv =>
          if bool_decide (curLevel ∈ lv) then Done true
          else occupied lvlIdx curLevel gs'
      end
  end.

(** The second [for] loop: [lvlIdx[[i, i+1].join()][level] = true]. *)
Fixpoint mark (lvlIdx : gmap nat (gset Z)) (lvl : Z) (gs : list nat)
  : outcome (gmap nat (gset Z)) :=
  match gs with
  | [] => Done lvlIdx
  | i :: gs' =>
      match lvlIdx !! i with
      | None => Raise TypeError
      | Some lv => mark (<[i := {[lvl]} ∪ lv]> lvlIdx) lvl gs'
      end
  end.

(** The [while (level == 0)] loop, entered with [level = 0]. *)
Fixpoint search (fuel : nat) (lvlIdx : gmap nat (gset Z)) (gs : list nat)
    (dir curLevel : Z) : outcome (Z * gmap nat (gset Z)) :=
  match fuel with
  | O => OutOfFuel
  | S fuel' =>
      taken ← occupied lvlIdx curLevel gs;
      let success := negb taken in
      if success then
        lvlIdx' ← mark lvlIdx curLevel gs;
        if curLevel =? 0 then search fuel' lvlIdx' gs dir curLevel
        else Done (curLevel, lvlIdx')
      else search fuel' lvlIdx gs dir (curLevel + dir)
  end.

Definition nextAvailableLevel (fuel : nat) (source target : option nat)
    (dir : Z) (lvlIdx : gmap nat (gset Z)) : outcome (Z * gmap nat (gset Z)) :=
  if js_gt source target then search fuel lvlIdx (gaps target source) dir dir
  else search fuel lvlIdx (gaps source target) dir dir.

(** ** prepareGraph *)

(** The first [forEach]: [nodeIdx[d.id] = i; levelIdx[[i,i+1].join()] = {}]. *)
Fixpoint index_nodes (i : nat) (ns : list node)
    (acc : gmap Z nat * gmap nat (gset Z)) : gmap Z nat * gmap nat (gset Z) :=
  match ns with
  | [] => acc
  | d :: ns' => index_nodes (S i) ns' (<[id d := i]> acc.1, <[i := ∅]> acc.2)
  end.

(** [Math.abs(d.source - d.target)], [NaN] when an end is undefined. *)
Definition abs_diff (a b : option nat) : option nat :=
  match a, b with
  | Some s, Some t => Some (if (s <=? t)%nat then (t - s)%nat else (s - t)%nat)
  | _, _ => None
  end.

(** The body of the second [forEach]. *)
Definition resolve (nodeIdx : gmap Z nat) (d : d3_link) : link :=
  let target := nodeIdx !! end_ d in
  if start d =? 0 then Link d None target None 1 None
  else
    let source := nodeIdx !! start d in
    Link d source target (abs_diff source target)
      (if String.eqb (rargname d) "" || String.eqb (toUpperCase (post d)) "H"
       then -1 else 1)
      None.

(** [dist != d.distance] *)
Definition dist_ne (dist : nat) (distance : option nat) : bool :=
  match distance with
  | Some n => negb (dist =? n)%nat
  | None => true
  end.

(** The body of the [forEach] inside the [dist] loop. *)
Definition place (fuel dist : nat) (d : link) (st : lanes)
  : outcome (link * lanes) :=
  if start (parsed d) =? 0 then Done (d, st)
  else if dist_ne dist (distance d) then Done (d, st)
  else
    '(lvl, idx) ← nextAvailableLevel fuel (source d) (target d) (dir d)
                    (levelIdx st);
    let d' := set_level d lvl in
    if (dir d =? 1) && (maxTopLevel st <? lvl) then
      Done (d', Lanes idx lvl (maxBottomLevel st))
    else if (dir d =? -1) && (lvl <? maxBottomLevel st) then
      Done (d', Lanes idx (maxTopLevel st) lvl)
    else Done (d', Lanes idx (maxTopLevel st) (maxBottomLevel st)).

(** [graph.links.forEach(...)] for one value of [dist]. *)
Fixpoint place_links (fuel dist : nat) (ls : list link) (st : lanes)
  : outcome (list link * lanes) :=
  match ls with
  | [] => Done ([], st)
  | d :: ls' =>
      '(d', st1) ← place fuel dist d st;
      '(ls'', st2) ← place_links fuel dist ls' st1;
      Done (d' :: ls'', st2)
  end.

(** [for (dist = ...; dist < graph.nodes.length; dist++)], over the values of
    [dist] still to come. *)
Fixpoint dist_loop (fuel : nat) (dists : list nat) (ls : list link)
    (st : lanes) : outcome (list link * lanes) :=
  match dists with
  | [] => Done (ls, st)
  | dist :: dists' =>
      '(ls', st') ← place_links fuel dist ls st;
      dist_loop fuel dists' ls' st'
  end.

(** The links and the lane bookkeeping at the end of [prepareGraph]. *)
Definition layout (fuel : nat) (g : d3_graph) : outcome (list link * lanes) :=
  let '(nodeIdx, lvlIdx) := index_nodes 0 (nodes g) (∅, ∅) in
  dist_loop fuel (seq 0 (length (nodes g))) (resolve nodeIdx <$> links g)
    (Lanes lvlIdx 0 0).

Definition prepareGraph (fuel : nat) (g : d3_graph) : outcome graph :=
  '(ls, st) ← layout fuel g;
  Done (Graph (nodes g) ls (maxTopLevel st) (maxBottomLevel st) false).

(** ** getPathSpec *)

Definition level_dy : Q := 25.
Definition edge_radius : Q := 15.
Definition edge_xoffset : Q := 10.

(** An element of the array that [getPathSpec] joins with spaces: a path
    command or a number ([None] is [NaN]). *)
Inductive tok : Type :=
  | Cmd (c : string)
  | Num (v : option Q).

Record midpoint := Midpoint { mid_x : Q; mid_y : option Q }.

(** [graph.nodes[i]] for a possibly undefined [i]. *)
Definition node_at (g : graph) (i : option nat) : option node :=
  i ≫= λ k, g_nodes g !! k.

Definition num (q : Q) : tok := Num (Some q).

(** The factor of [level_dy] in the height of a TOP link. *)
Definition top_extent (d : link) (g : graph) : Z :=
  (if dir d =? 1 then g_maxTopLevel g else g_maxBottomLevel g) + 1.

(** The path and the [link.midpoint] it sets on the way. *)
Definition getPathSpec (d : link) (g : graph) : outcome (list tok * midpoint) :=
  match node_at g (target d) with
  | None => Raise TypeError
  | Some tn =>
      let x2 := x tn in
      let y1 := bbox_height tn in
      if start (parsed d) =? 0 then
        let y2 := (y1 + inject_Z (top_extent d g) * level_dy)%Q in
        Done ([Cmd "M"; num x2; num y2; Cmd "L"; num x2; num y1],
              Midpoint x2 (Some ((y1 + y2) / 2)%Q))
      else
        match node_at g (source d) with
        | None => Raise TypeError
        | Some sn =>
            let x1 := x sn in
            let y2 := (λ l, y1 + (inject_Z (Z.abs l) * level_dy - 5))%Q
                        <$> level d in
            let y2r := (λ y, y - edge_radius)%Q <$> y2 in
            let mid := Midpoint ((x1 + x2) / 2)%Q y2 in
            if Qlt_le_dec x1 x2 then
              let x1 := (x1 + edge_xoffset)%Q in
              Done ([Cmd "M"; num x1; num (y1 - 5)%Q;
                     Cmd "L"; num x1; Num y2r;
                     Cmd "Q"; num x1; Num y2; num (x1 + edge_radius)%Q; Num y2;
                     Cmd "L"; num (x2 - edge_radius)%Q; Num y2;
                     Cmd "Q"; num x2; Num y2; num x2; Num y2r;
                     Cmd "L"; num x2; num y1], mid)
            else
              let x1 := (x1 - edge_xoffset)%Q in
              Done ([Cmd "M"; num x1; num (y1 - 5)%Q;
                     Cmd "L"; num x1; Num y2r;
                     Cmd "Q"; num x1; Num y2; num (x1 - edge_radius)%Q; Num y2;
                     Cmd "L"; num (x2 + edge_radius)%Q; Num y2;
                     Cmd "Q"; num x2; Num y2; num x2; Num y2r;
                     Cmd "L"; num x2; num y1], mid)
        end
  end.

(** ** updateHighlights: the four sets of a selected node *)

Record highlights := Highlights {
  outs : gset Z;
  ins : gset Z;
  labelset : gset Z;
  scopes : gset Z
}.

(** Truthiness of a string, as in [_d.rargname && ...]. *)
Definition truthy (s : string) : bool := negb (String.eqb s "").

(** One callback of [classed] run over all links: the links that satisfy
    [test] add the identifiers [members] to a set that starts empty. *)
Definition collect (test : d3_link → bool) (members : d3_link → gset Z)
    (ls : list d3_link) : gset Z :=
  foldl (λ acc d, if test d then members d ∪ acc else acc) ∅ ls.

(** The body of the [each] inside the [while (labelAdded)] loop; the state is
    [labelset] and [labelAdded]. *)
Definition expand_step (acc : gset Z * bool) (d : d3_link) : gset Z * bool :=
  if String.eqb (post d) "EQ" then
    if bool_decide (start d ∈ acc.1) && negb (bool_decide (end_ d ∈ acc.1))
    then ({[end_ d]} ∪ acc.1, true)
    else if bool_decide (end_ d ∈ acc.1) && negb (bool_decide (start d ∈ acc.1))
    then ({[start d]} ∪ acc.1, true)
    else acc
  else acc.

(** [while (labelAdded) { labelAdded = false; ... }] *)
Fixpoint expand (fuel : nat) (ls : list d3_link) (lab : gset Z)
  : outcome (gset Z) :=
  match fuel with
  | O => OutOfFuel
  | S fuel' =>
      let r := foldl expand_step (lab, false) ls in
      if r.2 then expand fuel' ls r.1 else Done r.1
  end.

(** The sets computed for the selected node [nid] over the links [ls]. *)
Definition highlight_sets (fuel : nat) (ls : list d3_link) (nid : Z)
  : outcome highlights :=
  let outs :=
    collect (λ d, truthy (rargname d) && (nid =? start d))
            (λ d, {[end_ d]}) ls in
  let ins :=
    collect (λ d, truthy (rargname d) && (nid =? end_ d))
            (λ d, {[start d]}) ls in
  let lab0 :=
    collect (λ d, String.eqb (post d) "EQ"
                  && ((start d =? nid) || (end_ d =? nid)))
            (λ d, {[end_ d]} ∪ {[start d]}) ls in
  let scopes :=
    collect (λ d, (start d =? nid)
                  && (String.eqb (post d) "H" || String.eqb (post d) "HEQ"))
            (λ d, {[end_ d]}) ls in
  lab ← expand fuel ls lab0;
  Done (Highlights outs ins lab scopes).

(** [updateHighlights] reads the links bound to the drawing, those of the
    graph. *)
Definition updateHighlights (fuel : nat) (g : graph) (nid : Z)
  : outcome highlights :=
  highlight_sets fuel (parsed <$> g_links g) nid.

(** * Vocabulary of the statements *)

Definition is_top (d : link) : bool := start (parsed d) =? 0.

(** The gaps a link from [source] to [target] crosses. *)
Definition span_gaps (source target : option nat) : list nat :=
  if js_gt source target then gaps target source else gaps source target.

(** The gaps the arc of [d] crosses. *)
Definition span (d : link) : list nat := span_gaps (source d) (target d).

(** Gap [i] (between nodes [i] and [i+1]) lies under the arc of [d]: [i] is
    in [[min(source,target), max(source,target))]. *)
Definition covers (d : link) (i : nat) : Prop :=
  ∃ s t, source d = Some s ∧ target d = Some t ∧
         (s `min` t ≤ i < s `max` t)%nat.

(** [lvl] is taken on one of the gaps [gs]. *)
Definition taken_on (lvlIdx : gmap nat (gset Z)) (lvl : Z) (gs : list nat) : Prop :=
  ∃ i lv, i ∈ gs ∧ lvlIdx !! i = Some lv ∧ lvl ∈ lv.

(** [lvl] is free on every gap of [gs]. *)
Definition free_on (lvlIdx : gmap nat (gset Z)) (lvl : Z) (gs : list nat) : Prop :=
  ∀ i lv, i ∈ gs → lvlIdx !! i = Some lv → lvl ∉ lv.

(** every gap of [gs] has its entry in [lvlIdx]. *)
Definition keys_on (lvlIdx : gmap nat (gset Z)) (gs : list nat) : Prop :=
  ∀ i, i ∈ gs → is_Some (lvlIdx !! i).

(** [lvlIdx'] is [lvlIdx] with [lvl] added on the gaps [gs], and only there. *)
Definition marked (lvlIdx lvlIdx' : gmap nat (gset Z)) (lvl : Z) (gs : list nat)
  : Prop :=
  ∀ i, lvlIdx' !! i =
       if decide (i ∈ gs) then (λ lv, {[lvl]} ∪ lv) <$> lvlIdx !! i
       else lvlIdx !! i.

(** The link as the first pass leaves it. *)
Definition unlevel (d : link) : link :=
  Link (parsed d) (source d) (target d) (distance d) (dir d) None.

(** The links after the first pass of [prepareGraph] over them. *)
Definition resolved (g : d3_graph) : list link :=
  resolve (index_nodes 0 (nodes g) (∅, ∅)).1 <$> links g.

(** A link of [g] names a node that [g] does not have: its [to], or its
    [from] when that is not the root marker 0. *)
Definition missing_reference (g : d3_graph) (d : d3_link) : Prop :=
  (start d ≠ 0 ∧ start d ∉ id <$> nodes g) ∨ end_ d ∉ id <$> nodes g.

Definition new_top (st : lanes) (dir lvl : Z) : Z :=
  if dir =? 1 then Z.max (maxTopLevel st) lvl else maxTopLevel st.

Definition new_bottom (st : lanes) (dir lvl : Z) : Z :=
  if dir =? -1 then Z.min (maxBottomLevel st) lvl else maxBottomLevel st.

(** The loop body does not skip [d] when the loop stands at [dist]. *)
Definition due (dist : nat) (d : link) : bool :=
  negb (is_top d) && negb (dist_ne dist (distance d)).

(** What the loop body does to a link it does not skip. *)
Definition assign (fuel : nat) (d : link) (st : lanes) : outcome (link * lanes) :=
  '(lvl, idx) ← nextAvailableLevel fuel (source d) (target d) (dir d)
                  (levelIdx st);
  Done (set_level d lvl,
        Lanes idx (new_top st (dir d) lvl) (new_bottom st (dir d) lvl)).

(** The specification's reading of the engine: the links of [ls] are given
    their level one after the other, in the order of the list. *)
Fixpoint assign_all (fuel : nat) (ls : list link) (st : lanes)
  : outcome (list link * lanes) :=
  match ls with
  | [] => Done ([], st)
  | d :: ls' =>
      '(d', st1) ← assign fuel d st;
      '(ls'', st2) ← assign_all fuel ls' st1;
      Done (d' :: ls'', st2)
  end.

(** The order the specification gives for that: the non-TOP links of
    distance 0, then those of distance 1, and so on below [n], each group in
    the order of [ls]. *)
Definition schedule (n : nat) (ls : list link) : list link :=
  seq 0 n ≫= λ dist, filter (λ d, due dist d) ls.

(** [d1] has a smaller or equal span distance than [d2] *)
Definition distance_le (d1 d2 : link) : Prop :=
  ∃ x y, distance d1 = Some x ∧ distance d2 = Some y ∧ (x ≤ y)%nat.

(** The span distances of the non-TOP links are pairwise different. *)
Definition distinct_distances (ls : list link) : Prop :=
  ∀ j1 j2 d1 d2 dd, j1 ≠ j2 → ls !! j1 = Some d1 → ls !! j2 = Some d2 →
    is_top d1 = false → is_top d2 = false →
    distance d1 = Some dd → distance d2 ≠ Some dd.

(** [a] and [b] are the two ends of a link with post EQ. *)
Definition eq_linked (ls : list d3_link) (a b : Z) : Prop :=
  ∃ d, d ∈ ls ∧ post d = "EQ" ∧
       ((start d = a ∧ end_ d = b) ∨ (start d = b ∧ end_ d = a)).

(** All identifiers that occur as an end of a link. *)
Definition endpoints (ls : list d3_link) : gset Z :=
  foldr (λ d acc, {[start d]} ∪ {[end_ d]} ∪ acc) ∅ ls.

(** Role and level of each link of a graph. *)
Definition role_levels (g : graph) : list (string * option Z) :=
  (λ d, (rargname (parsed d), level d)) <$> g_links g.

(** ** The invariant of the layout loops *)

(** What the first pass over the links establishes, for [n] nodes. *)
Record wf_link (n : nat) (d : link) : Prop := {
  wf_dir : dir d = 1 ∨ dir d = -1;
  wf_source : ∀ s, source d = Some s → (s < n)%nat;
  wf_target : ∀ t, target d = Some t → (t < n)%nat;
  wf_distance :
    distance d = if is_top d then None else abs_diff (source d) (target d);
  wf_top_dir : is_top d = true → dir d = 1
}.

(** Number of links that carry a level. *)
Definition placed (L : list link) : nat :=
  length (filter (λ d, is_Some (level d)) L).

(** Link number [j] has had its turn when the loops stand at distance
    [dist], position [k]. *)
Definition done_at (dist k j : nat) (d : link) : Prop :=
  ∃ dd, distance d = Some dd ∧ (dd < dist ∨ dd = dist ∧ j < k)%nat.

Record inv (n dist k : nat) (L : list link) (st : lanes) : Prop := {
  inv_wf : ∀ j d, L !! j = Some d → wf_link n d;
  inv_fresh : ∀ j d l, L !! j = Some d → level d = Some l →
    is_top d = false ∧ done_at dist k j d;
  inv_levelled : ∀ j d, L !! j = Some d → is_top d = false →
    done_at dist k j d → is_Some (level d);
  inv_keys : ∀ i, (i < n)%nat → is_Some (levelIdx st !! i);
  inv_recorded : ∀ j d l i, L !! j = Some d → level d = Some l → i ∈ span d →
    ∃ lv, levelIdx st !! i = Some lv ∧ l ∈ lv;
  inv_owner : ∀ i lv l, levelIdx st !! i = Some lv → l ∈ lv →
    ∃ j d, L !! j = Some d ∧ level d = Some l ∧ i ∈ span d;
  inv_apart : ∀ j1 j2 d1 d2 l i, j1 ≠ j2 →
    L !! j1 = Some d1 → L !! j2 = Some d2 →
    level d1 = Some l → level d2 = Some l → i ∈ span d1 → i ∈ span d2 → False;
  inv_range : ∀ j d l, L !! j = Some d → level d = Some l →
    (dir d = 1 → 1 ≤ l ≤ maxTopLevel st) ∧
    (dir d = -1 → maxBottomLevel st ≤ l ≤ -1);
  inv_sign : maxBottomLevel st ≤ 0 ≤ maxTopLevel st;
  inv_top : maxTopLevel st = 0 ∨
    ∃ j d, L !! j = Some d ∧ dir d = 1 ∧ level d = Some (maxTopLevel st);
  inv_bottom : maxBottomLevel st = 0 ∨
    ∃ j d, L !! j = Some d ∧ dir d = -1 ∧ level d = Some (maxBottomLevel st);
  inv_bound : ∀ i lv l, levelIdx st !! i = Some lv → l ∈ lv →
    Z.abs l ≤ Z.of_nat (placed L)
}.

(** ** Graphs used as examples *)

(** A sentence of three nodes with a TOP link, two parallel argument links,
    an undirected EQ link, a quantifier link and a link to a missing node. *)
Definition sample : d3_graph :=
  D3Graph [Node 10 20 12; Node 20 70 12; Node 30 130 12]
    [D3Link 0 10 "" "H"; D3Link 10 20 "ARG1" "NEQ"; D3Link 10 20 "ARG2" "NEQ";
     D3Link 30 10 "" "EQ"; D3Link 20 30 "RSTR" "h"; D3Link 10 99 "ARG1" "NEQ"].

(** [sample] with its two parallel argument links exchanged. *)
Definition sample_swapped : d3_graph :=
  D3Graph (nodes sample)
    [D3Link 0 10 "" "H"; D3Link 10 20 "ARG2" "NEQ"; D3Link 10 20 "ARG1" "NEQ";
     D3Link 30 10 "" "EQ"; D3Link 20 30 "RSTR" "h"; D3Link 10 99 "ARG1" "NEQ"].

(** A two-node graph whose only link has no role and post NEQ. *)
Definition roleless_neq : d3_graph :=
  D3Graph [Node 1 20 12; Node 2 70 12] [D3Link 1 2 "" "NEQ"].

(** A link over gaps 0 and 1, and lanes where level 1 is taken on gap 0 and
    level 2 on gap 1. *)
Definition long_link : link :=
  Link (D3Link 10 30 "ARG1" "NEQ") (Some 2%nat) (Some 0%nat) (Some 2%nat) 1 None.

Definition busy_lanes : lanes :=
  Lanes (<[0%nat := {[1]}]> (<[1%nat := {[2]}]> (<[2%nat := ∅]> ∅))) 2 0.

(** Three links from the first node, of distances 1, 2 and 3, and the same
    links in another order. *)
Definition fan : d3_graph :=
  D3Graph [Node 1 20 12; Node 2 70 12; Node 3 130 12; Node 4 190 12]
    [D3Link 1 2 "ARG1" "NEQ"; D3Link 1 3 "ARG2" "NEQ"; D3Link 1 4 "ARG3" "NEQ"].

Definition fan_reordered : d3_graph :=
  D3Graph (nodes fan)
    [D3Link 1 4 "ARG3" "NEQ"; D3Link 1 2 "ARG1" "NEQ"; D3Link 1 3 "ARG2" "NEQ"].

(** Node 1 with an ARG1 link to node 2 and an EQ link coming from node 3. *)
Definition scenario_links : list d3_link :=
  [D3Link 1 2 "ARG1" "NEQ"; D3Link 3 1 "" "EQ"].

(** * The embedding: the drawing and the selection *)

(** ** dmrsDisplay: the sizes it computes *)

Definition node_dx : Q := 20.

(** The [height] attribute of the drawing:
    [(graph.maxTopLevel - graph.maxBottomLevel + 3) * level_dy]. *)
Definition svg_height (g : graph) : Q :=
  inject_Z (g_maxTopLevel g - g_maxBottomLevel g + 3) * level_dy.

(** The vertical shift of the group that holds nodes and links:
    [translate(0, (graph.maxTopLevel + 2) * level_dy)]. *)
Definition baseline (g : graph) : Q :=
  inject_Z (g_maxTopLevel g + 2) * level_dy.

(** ** dmrsDisplay: what it draws *)

(** What [getBBox] returns for the text of a node; only the width and the
    height are read. *)
Record text_box := TextBox { bb_width : Q; bb_height : Q }.

(** The callback of [attr("x", ...)] over the nodes, in order: [x_pos] is
    threaded through, and node number [i] gets its [x] and its [bbox]. *)
Fixpoint set_x (getBBox : nat → text_box) (i : nat) (x_pos : Q)
    (ns : list node) : list (node * text_box) * Q :=
  match ns with
  | [] => ([], x_pos)
  | d :: ns' =>
      let bbox := getBBox i in
      let halfLen := (bb_width bbox / 2)%Q in
      let x := (x_pos + halfLen)%Q in
      let x_pos := (x + halfLen + node_dx)%Q in
      let '(out, x_end) := set_x getBBox (S i) x_pos ns' in
      ((Node (id d) x (bb_height bbox), bbox) :: out, x_end)
  end.

(** The rectangle inserted behind the text of a node. *)
Record rect := Rect { r_x : Q; r_y : Q; r_width : Q; r_height : Q }.

Definition nodeBox (d : node * text_box) : rect :=
  Rect (x d.1 - bb_width d.2 / 2 - 2)%Q (- (bb_height d.2 / 2) - 2)%Q
       (bb_width d.2 + 4)%Q (bb_height d.2 + 4)%Q.

(** [d3.sum(nodes.data(), function(d) { return d.bbox.width + node_dx; })] *)
Definition svg_width (ns : list (node * text_box)) : Q :=
  foldl (λ acc d, acc + (bb_width d.2 + node_dx))%Q 0%Q ns.

Inductive edge_class : Set := topedge | eqedge | linkedge.

(** [d.rargname == "" && d.post == "EQ"] *)
Definition undirected_eq (d : link) : bool :=
  String.eqb (rargname (parsed d)) "" && String.eqb (post (parsed d)) "EQ".

Definition edge_class_of (d : link) : edge_class :=
  if start (parsed d) =? 0 then topedge
  else if undirected_eq d then eqedge
  else linkedge.

(** The path and the text appended for a link: class, [d] attribute, the
    factor of [scale(1, ...)], whether [marker-end] is the arrowhead, and the
    text with its position ([None] is [NaN]). *)
Record drawn_link := DrawnLink {
  dl_class : edge_class;
  dl_d : list tok;
  dl_scale : Z;
  dl_arrowhead : bool;
  dl_text : string;
  dl_text_x : Q;
  dl_text_y : option Q
}.

Definition draw (d : link) (p : list tok * midpoint) : drawn_link :=
  DrawnLink (edge_class_of d) p.1 (dir d * -1) (negb (undirected_eq d))
    (rargname (parsed d) +:+ "/" +:+ post (parsed d))
    (mid_x p.2)
    ((λ y, y * inject_Z (-1 * dir d) - 3)%Q <$> mid_y p.2).

(** The callback of [attr("d", ...)] over the links, in order; the first
    exception ends the run. *)
Fixpoint path_specs (g : graph) (ls : list link)
  : outcome (list (list tok * midpoint)) :=
  match ls with
  | [] => Done []
  | d :: ls' =>
      p ← getPathSpec d g;
      ps ← path_specs g ls';
      Done (p :: ps)
  end.

Record display := Display {
  svg_h : Q;
  group_dy : Q;
  svg_w : Q;
  shown_nodes : list (node * text_box);
  boxes : list rect;
  shown_links : list drawn_link
}.

(** The drawing made by [dmrsDisplay], for the text boxes [getBBox] that the
    browser measures; tooltips and event handlers are left out. *)
Definition dmrsDisplay (fuel : nat) (getBBox : nat → text_box) (g : d3_graph)
  : outcome display :=
  graph ← prepareGraph fuel g;
  let ns := (set_x getBBox 0 10 (g_nodes graph)).1 in
  let graph' := Graph (fst <$> ns) (g_links graph) (g_maxTopLevel graph)
                  (g_maxBottomLevel graph) (g_sticky graph) in
  ps ← path_specs graph' (g_links graph);
  Done (Display (svg_height graph) (baseline graph) (svg_width ns) ns
          (nodeBox <$> ns) (zip_with draw (g_links graph) ps)).

(** ** The selection: toggleSticky and the mouse handlers of dmrsDisplay *)

(** What the handlers read and write of a node: [d.sticky] (undefined at
    first, which reads as false) and the class [selected] of its element. *)
Record node_ui := NodeUI { n_sticky : bool; n_selected : bool }.

(** The nodes of a drawing and [graph.sticky]. *)
Record ui := UI { ui_nodes : list node_ui; ui_sticky : bool }.

(** [toggleSticky(id, node, d)] for the node at position [i], whose datum
    reads [d]; the second component is the value returned. *)
Definition toggleSticky (i : nat) (d : node_ui) (ns : list node_ui)
  : list node_ui * bool :=
  if n_sticky d then (<[i := NodeUI false false]> ns, false)
  else
    let ns' :=
      (λ d', if n_selected d' then NodeUI false false else d') <$> ns in
    (<[i := NodeUI true true]> ns', true).

Inductive event : Set :=
  | Mouseover (i : nat)
  | Mouseout (i : nat)
  | Click (i : nat).

Definition event_node (e : event) : nat :=
  match e with Mouseover i | Mouseout i | Click i => i end.

(** The handlers that [dmrsDisplay] puts on the nodes, as far as selection
    goes; an event on a position without a node does not occur. *)
Definition handle (e : event) (st : ui) : ui :=
  match ui_nodes st !! event_node e with
  | None => st
  | Some d =>
      match e with
      | Mouseover i =>
          if ui_sticky st then st
          else UI (<[i := NodeUI (n_sticky d) true]> (ui_nodes st))
                  (ui_sticky st)
      | Mouseout i =>
          if n_sticky d then st
          else UI (<[i := NodeUI (n_sticky d) false]> (ui_nodes st))
                  (ui_sticky st)
      | Click i =>
          let '(ns, stickyState) := toggleSticky i d (ui_nodes st) in
          UI ns stickyState
      end
  end.

(** A drawing of [n] nodes as [dmrsDisplay] leaves it. *)
Definition fresh_ui (n : nat) : ui := UI (replicate n (NodeUI false false)) false.

Definition run_events (n : nat) (evs : list event) : ui :=
  foldl (λ st e, handle e st) (fresh_ui n) evs.

(** ** updateHighlights: the classes it sets *)

(** The classes [out], [in], [labelset] and [scope] of an element. *)
Record flags := Flags {
  f_out : bool;
  f_in : bool;
  f_labelset : bool;
  f_scope : bool
}.

(** What the four callbacks of [classed] return for the link [d] when the
    selected node is [nid]. *)
Definition link_flags (nid : Z) (d : d3_link) : flags :=
  Flags (truthy (rargname d) && (nid =? start d))
        (truthy (rargname d) && (nid =? end_ d))
        (String.eqb (post d) "EQ" && ((start d =? nid) || (end_ d =? nid)))
        (if (start d =? nid)
            && (String.eqb (post d) "H" || String.eqb (post d) "HEQ")
         then true
         else (end_ d =? nid)
              && (String.eqb (post d) "H" || String.eqb (post d) "HEQ")).

(** The classes given to the node with identifier [v]. *)
Definition node_flags (h : highlights) (v : Z) : flags :=
  Flags (bool_decide (v ∈ outs h)) (bool_decide (v ∈ ins h))
        (bool_decide (v ∈ labelset h)) (bool_decide (v ∈ scopes h)).

(** The identifiers of the nodes whose element has the class [selected],
    in the order of the nodes. *)
Definition selected_ids (ids : list Z) (ns : list node_ui) : list Z :=
  (filter (λ p, n_selected p.2 = true) (zip ids ns)).*1.

(** [updateHighlights]: all classes are cleared, then each selected node in
    turn sets the classes of all links and nodes from its own sets, so the
    sets of the last one are those shown ([None]: nothing is highlighted). *)
Definition shown_sets (fuel : nat) (ls : list d3_link) (sel : list Z)
  : outcome (option highlights) :=
  foldl (λ acc nid, _ ← acc; h ← highlight_sets fuel ls nid; Done (Some h))
        (Done None) sel.

(** * Vocabulary of the further statements *)

(** The points of a path: the pairs of numbers that follow its commands. *)
Fixpoint path_points (ts : list tok) : list (tok * tok) :=
  match ts with
  | [] => []
  | Cmd _ :: ts' => path_points ts'
  | Num a :: ts' =>
      match ts' with
      | Num b :: ts'' => (Num a, Num b) :: path_points ts''
      | _ => []
      end
  end.

(** [p] is the position of the last node of [ns] whose identifier is [k]. *)
Definition last_index (ns : list node) (k : Z) (p : nat) : Prop :=
  (∃ nd, ns !! p = Some nd ∧ id nd = k) ∧
  ∀ p' nd', (p < p')%nat → ns !! p' = Some nd' → id nd' ≠ k.

(** The graph without its TOP links. *)
Definition without_top (g : d3_graph) : d3_graph :=
  D3Graph (nodes g) (filter (λ d, start d ≠ 0) (links g)).

(** Number of links of direction [s] that carry a level. *)
Definition placed_dir (s : Z) (L : list link) : nat :=
  length (filter (λ d, is_Some (level d) ∧ dir d = s) L).

(** The levels in the lanes and on the links are bounded by the number of
    links placed on their side of the line. *)
Record inv_count (L : list link) (st : lanes) : Prop := {
  cnt_lanes : ∀ i lv l, levelIdx st !! i = Some lv → l ∈ lv →
    (0 < l → l ≤ Z.of_nat (placed_dir 1 L)) ∧
    (l < 0 → - l ≤ Z.of_nat (placed_dir (-1) L));
  cnt_links : ∀ j d l, L !! j = Some d → level d = Some l →
    (dir d = 1 → l ≤ Z.of_nat (placed_dir 1 L)) ∧
    (dir d = -1 → - l ≤ Z.of_nat (placed_dir (-1) L))
}.

(** What holds of the selection after any events on [n] nodes: in sticky
    mode one node is sticky and selected and nothing else is; otherwise no
    node is sticky. *)
Definition sel_inv (n : nat) (st : ui) : Prop :=
  length (ui_nodes st) = n ∧
  if ui_sticky st
  then ∃ k, (k < n)%nat ∧
         ui_nodes st = <[k := NodeUI true true]> (replicate n (NodeUI false false))
  else ∀ i d, ui_nodes st !! i = Some d → n_sticky d = false.

(** Link [d1], at position [j1], has its turn in the loops of [prepareGraph]
    before link [d2], at position [j2]: it has the smaller distance, or the
    same distance and the earlier position. *)
Definition placed_before (j1 : nat) (d1 : link) (j2 : nat) (d2 : link) : Prop :=
  ∃ x y, distance d1 = Some x ∧ distance d2 = Some y ∧
         (x < y ∨ x = y ∧ j1 < j2)%nat.

(** Below the level of a link, on its side, every level is held by a link
    that had its turn earlier and shares a gap with it. *)
Definition inv_below (L : list link) (st : lanes) : Prop :=
  ∀ j d l c, L !! j = Some d → level d = Some l → 1 ≤ c < Z.abs l →
    ∃ j3 d3 i, L !! j3 = Some d3 ∧ level d3 = Some (dir d * c) ∧
               placed_before j3 d3 j d ∧ i ∈ span d3 ∧ i ∈ span d.

(** * Properties of the level search *)

Lemma bind_Done {A B} (m : outcome A) (f : A → outcome B) (b : B) :
  m ≫= f = Done b → ∃ a, m = Done a ∧ f a = Done b.
Proof. destruct m; simpl; [eauto | done | done]. Qed.

Lemma free_not_taken lvlIdx lvl gs :
  free_on lvlIdx lvl gs → taken_on lvlIdx lvl gs → False.
Proof. intros Hf (i & lv & Hi & Hlv & Hin). exact (Hf i lv Hi Hlv Hin). Qed.

Lemma occupied_true lvlIdx c gs :
  occupied lvlIdx c gs = Done true → taken_on lvlIdx c gs.
Proof.
  induction gs as [|i gs IH]; simpl; [done|].
  destruct (lvlIdx !! i) as [lv|] eqn:Hlv; [|done].
  case_bool_decide as Hin.
  - intros _. exists i, lv. split_and!; [left | done | done].
  - intros H. destruct (IH H) as (j & lv' & Hj & ? & ?).
    exists j, lv'. split_and!; [by right | done | done].
Qed.

Lemma occupied_false lvlIdx c gs :
  occupied lvlIdx c gs = Done false → keys_on lvlIdx gs ∧ free_on lvlIdx c gs.
Proof.
  induction gs as [|i gs IH]; simpl.
  - intros _. split; intros j; [|intros lv]; by rewrite elem_of_nil.
  - destruct (lvlIdx !! i) as [lv|] eqn:Hlv; [|done].
    case_bool_decide as Hin; [done|].
    intros H. destruct (IH H) as [Hk Hf]. split.
    + intros j [->|Hj]%elem_of_cons; [by rewrite Hlv | by apply Hk].
    + intros j lv' [->|Hj]%elem_of_cons Hl; [congruence | by eapply Hf].
Qed.

Lemma occupied_total lvlIdx c gs :
  keys_on lvlIdx gs → ∃ b, occupied lvlIdx c gs = Done b.
Proof.
  induction gs as [|i gs IH]; simpl; intros Hk; [by eexists|].
  destruct (Hk i) as [lv ->]; [left|].
  case_bool_decide; [by eexists|].
  apply IH. intros j Hj. apply Hk. by right.
Qed.

Lemma mark_marked lvlIdx lvl gs lvlIdx' :
  mark lvlIdx lvl gs = Done lvlIdx' → marked lvlIdx lvlIdx' lvl gs.
Proof.
  revert lvlIdx. induction gs as [|i gs IH]; simpl; intros lvlIdx.
  - intros [= <-] j. by rewrite decide_False; [|apply not_elem_of_nil].
  - destruct (lvlIdx !! i) as [lv|] eqn:Hlv; [|done].
    intros H j. rewrite (IH _ H j). clear IH H.
    destruct (decide (j = i)) as [->|Hne].
    + rewrite lookup_insert_eq, Hlv, (decide_True _ _ (list_elem_of_here _ _)).
      destruct (decide (i ∈ gs)); simpl; [|done].
      by rewrite (assoc_L (∪)), (idemp_L (∪)).
    + rewrite lookup_insert_ne by done.
      destruct (decide (j ∈ gs)) as [Hj|Hj].
      * by rewrite decide_True by (by right).
      * rewrite decide_False; [done|]. by intros [?|?]%elem_of_cons.
Qed.

Lemma mark_total lvlIdx lvl gs :
  keys_on lvlIdx gs → ∃ lvlIdx', mark lvlIdx lvl gs = Done lvlIdx'.
Proof.
  revert lvlIdx. induction gs as [|i gs IH]; simpl; intros lvlIdx Hk;
    [by eexists|].
  destruct (Hk i) as [lv Hlv]; [left|]. rewrite Hlv.
  apply IH. intros j Hj.
  destruct (decide (i = j)) as [->|?];
    [rewrite lookup_insert_eq | rewrite lookup_insert_ne by done]; [done|].
  apply Hk. by right.
Qed.

Lemma marked_is_Some lvlIdx lvlIdx' lvl gs i :
  marked lvlIdx lvlIdx' lvl gs → is_Some (lvlIdx' !! i) ↔ is_Some (lvlIdx !! i).
Proof.
  intros Hm. rewrite (Hm i). case_decide; [|done]. by rewrite fmap_is_Some.
Qed.

Lemma marked_mono lvlIdx lvlIdx' lvl gs i lv l :
  marked lvlIdx lvlIdx' lvl gs → lvlIdx !! i = Some lv → l ∈ lv →
  ∃ lv', lvlIdx' !! i = Some lv' ∧ l ∈ lv'.
Proof.
  intros Hm Hlv Hl. rewrite (Hm i), Hlv. case_decide; simpl; eexists;
    (split; [done|]); set_solver.
Qed.

Lemma marked_new lvlIdx lvlIdx' lvl gs i :
  marked lvlIdx lvlIdx' lvl gs → is_Some (lvlIdx !! i) → i ∈ gs →
  ∃ lv', lvlIdx' !! i = Some lv' ∧ lvl ∈ lv'.
Proof.
  intros Hm [lv Hlv] Hi. rewrite (Hm i), Hlv, decide_True by done. simpl.
  eexists. split; [done|]. set_solver.
Qed.

Lemma marked_inv lvlIdx lvlIdx' lvl gs i lv' l :
  marked lvlIdx lvlIdx' lvl gs → lvlIdx' !! i = Some lv' → l ∈ lv' →
  (l = lvl ∧ i ∈ gs) ∨ ∃ lv, lvlIdx !! i = Some lv ∧ l ∈ lv.
Proof.
  intros Hm. rewrite (Hm i). case_decide as Hi.
  - destruct (lvlIdx !! i) as [lv|]; simpl; [|done].
    intros [= <-] [->%elem_of_singleton|Hl]%elem_of_union; [by left|].
    right. by exists lv.
  - intros Hlv Hl. right. by exists lv'.
Qed.

Lemma search_done fuel lvlIdx gs dir c l lvlIdx' :
  dir = 1 ∨ dir = -1 → 1 ≤ c →
  search fuel lvlIdx gs dir (dir * c) = Done (l, lvlIdx') →
  ∃ k, l = dir * k ∧ c ≤ k ∧ keys_on lvlIdx gs ∧ free_on lvlIdx l gs ∧
       (∀ j, c ≤ j < k → taken_on lvlIdx (dir * j) gs) ∧
       marked lvlIdx lvlIdx' l gs.
Proof.
  intros Hdir. revert c. induction fuel as [|fuel IH]; intros c Hc; [done|].
  simpl. intros (taken & Hocc & H)%bind_Done. destruct taken; simpl in H.
  - replace (dir * c + dir) with (dir * (c + 1)) in H by lia.
    apply IH in H as (k & -> & Hk & Hkeys & Hfree & Hbelow & Hm); [|lia].
    exists k. split_and!; [done | lia | done | done | | done].
    intros j Hj. destruct (decide (j = c)) as [->|?].
    + by apply occupied_true.
    + apply Hbelow. lia.
  - apply bind_Done in H as (idx1 & Hmark & H).
    destruct (dir * c =? 0) eqn:Hz; [lia|]. injection H as <- <-.
    apply occupied_false in Hocc as [Hkeys Hfree].
    exists c. split_and!; [done | lia | done | done | lia |].
    by apply mark_marked.
Qed.

Lemma search_total fuel lvlIdx gs dir c B :
  dir = 1 ∨ dir = -1 → 1 ≤ c → keys_on lvlIdx gs →
  (∀ k, c ≤ k → taken_on lvlIdx (dir * k) gs → k ≤ B) →
  c ≤ B + 1 → B + 1 - c < Z.of_nat fuel →
  ∃ k lvlIdx', search fuel lvlIdx gs dir (dir * c) = Done (dir * k, lvlIdx')
               ∧ k ≤ B + 1.
Proof.
  intros Hdir. revert c.
  induction fuel as [|fuel IH]; intros c Hc Hkeys HB HcB Hfuel; [lia|].
  simpl. destruct (occupied_total lvlIdx (dir * c) gs Hkeys) as [taken Hocc].
  rewrite Hocc. simpl. destruct taken; simpl.
  - apply occupied_true in Hocc. pose proof (HB c (Z.le_refl _) Hocc).
    replace (dir * c + dir) with (dir * (c + 1)) by lia.
    apply IH; [lia | done | | lia | lia].
    intros k Hk. apply HB. lia.
  - destruct (mark_total lvlIdx (dir * c) gs Hkeys) as [idx1 ->]. simpl.
    destruct (dir * c =? 0) eqn:Hz; [lia|]. by exists c, idx1.
Qed.

(** More fuel does not change an outcome that needed no more. *)
Lemma search_fuel_mono fuel fuel' lvlIdx gs dir cur r :
  (fuel ≤ fuel')%nat → search fuel lvlIdx gs dir cur = r → r ≠ OutOfFuel →
  search fuel' lvlIdx gs dir cur = r.
Proof.
  revert fuel' lvlIdx cur.
  induction fuel as [|fuel IH]; intros fuel' lvlIdx cur Hle; simpl;
    [by intros <-|].
  destruct fuel' as [|fuel']; [lia|]. simpl.
  destruct (occupied lvlIdx cur gs) as [taken| |]; simpl; [|done..].
  destruct taken; simpl; [apply IH; lia|].
  destruct (mark lvlIdx cur gs) as [idx1| |]; simpl; [|done..].
  destruct (cur =? 0); [apply IH; lia | done].
Qed.

Lemma nextAvailableLevel_search fuel source target dir lvlIdx :
  nextAvailableLevel fuel source target dir lvlIdx =
  search fuel lvlIdx (span_gaps source target) dir dir.
Proof. unfold nextAvailableLevel, span_gaps. by destruct (js_gt _ _). Qed.

Lemma elem_of_span_gaps s t i :
  i ∈ span_gaps (Some s) (Some t) ↔ (s `min` t ≤ i < s `max` t)%nat.
Proof.
  unfold span_gaps, js_gt, gaps.
  destruct (Nat.ltb_spec t s); rewrite elem_of_seq; lia.
Qed.

Lemma span_gaps_None_l t : span_gaps None t = [].
Proof. done. Qed.

Lemma span_gaps_None_r s : span_gaps s None = [].
Proof. by destruct s. Qed.

(** * The invariant is kept by the loops *)

Lemma place_unfold fuel dist d st :
  place fuel dist d st =
  if is_top d || dist_ne dist (distance d) then Done (d, st)
  else
    '(lvl, idx) ← nextAvailableLevel fuel (source d) (target d) (dir d)
                    (levelIdx st);
    Done (set_level d lvl,
          Lanes idx (new_top st (dir d) lvl) (new_bottom st (dir d) lvl)).
Proof.
  unfold place, is_top, new_top, new_bottom.
  destruct (start (parsed d) =? 0); [done|].
  destruct (dist_ne dist (distance d)); [done|]. simpl.
  destruct (nextAvailableLevel _ _ _ _ _) as [[lvl idx]| |]; simpl; [|done..].
  destruct (Z.eqb_spec (dir d) 1) as [->|?]; simpl.
  - destruct (Z.ltb_spec (maxTopLevel st) lvl); do 2 f_equal; f_equal; lia.
  - destruct (Z.eqb_spec (dir d) (-1)) as [Hd|?]; simpl; [|done].
    destruct (Z.ltb_spec lvl (maxBottomLevel st)); do 2 f_equal; f_equal; lia.
Qed.

Lemma dist_ne_false dist o : dist_ne dist o = false ↔ o = Some dist.
Proof.
  destruct o as [m|]; simpl; [|done].
  destruct (Nat.eqb_spec dist m); naive_solver.
Qed.

Lemma placed_app L1 L2 : placed (L1 ++ L2) = (placed L1 + placed L2)%nat.
Proof. unfold placed. by rewrite filter_app, length_app. Qed.

Lemma placed_le L : (placed L ≤ length L)%nat.
Proof. apply length_filter. Qed.

Lemma placed_insert L k d lvl :
  L !! k = Some d → level d = None →
  placed (<[k := set_level d lvl]> L) = S (placed L) ∧
  (placed L < length L)%nat.
Proof.
  intros Hk Hnone. pose proof (lookup_lt_Some _ _ _ Hk) as Hlt.
  rewrite insert_take_drop by done.
  pose proof (take_drop_middle L k d Hk) as HL. revert HL.
  generalize (take k L) (drop (S k) L). intros L1 L2 <-.
  rewrite !placed_app, !length_app. simpl.
  pose proof (placed_le L1). pose proof (placed_le L2).
  unfold placed at 2 4 6.
  rewrite filter_cons_True by (simpl; eauto).
  rewrite !filter_cons_False by (rewrite Hnone; by intros [??]).
  simpl. fold (placed L2). lia.
Qed.

Lemma span_set_level d lvl : span (set_level d lvl) = span d.
Proof. done. Qed.

Lemma wf_set_level n d lvl : wf_link n d → wf_link n (set_level d lvl).
Proof. intros []. by split. Qed.

Lemma span_lt n d i : wf_link n d → i ∈ span d → (i < n)%nat.
Proof.
  intros Hwf. unfold span.
  destruct (source d) as [s|] eqn:Hs; [|by rewrite span_gaps_None_l, elem_of_nil].
  destruct (target d) as [t|] eqn:Ht; [|by rewrite span_gaps_None_r, elem_of_nil].
  rewrite elem_of_span_gaps.
  pose proof (wf_source _ _ Hwf _ Hs). pose proof (wf_target _ _ Hwf _ Ht). lia.
Qed.

Lemma search_first fuel lvlIdx gs dir B :
  dir = 1 ∨ dir = -1 → keys_on lvlIdx gs →
  (∀ k, 1 ≤ k → taken_on lvlIdx (dir * k) gs → k ≤ B) →
  0 ≤ B → B < Z.of_nat fuel →
  ∃ k lvlIdx', search fuel lvlIdx gs dir dir = Done (dir * k, lvlIdx') ∧
    1 ≤ k ≤ B + 1 ∧ free_on lvlIdx (dir * k) gs ∧
    (∀ j, 1 ≤ j < k → taken_on lvlIdx (dir * j) gs) ∧
    marked lvlIdx lvlIdx' (dir * k) gs.
Proof.
  intros Hdir Hkeys HB HB0 Hfuel.
  destruct (search_total fuel lvlIdx gs dir 1 B) as (k & idx' & Hs & Hk);
    [done | lia | done | done | lia | lia |].
  rewrite Z.mul_1_r in Hs. exists k, idx'. split; [done|].
  pose proof Hs as Hs'. rewrite <-(Z.mul_1_r dir) in Hs' at 2.
  apply search_done in Hs' as (k' & Heq & ? & _ & ? & ? & ?); [|done|lia].
  assert (k' = k) as -> by (destruct Hdir as [-> | ->]; lia).
  split_and!; [lia | done..].
Qed.

Lemma done_at_S dist k j d : done_at dist k j d → done_at dist (S k) j d.
Proof. intros (dd & ? & ?). exists dd. split; [done|lia]. Qed.

Lemma done_at_S_inv dist k j d :
  done_at dist (S k) j d → done_at dist k j d ∨ (j = k ∧ distance d = Some dist).
Proof.
  intros (dd & Hd & H). destruct (decide (dd = dist ∧ j = k)) as [[-> ->]|?].
  - by right.
  - left. exists dd. split; [done|lia].
Qed.

Lemma place_skip_inv n dist k L st d :
  inv n dist k L st → L !! k = Some d →
  is_top d || dist_ne dist (distance d) = true →
  inv n dist (S k) L st.
Proof.
  intros [] Hk Hskip. split; try done.
  - intros j d0 l Hj Hl. destruct (inv_fresh0 j d0 l Hj Hl) as [? ?].
    split; [done|]. by apply done_at_S.
  - intros j d0 Hj Htop [?|[-> Hd]]%done_at_S_inv; [by eapply inv_levelled0|].
    assert (d0 = d) as -> by congruence.
    rewrite Htop in Hskip. simpl in Hskip.
    apply dist_ne_false in Hd. congruence.
Qed.

Lemma place_inv n fuel dist k L st d :
  inv n dist k L st → L !! k = Some d → (length L ≤ fuel)%nat →
  ∃ d' st', place fuel dist d st = Done (d', st') ∧
            inv n dist (S k) (<[k := d']> L) st'.
Proof.
  intros Hinv Hk Hfuel. rewrite place_unfold.
  destruct (is_top d || dist_ne dist (distance d)) eqn:Hskip.
  { exists d, st. split; [done|]. rewrite list_insert_id by done.
    by eapply place_skip_inv. }
  apply orb_false_iff in Hskip as [Htop Hdist].
  apply dist_ne_false in Hdist.
  pose proof (inv_wf _ _ _ _ _ Hinv k d Hk) as Hwf.
  assert (level d = None) as Hnone.
  { destruct (level d) as [l|] eqn:Hl; [|done].
    destruct (inv_fresh _ _ _ _ _ Hinv k d l Hk Hl) as [_ (dd & Hdd & ?)].
    rewrite Hdist in Hdd. injection Hdd as <-. lia. }
  assert (keys_on (levelIdx st) (span d)) as Hkeys.
  { intros i Hi. eapply inv_keys; [done|]. by eapply span_lt. }
  destruct (placed_insert L k d 0 Hk Hnone) as [_ Hlt].
  destruct (search_first fuel (levelIdx st) (span d) (dir d)
              (Z.of_nat (placed L)))
    as (c & idx' & Hs & Hc & Hfree & Hbelow & Hm);
    [by destruct Hwf | done | | lia | lia |].
  { intros c Hc (i & lv & _ & Hlv & Hin).
    pose proof (inv_bound _ _ _ _ _ Hinv i lv _ Hlv Hin).
    destruct (wf_dir _ _ Hwf) as [Hd|Hd]; rewrite Hd in *; lia. }
  rewrite nextAvailableLevel_search. fold (span d). rewrite Hs. simpl.
  eexists _, _. split; [done|].
  set (l := dir d * c) in *. set (d' := set_level d l).
  assert (Z.abs l = c) as Habs.
  { unfold l. destruct (wf_dir _ _ Hwf) as [-> | ->]; lia. }
  destruct (placed_insert L k d l Hk Hnone) as [Hplaced _]. fold d' in Hplaced.
  assert (∀ j d0, <[k := d']> L !! j = Some d0 →
            (j = k ∧ d0 = d') ∨ (j ≠ k ∧ L !! j = Some d0)) as Hcase.
  { intros j d0 [(-> & -> & _)|[? ?]]%list_lookup_insert_Some; eauto. }
  destruct Hinv. split; simpl.
  - intros j d0 [[-> ->]|[_ Hj]]%Hcase; [by apply wf_set_level | eauto].
  - intros j d0 l0 [[-> ->]|[_ Hj]]%Hcase Hl.
    + split; [done|]. exists dist. split; [done|lia].
    + destruct (inv_fresh0 j d0 l0 Hj Hl). split; [done|]. by apply done_at_S.
  - intros j d0 [[-> ->]|[Hne Hj]]%Hcase Ht Hdone; [by eexists|].
    apply done_at_S_inv in Hdone as [?|[? _]]; [eauto | done].
  - intros i Hi. rewrite (marked_is_Some _ _ _ _ i Hm). auto.
  - intros j d0 l0 i [[-> ->]|[_ Hj]]%Hcase Hl Hi.
    + injection Hl as <-. eapply marked_new; [done | | done].
      by apply Hkeys.
    + destruct (inv_recorded0 j d0 l0 i Hj Hl Hi) as (lv & ? & ?).
      by eapply marked_mono.
  - intros i lv' l0 Hlv Hin.
    destruct (marked_inv _ _ _ _ _ _ _ Hm Hlv Hin) as [[-> Hi]|(lv & ? & ?)].
    + exists k, d'. split_and!; [|done..].
      apply list_lookup_insert_eq. by eapply lookup_lt_Some.
    + destruct (inv_owner0 i lv l0) as (j & d0 & Hj & Hl & ?); [done..|].
      exists j, d0. split_and!; [|done..].
      rewrite list_lookup_insert_ne; [done|]. intros ->. congruence.
  - assert (∀ j d0 i, j ≠ k → L !! j = Some d0 → level d0 = Some l →
              i ∈ span d0 → i ∈ span d → False) as Hclash.
    { intros j d0 i _ Hj Hl Hi0 Hi.
      destruct (inv_recorded0 j d0 l i Hj Hl Hi0) as (lv & Hlv & Hin).
      exact (Hfree i lv Hi Hlv Hin). }
    intros j1 j2 d1 d2 l0 i Hne [[-> ->]|[? Hj1]]%Hcase [[-> ->]|[? Hj2]]%Hcase
      Hl1 Hl2 Hi1 Hi2; [done| | |by eauto].
    + injection Hl1 as <-. by eapply (Hclash j2 d2 i).
    + injection Hl2 as <-. by eapply (Hclash j1 d1 i).
  - unfold new_top, new_bottom.
    intros j d0 l0 [[-> ->]|[_ Hj]]%Hcase Hl.
    + injection Hl as <-. simpl.
      split; intros Hd; rewrite Hd in *; simpl; unfold l; lia.
    + destruct (inv_range0 j d0 l0 Hj Hl) as [H1 H2].
      split; intros Hd; [specialize (H1 Hd) | specialize (H2 Hd)];
        destruct (dir d =? 1), (dir d =? -1); lia.
  - unfold new_top, new_bottom.
    destruct (dir d =? 1), (dir d =? -1); lia.
  - unfold new_top.
    assert (maxTopLevel st = 0 ∨ ∃ j d0, <[k:=d']> L !! j = Some d0 ∧
              dir d0 = 1 ∧ level d0 = Some (maxTopLevel st)) as Hold.
    { destruct inv_top0 as [?|(j & d0 & Hj & ? & Hl)]; [by left|right].
      exists j, d0. split_and!; [|done..].
      rewrite list_lookup_insert_ne; [done|]. intros ->. congruence. }
    destruct (Z.eqb_spec (dir d) 1) as [Hd|_]; [|done].
    destruct (Z.max_spec (maxTopLevel st) l) as [[_ ->]|[_ ->]]; [|done].
    right. exists k, d'. split_and!; [|done..].
    apply list_lookup_insert_eq. by eapply lookup_lt_Some.
  - unfold new_bottom.
    assert (maxBottomLevel st = 0 ∨ ∃ j d0, <[k:=d']> L !! j = Some d0 ∧
              dir d0 = -1 ∧ level d0 = Some (maxBottomLevel st)) as Hold.
    { destruct inv_bottom0 as [?|(j & d0 & Hj & ? & Hl)]; [by left|right].
      exists j, d0. split_and!; [|done..].
      rewrite list_lookup_insert_ne; [done|]. intros ->. congruence. }
    destruct (Z.eqb_spec (dir d) (-1)) as [Hd|_]; [|done].
    destruct (Z.min_spec (maxBottomLevel st) l) as [[_ ->]|[_ ->]]; [done|].
    right. exists k, d'. split_and!; [|done..].
    apply list_lookup_insert_eq. by eapply lookup_lt_Some.
  - intros i lv' l0 Hlv Hin. rewrite Hplaced.
    destruct (marked_inv _ _ _ _ _ _ _ Hm Hlv Hin) as [[-> _]|(lv & ? & ?)].
    + lia.
    + assert (Z.abs l0 ≤ Z.of_nat (placed L)) by eauto. lia.
Qed.

Lemma place_links_inv n fuel dist ls : ∀ pre st,
  inv n dist (length pre) (pre ++ ls) st → (length (pre ++ ls) ≤ fuel)%nat →
  ∃ out st', place_links fuel dist ls st = Done (out, st') ∧
    length out = length ls ∧
    inv n dist (length pre + length ls) (pre ++ out) st'.
Proof.
  induction ls as [|d ls IH]; intros pre st Hinv Hfuel; simpl.
  - exists [], st. by rewrite Nat.add_0_r.
  - destruct (place_inv n fuel dist (length pre) (pre ++ d :: ls) st d)
      as (d' & st1 & -> & Hinv1); [done | by apply list_lookup_middle | done |].
    simpl. rewrite insert_app_r_alt, Nat.sub_diag in Hinv1 by done.
    simpl in Hinv1. rewrite cons_middle, (assoc_L (++)) in Hinv1.
    destruct (IH (pre ++ [d']) st1) as (out & st2 & -> & Hlen & Hinv2).
    { by rewrite length_app, Nat.add_1_r. }
    { rewrite <-(assoc_L (++)). simpl.
      by rewrite length_app in Hfuel |- *. }
    simpl. exists (d' :: out), st2. split_and!; [done | simpl; lia |].
    rewrite <-(assoc_L (++)), length_app, Nat.add_1_r in Hinv2.
    simpl in Hinv2. by rewrite Nat.add_succ_r.
Qed.

Lemma inv_next_dist n dist L st :
  inv n dist (length L) L st → inv n (S dist) 0 L st.
Proof.
  intros []. split; try done.
  - intros j d l Hj Hl. destruct (inv_fresh0 j d l Hj Hl) as [? (dd & ? & ?)].
    split; [done|]. exists dd. split; [done|]. lia.
  - intros j d Hj Ht (dd & ? & ?). eapply inv_levelled0; [done..|].
    exists dd. split; [done|]. apply lookup_lt_Some in Hj. lia.
Qed.

Lemma dist_loop_inv n fuel m : ∀ dist L st,
  inv n dist 0 L st → (length L ≤ fuel)%nat →
  ∃ out st', dist_loop fuel (seq dist m) L st = Done (out, st') ∧
    length out = length L ∧ inv n (dist + m) 0 out st'.
Proof.
  induction m as [|m IH]; intros dist L st Hinv Hfuel; simpl.
  - exists L, st. by rewrite Nat.add_0_r.
  - destruct (place_links_inv n fuel dist L [] st)
      as (L1 & st1 & -> & Hlen & Hinv1); [done..|].
    simpl in *. rewrite <-Hlen in Hinv1. apply inv_next_dist in Hinv1.
    destruct (IH (S dist) L1 st1) as (out & st2 & -> & Hlen2 & Hinv2);
      [done | lia |].
    exists out, st2. split_and!; [done | lia |].
    by rewrite Nat.add_succ_r.
Qed.

Lemma place_unlevel fuel dist d st d' st' :
  place fuel dist d st = Done (d', st') → unlevel d' = unlevel d.
Proof.
  rewrite place_unfold. destruct (_ || _); [by intros [= <- <-]|].
  intros ([l idx] & _ & [= <- <-])%bind_Done. done.
Qed.

Lemma place_links_unlevel fuel dist ls : ∀ st out st',
  place_links fuel dist ls st = Done (out, st') →
  unlevel <$> out = unlevel <$> ls.
Proof.
  induction ls as [|d ls IH]; simpl; intros st out st'.
  - by intros [= <- <-].
  - intros ([d' st1] & Hp & ([out' st2] & Hps & [= <- <-])%bind_Done)%bind_Done.
    simpl. f_equal; [by eapply place_unlevel | by eapply IH].
Qed.

Lemma dist_loop_unlevel fuel dists : ∀ ls st out st',
  dist_loop fuel dists ls st = Done (out, st') →
  unlevel <$> out = unlevel <$> ls.
Proof.
  induction dists as [|dist dists IH]; simpl; intros ls st out st'.
  - by intros [= <- <-].
  - intros ([ls1 st1] & Hp & Hd)%bind_Done. simpl in Hd.
    rewrite (IH _ _ _ _ Hd). by eapply place_links_unlevel.
Qed.

(** The two indexes built from the node list. *)
Lemma index_nodes_fst ns : ∀ i acc k j,
  (index_nodes i ns acc).1 !! k = Some j →
  acc.1 !! k = Some j ∨ (k ∈ id <$> ns ∧ (i ≤ j < i + length ns)%nat).
Proof.
  induction ns as [|d ns IH]; simpl; intros i acc k j; [by left|].
  intros [H|[? ?]]%IH; simpl in H; [|right; split; [by right|lia]].
  apply lookup_insert_Some in H as [[<- <-]|[_ ?]]; [|by left].
  right. split; [by left|lia].
Qed.

Lemma index_nodes_snd ns : ∀ i acc j,
  (index_nodes i ns acc).2 !! j =
  if decide (i ≤ j < i + length ns)%nat then Some ∅ else acc.2 !! j.
Proof.
  induction ns as [|d ns IH]; simpl; intros i acc j.
  - rewrite decide_False; [done|lia].
  - rewrite IH. simpl.
    destruct (decide (S i ≤ j < S (i + length ns))%nat) as [?|Hj],
      (decide (i ≤ j < i + S (length ns))%nat) as [?|Hj']; try done; try lia.
    + assert (i = j) as -> by lia. by rewrite lookup_insert_eq.
    + rewrite lookup_insert_ne; [done|lia].
Qed.

Lemma resolve_wf n nodeIdx d :
  (∀ k j, nodeIdx !! k = Some j → (j < n)%nat) →
  wf_link n (resolve nodeIdx d).
Proof.
  intros Hn. unfold resolve.
  destruct (start d =? 0) eqn:Htop; split; unfold is_top; simpl;
    rewrite ?Htop; eauto; try done.
  destruct (_ || _); auto.
Qed.

Lemma resolve_level nodeIdx d : level (resolve nodeIdx d) = None.
Proof. unfold resolve. by destruct (start d =? 0). Qed.

Lemma inv_init g nodeIdx lvlIdx :
  index_nodes 0 (nodes g) (∅, ∅) = (nodeIdx, lvlIdx) →
  inv (length (nodes g)) 0 0 (resolve nodeIdx <$> links g) (Lanes lvlIdx 0 0).
Proof.
  intros Hidx.
  assert (∀ k j, nodeIdx !! k = Some j → (j < length (nodes g))%nat) as Hn.
  { intros k j Hk. change nodeIdx with (nodeIdx, lvlIdx).1 in Hk.
    rewrite <-Hidx in Hk. by apply index_nodes_fst in Hk as [?|[_ ?]]; [|lia]. }
  assert (∀ i, lvlIdx !! i =
            if decide (0 ≤ i < 0 + length (nodes g))%nat then Some ∅ else None)
    as Hl.
  { intros i. change lvlIdx with (nodeIdx, lvlIdx).2.
    by rewrite <-Hidx, index_nodes_snd. }
  assert (∀ j d l, (resolve nodeIdx <$> links g) !! j = Some d →
            level d = Some l → False) as Hnone.
  { intros j d l (d0 & -> & _)%list_lookup_fmap_Some.
    by rewrite resolve_level. }
  assert (∀ i lv l, lvlIdx !! i = Some lv → l ∈ lv → False) as Hempty.
  { intros i lv l. rewrite Hl. case_decide; [|done].
    intros [= <-]. apply not_elem_of_empty. }
  split; simpl; try (by intros; exfalso; eauto); try (by left); try done.
  - intros j d (d0 & -> & _)%list_lookup_fmap_Some. by apply resolve_wf.
  - intros j d _ _ (dd & _ & ?). lia.
  - intros i Hi. rewrite Hl, decide_True; [done|lia].
Qed.

Lemma layout_inv fuel g :
  (length (links g) ≤ fuel)%nat →
  ∃ out st, layout fuel g = Done (out, st) ∧
    inv (length (nodes g)) (length (nodes g)) 0 out st ∧
    unlevel <$> out =
      resolve (index_nodes 0 (nodes g) (∅, ∅)).1 <$> links g.
Proof.
  intros Hfuel. unfold layout.
  destruct (index_nodes 0 (nodes g) (∅, ∅)) as [nodeIdx lvlIdx] eqn:Hidx.
  destruct (dist_loop_inv (length (nodes g)) fuel (length (nodes g)) 0
              (resolve nodeIdx <$> links g) (Lanes lvlIdx 0 0))
    as (out & st & Hrun & _ & Hinv).
  { by apply inv_init. }
  { by rewrite length_fmap. }
  exists out, st. split_and!; [done | done |].
  rewrite (dist_loop_unlevel _ _ _ _ _ _ Hrun). simpl.
  rewrite <-list_fmap_compose. apply list_fmap_ext.
  intros _ d _. simpl. unfold unlevel, resolve. by destruct (start d =? 0).
Qed.

(** * Independence of the iteration bound *)

Lemma place_fuel_mono fuel fuel' dist d st r :
  (fuel ≤ fuel')%nat → place fuel dist d st = r → r ≠ OutOfFuel →
  place fuel' dist d st = r.
Proof.
  intros Hle. rewrite !place_unfold. destruct (_ || _); [done|].
  rewrite !nextAvailableLevel_search.
  destruct (search fuel _ _ _ _) as [[l idx]| |] eqn:Hs; simpl;
    intros <- Hr; [| |done];
    by rewrite (search_fuel_mono _ _ _ _ _ _ _ Hle Hs).
Qed.

Lemma place_links_fuel_mono fuel fuel' dist ls : ∀ st r,
  (fuel ≤ fuel')%nat → place_links fuel dist ls st = r → r ≠ OutOfFuel →
  place_links fuel' dist ls st = r.
Proof.
  induction ls as [|d ls IH]; simpl; intros st r Hle; [done|].
  destruct (place fuel dist d st) as [[d' st1]| |] eqn:Hp; simpl;
    intros <- Hr; [| |done]; rewrite (place_fuel_mono _ _ _ _ _ _ Hle Hp);
    try done; simpl.
  destruct (place_links fuel dist ls st1) as [[ls' st2]| |] eqn:Hps;
    simpl in *; [| |done]; by rewrite (IH _ _ Hle Hps).
Qed.

Lemma dist_loop_fuel_mono fuel fuel' dists : ∀ ls st r,
  (fuel ≤ fuel')%nat → dist_loop fuel dists ls st = r → r ≠ OutOfFuel →
  dist_loop fuel' dists ls st = r.
Proof.
  induction dists as [|dist dists IH]; simpl; intros ls st r Hle; [done|].
  destruct (place_links fuel dist ls st) as [[ls' st1]| |] eqn:Hp; simpl;
    intros Hr Hne; [| subst r.. ];
    rewrite ?(place_links_fuel_mono _ _ _ _ _ _ Hle Hp); try done; simpl.
  by apply IH.
Qed.

Lemma layout_fuel_mono fuel fuel' g r :
  (fuel ≤ fuel')%nat → layout fuel g = r → r ≠ OutOfFuel →
  layout fuel' g = r.
Proof.
  unfold layout. destruct (index_nodes _ _ _). apply dist_loop_fuel_mono.
Qed.

Lemma prepareGraph_fuel_mono fuel fuel' g r :
  (fuel ≤ fuel')%nat → prepareGraph fuel g = r → r ≠ OutOfFuel →
  prepareGraph fuel' g = r.
Proof.
  unfold prepareGraph. intros Hle.
  destruct (layout fuel g) as [[ls st]| |] eqn:Hl; simpl; intros <- Hr;
    [| |done]; by rewrite (layout_fuel_mono _ _ _ _ Hle Hl).
Qed.

(** * The graph at the end of prepareGraph *)

Lemma elem_of_span d i : i ∈ span d ↔ covers d i.
Proof.
  unfold span, covers. split.
  - destruct (source d) as [s|]; [|by rewrite span_gaps_None_l, elem_of_nil].
    destruct (target d) as [t|]; [|by rewrite span_gaps_None_r, elem_of_nil].
    rewrite elem_of_span_gaps. eauto.
  - intros (s & t & -> & -> & ?). by apply elem_of_span_gaps.
Qed.

Lemma inv_final_levelled n L st j d :
  inv n n 0 L st → L !! j = Some d → is_top d = false →
  is_Some (source d) → is_Some (target d) → is_Some (level d).
Proof.
  intros Hinv Hj Htop [s Hs] [t Ht].
  pose proof (inv_wf _ _ _ _ _ Hinv j d Hj) as Hwf.
  eapply inv_levelled; [done..|].
  pose proof (wf_distance _ _ Hwf) as Hd. rewrite Htop, Hs, Ht in Hd.
  eexists. split; [done|]. left.
  pose proof (wf_source _ _ Hwf _ Hs). pose proof (wf_target _ _ Hwf _ Ht).
  destruct (s <=? t)%nat; lia.
Qed.

Lemma prepareGraph_layout fuel g out st :
  layout fuel g = Done (out, st) →
  prepareGraph fuel g =
  Done (Graph (nodes g) out (maxTopLevel st) (maxBottomLevel st) false).
Proof. unfold prepareGraph. by intros ->. Qed.

Lemma layout_resolved fuel g :
  (length (links g) ≤ fuel)%nat →
  ∃ out st, layout fuel g = Done (out, st) ∧
    inv (length (nodes g)) (length (nodes g)) 0 out st ∧
    ∀ j, unlevel <$> out !! j = resolved g !! j.
Proof.
  intros Hfuel.
  destruct (layout_inv fuel g Hfuel) as (out & st & Hl & Hinv & Hun).
  exists out, st. split_and!; [done..|].
  intros j. by rewrite <-list_lookup_fmap, Hun.
Qed.

Lemma nodeIdx_Some g k j :
  (index_nodes 0 (nodes g) (∅, ∅)).1 !! k = Some j →
  k ∈ id <$> nodes g ∧ (j < length (nodes g))%nat.
Proof. intros [?|[? ?]]%index_nodes_fst; [done|]. split; [done|lia]. Qed.

(** * Upper case and the test for handle links *)

Lemma upper_ascii_H c : upper_ascii c = "H"%char ↔ c = "H"%char ∨ c = "h"%char.
Proof.
  split; [|by intros [-> | ->]].
  destruct c as [[] [] [] [] [] [] [] []]; vm_compute; intros [=]; auto.
Qed.

Lemma toUpperCase_H s : toUpperCase s = "H" ↔ s = "H" ∨ s = "h".
Proof.
  split; [|by intros [-> | ->]].
  destruct s as [|c [|c' s]]; simpl; [done| |done].
  intros [= [-> | ->]%upper_ascii_H]; auto.
Qed.

(** * The search ends from any lanes *)

Lemma list_abs_bound (xs : list Z) :
  ∃ B, 0 ≤ B ∧ ∀ z, z ∈ xs → Z.abs z ≤ B.
Proof.
  induction xs as [|a xs (B & HB & IH)].
  - exists 0. split; [done|]. intros z. by rewrite elem_of_nil.
  - exists (Z.abs a `max` B). split; [lia|].
    intros z [->|Hz%IH]%elem_of_cons; lia.
Qed.

Lemma taken_bound lvlIdx gs :
  ∃ B, 0 ≤ B ∧ ∀ l, taken_on lvlIdx l gs → Z.abs l ≤ B.
Proof.
  induction gs as [|i gs (B & HB & IH)].
  - exists 0. split; [done|]. intros l (i & lv & []%elem_of_nil & _).
  - destruct (lvlIdx !! i) as [lv|] eqn:Hlv.
    + destruct (list_abs_bound (elements lv)) as (B' & HB' & Hlvb).
      exists (B `max` B'). split; [lia|].
      intros l (j & lv' & [->|Hj]%elem_of_cons & Hlv' & Hin).
      * assert (lv' = lv) as -> by congruence.
        apply elem_of_elements, Hlvb in Hin. lia.
      * assert (Z.abs l ≤ B); [|lia]. apply IH. by exists j, lv'.
    + exists B. split; [done|].
      intros l (j & lv' & [->|Hj]%elem_of_cons & Hlv' & Hin); [congruence|].
      apply IH. by exists j, lv'.
Qed.

Lemma nextAvailableLevel_total source target dir lvlIdx :
  dir = 1 ∨ dir = -1 → keys_on lvlIdx (span_gaps source target) →
  ∃ fuel0 k lvlIdx',
    1 ≤ k ∧
    free_on lvlIdx (dir * k) (span_gaps source target) ∧
    (∀ j, 1 ≤ j < k → taken_on lvlIdx (dir * j) (span_gaps source target)) ∧
    marked lvlIdx lvlIdx' (dir * k) (span_gaps source target) ∧
    ∀ fuel, (fuel0 ≤ fuel)%nat →
      nextAvailableLevel fuel source target dir lvlIdx = Done (dir * k, lvlIdx').
Proof.
  intros Hdir Hkeys.
  destruct (taken_bound lvlIdx (span_gaps source target)) as (B & HB & Hbound).
  destruct (search_first (Z.to_nat (B + 1)) lvlIdx (span_gaps source target)
              dir B)
    as (k & idx' & Hs & Hk & Hfree & Hbelow & Hm); [done..| | | lia |].
  { intros k Hk Ht%Hbound. destruct Hdir as [-> | ->]; lia. }
  { done. }
  exists (Z.to_nat (B + 1)), k, idx'. split_and!; [lia | done..|].
  intros fuel Hle. rewrite nextAvailableLevel_search.
  by eapply search_fuel_mono.
Qed.

(** * Heights of the arcs, and the links before and after the layout *)

Lemma lane_height_lt (l m : Z) :
  Z.abs l ≤ m →
  (inject_Z (Z.abs l) * level_dy - 5 < inject_Z (m + 1) * level_dy)%Q.
Proof.
  intros Hle. unfold Qlt, Qminus, Qplus, Qmult, Qopp, inject_Z, level_dy.
  cbn. lia.
Qed.

Lemma resolved_lookup g (out : list link) j d :
  (∀ j, unlevel <$> out !! j = resolved g !! j) → out !! j = Some d →
  ∃ d0, links g !! j = Some d0 ∧
        unlevel d = resolve (index_nodes 0 (nodes g) (∅, ∅)).1 d0.
Proof.
  intros Hun Hj. specialize (Hun j). rewrite Hj in Hun. simpl in Hun.
  symmetry in Hun. unfold resolved in Hun.
  apply list_lookup_fmap_Some in Hun as (d0 & ? & ?). eauto.
Qed.

Lemma resolve_parsed nodeIdx d0 : parsed (resolve nodeIdx d0) = d0.
Proof. unfold resolve. by destruct (start d0 =? 0). Qed.

Lemma resolve_dir nodeIdx d0 :
  start d0 ≠ 0 →
  dir (resolve nodeIdx d0) =
  if String.eqb (rargname d0) "" || String.eqb (toUpperCase (post d0)) "H"
  then -1 else 1.
Proof.
  intros Hs. unfold resolve. by destruct (Z.eqb_spec (start d0) 0).
Qed.

(** * Processing order *)

Lemma place_due fuel dist d st :
  place fuel dist d st =
  if due dist d then assign fuel d st else Done (d, st).
Proof.
  rewrite place_unfold. unfold due, assign.
  by destruct (is_top d), (dist_ne dist (distance d)).
Qed.

Lemma due_distance dist d : due dist d ↔ is_top d = false ∧ distance d = Some dist.
Proof.
  unfold due. rewrite andb_True, !negb_True, !Is_true_false, dist_ne_false.
  done.
Qed.

Lemma assign_set_level fuel d st d' st' :
  assign fuel d st = Done (d', st') → unlevel d' = unlevel d.
Proof. by intros ([l idx] & _ & [= <- <-])%bind_Done. Qed.

Lemma due_unlevel dist d : due dist (unlevel d) = due dist d.
Proof. done. Qed.

Lemma due_eq_unlevel dist d d' :
  unlevel d' = unlevel d → due dist d' = due dist d.
Proof. intros H. by rewrite <-(due_unlevel dist d'), H. Qed.

Lemma place_links_due fuel dist ls : ∀ st out st',
  place_links fuel dist ls st = Done (out, st') →
  assign_all fuel (filter (λ d, due dist d) ls) st
    = Done (filter (λ d, due dist d) out, st') ∧
  ∀ dist', dist' ≠ dist →
    filter (λ d, due dist' d) out = filter (λ d, due dist' d) ls.
Proof.
  induction ls as [|d ls IH]; simpl; intros st out st'.
  { by intros [= <- <-]. }
  intros ([d' st1] & Hp & ([out' st2] & Hps & [= <- <-])%bind_Done)%bind_Done.
  destruct (IH _ _ _ Hps) as [Hall Hother]. clear IH.
  pose proof (due_eq_unlevel dist _ _ (place_unlevel _ _ _ _ _ _ Hp)) as Hdue.
  rewrite place_due in Hp. rewrite !filter_cons, Hdue.
  destruct (due dist d) eqn:Hd; simpl.
  - rewrite Hp. simpl. rewrite Hall. split; [done|].
    intros dist' Hne. rewrite !filter_cons, (Hother dist' Hne).
    rewrite (due_eq_unlevel dist' _ _ (assign_set_level _ _ _ _ _ Hp)).
    apply Is_true_true, due_distance in Hd as [_ Hd].
    destruct (decide (due dist' d)) as [[_ ?]%due_distance|]; [congruence|done].
  - injection Hp as <- <-. split; [done|].
    intros dist' Hne. by rewrite !filter_cons, (Hother dist' Hne).
Qed.

Lemma list_bind_ext_in {A B} (f g : A → list B) (l : list A) :
  (∀ a, a ∈ l → f a = g a) → l ≫= f = l ≫= g.
Proof.
  induction l as [|a l IH]; intros Hfg; [done|].
  rewrite !bind_cons, IH, (Hfg a); [done | by left |].
  intros b Hb. apply Hfg. by right.
Qed.

Lemma assign_all_app fuel ls1 ls2 st out1 st1 :
  assign_all fuel ls1 st = Done (out1, st1) →
  assign_all fuel (ls1 ++ ls2) st =
  '(out2, st2) ← assign_all fuel ls2 st1; Done (out1 ++ out2, st2).
Proof.
  revert st out1. induction ls1 as [|d ls1 IH]; simpl; intros st out1.
  - intros [= <- <-]. by destruct (assign_all fuel ls2 st) as [[??]| |].
  - intros ([d' st0] & -> & ([o s] & Hall & [= <- ->])%bind_Done)%bind_Done.
    simpl. rewrite (IH _ _ Hall).
    by destruct (assign_all fuel ls2 st1) as [[??]| |].
Qed.

Lemma dist_loop_schedule fuel m : ∀ a ls st out st',
  dist_loop fuel (seq a m) ls st = Done (out, st') →
  assign_all fuel (seq a m ≫= λ dist, filter (λ d, due dist d) ls) st
    = Done (seq a m ≫= λ dist, filter (λ d, due dist d) out, st') ∧
  ∀ dist', (dist' < a ∨ a + m ≤ dist')%nat →
    filter (λ d, due dist' d) out = filter (λ d, due dist' d) ls.
Proof.
  induction m as [|m IH]; intros a ls st out st' Hrun.
  { simpl in Hrun. by injection Hrun as <- <-. }
  change (seq a (S m)) with (a :: seq (S a) m) in *. simpl in Hrun.
  apply bind_Done in Hrun as ([ls1 st1] & Hp & Hd). simpl in Hd.
  destruct (place_links_due _ _ _ _ _ _ Hp) as [Hfirst Hrest].
  destruct (IH _ _ _ _ _ Hd) as [Hall Hout]. clear IH.
  rewrite !bind_cons. split.
  - rewrite (assign_all_app _ _ _ _ _ _ Hfirst).
    rewrite (list_bind_ext_in _ (λ dist, filter (λ d, due dist d) ls1)).
    + rewrite Hall. simpl. rewrite (Hout a); [done|lia].
    + intros dist [? _]%elem_of_seq. symmetry. apply Hrest. lia.
  - intros dist' Hd'. rewrite Hout by lia. apply Hrest. lia.
Qed.

Lemma StronglySorted_all {A} (R : relation A) (l : list A) :
  (∀ a b, a ∈ l → b ∈ l → R a b) → StronglySorted R l.
Proof.
  induction l as [|a l IH]; intros HR; constructor.
  - apply IH. intros b c Hb Hc. apply HR; by right.
  - apply Forall_forall. intros b Hb. apply HR; [by left | by right].
Qed.

Lemma schedule_from_sorted ls m : ∀ a,
  StronglySorted distance_le (seq a m ≫= λ dist, filter (λ d, due dist d) ls) ∧
  ∀ d, d ∈ (seq a m ≫= λ dist, filter (λ d, due dist d) ls) →
       ∃ dd, distance d = Some dd ∧ (a ≤ dd < a + m)%nat.
Proof.
  induction m as [|m IH]; intros a.
  { split; [constructor|]. intros d []%elem_of_nil. }
  change (seq a (S m)) with (a :: seq (S a) m). rewrite bind_cons.
  destruct (IH (S a)) as [Hsorted Hrange]. clear IH.
  assert (∀ d, d ∈ filter (λ d, due a d) ls → distance d = Some a) as Hhere.
  { by intros d [[_ ?]%due_distance _]%list_elem_of_filter. }
  split.
  - apply StronglySorted_app_2; [| |done].
    + intros d1 d2 H1%Hhere (dd & H2 & ?)%Hrange.
      exists a, dd. split_and!; [done..|lia].
    + apply StronglySorted_all. intros d1 d2 H1%Hhere H2%Hhere.
      by exists a, a.
  - intros d [Hd%Hhere|(dd & ? & ?)%Hrange]%elem_of_app.
    + exists a. split; [done|lia].
    + exists dd. split; [done|lia].
Qed.

Lemma filter_due_due dist a ls :
  filter (λ d, due dist d) (filter (λ d, due a d) ls) =
  if decide (dist = a) then filter (λ d, due a d) ls else [].
Proof.
  induction ls as [|d ls IH]; [by destruct (decide _)|].
  rewrite (filter_cons (λ d, due a d)).
  destruct (decide (due a d)) as [Ha|Ha]; [|done].
  rewrite filter_cons, IH. destruct (decide (dist = a)) as [->|Hne].
  - by rewrite decide_True.
  - rewrite decide_False; [done|].
    apply due_distance in Ha as [_ Ha]. intros [_ ?]%due_distance. congruence.
Qed.

Lemma schedule_from_stable ls dist m : ∀ a,
  filter (λ d, due dist d) (seq a m ≫= λ dist, filter (λ d, due dist d) ls) =
  if decide (a ≤ dist < a + m)%nat then filter (λ d, due dist d) ls else [].
Proof.
  induction m as [|m IH]; intros a.
  { rewrite decide_False; [done|lia]. }
  change (seq a (S m)) with (a :: seq (S a) m).
  rewrite bind_cons, filter_app, IH, filter_due_due.
  destruct (decide (dist = a)) as [->|?].
  - rewrite decide_False, decide_True, app_nil_r; [done|lia..].
  - rewrite app_nil_l.
    destruct (decide (S a ≤ dist < S a + m)%nat),
      (decide (a ≤ dist < a + S m)%nat); (done || lia).
Qed.

(** * Reordering the links *)

Lemma distinct_due ls dist :
  distinct_distances ls → (length (filter (λ d, due dist d) ls) ≤ 1)%nat.
Proof.
  induction ls as [|d ls IH]; intros Hdis; [simpl; lia|].
  assert (distinct_distances ls) as Hdis'.
  { intros j1 j2 d1 d2 dd Hne H1 H2.
    apply (Hdis (S j1) (S j2) d1 d2 dd); [lia|done..]. }
  rewrite filter_cons. destruct (decide (due dist d)) as [Hd|_]; [|by apply IH].
  destruct (filter (λ d, due dist d) ls) as [|d2 rest] eqn:Hf; [simpl; lia|].
  exfalso. assert (d2 ∈ filter (λ d, due dist d) ls) as Hin by (rewrite Hf; left).
  apply list_elem_of_filter in Hin as [Hd2 [j Hj]%list_elem_of_lookup].
  apply due_distance in Hd as [? ?]. apply due_distance in Hd2 as [? ?].
  by apply (Hdis 0%nat (S j) d d2 dist).
Qed.

Lemma due_length_unlevel dist : ∀ l1 l2,
  unlevel <$> l1 = unlevel <$> l2 →
  length (filter (λ d, due dist d) l1) = length (filter (λ d, due dist d) l2).
Proof.
  induction l1 as [|d1 l1 IH]; intros [|d2 l2]; try done.
  rewrite !fmap_cons. intros H.
  assert (unlevel d1 = unlevel d2) as Hd by congruence.
  assert (unlevel <$> l1 = unlevel <$> l2) as Hl by congruence.
  rewrite !filter_cons, (due_eq_unlevel dist _ _ Hd).
  destruct (decide _); simpl; by rewrite (IH _ Hl).
Qed.

Lemma place_links_cons fuel dist d ls st d' st1 out st2 :
  place fuel dist d st = Done (d', st1) →
  place_links fuel dist ls st1 = Done (out, st2) →
  place_links fuel dist (d :: ls) st = Done (d' :: out, st2).
Proof. simpl. intros ->. simpl. by intros ->. Qed.

Lemma place_links_perm fuel dist ls ls' :
  ls ≡ₚ ls' → (length (filter (λ d, due dist d) ls) ≤ 1)%nat →
  ∀ st out st', place_links fuel dist ls st = Done (out, st') →
    ∃ out', place_links fuel dist ls' st = Done (out', st') ∧ out ≡ₚ out'.
Proof.
  induction 1 as [|d l l' Hperm IH|d1 d2 l|l l' l'' Hp1 IH1 Hp2 IH2];
    intros Hcount st out st'.
  - intros [= <- <-]. by exists [].
  - simpl.
    intros ([d' st1] & Hp & ([o st2] & Hps & [= <- <-])%bind_Done)%bind_Done.
    destruct (IH) with (st := st1) (out := o) (st' := st2) as (o' & Ho & ?);
      [|done|].
    { rewrite filter_cons in Hcount. destruct (decide _); simpl in *; lia. }
    exists (d' :: o'). rewrite Hp. simpl. rewrite Ho. simpl.
    split; [done|]. by constructor.
  - simpl.
    intros ([y' s1] & Hy & ([o2 s2] & Hxl & [= <- <-])%bind_Done)%bind_Done.
    simpl in Hxl.
    apply bind_Done in Hxl
      as ([x' s3] & Hx & ([o s4] & Hps & [= <- <-])%bind_Done).
    assert (∀ d s, due dist d = false → place fuel dist d s = Done (d, s))
      as Hskip by (intros d s E; by rewrite place_due, E).
    rewrite !filter_cons in Hcount.
    destruct (due dist d1) eqn:E1, (due dist d2) eqn:E2; simpl in Hcount.
    + lia.
    + rewrite Hskip in Hy by done. injection Hy as <- <-.
      exists (x' :: d2 :: o). split; [|apply perm_swap].
      rewrite Hx. simpl. rewrite Hskip by done. simpl. by rewrite Hps.
    + rewrite Hskip in Hx by done. injection Hx as <- <-.
      exists (d1 :: y' :: o). split; [|apply perm_swap].
      rewrite Hskip by done. simpl. rewrite Hy. simpl. by rewrite Hps.
    + rewrite Hskip in Hx, Hy by done.
      injection Hy as <- <-. injection Hx as <- <-.
      exists (d1 :: d2 :: o). split; [|apply perm_swap].
      rewrite !Hskip by done. simpl. rewrite Hskip by done. simpl.
      by rewrite Hps.
  - intros Hrun. destruct (IH1 Hcount _ _ _ Hrun) as (o1 & Hrun1 & ?).
    rewrite Hp1 in Hcount.
    destruct (IH2 Hcount _ _ _ Hrun1) as (o2 & Hrun2 & ?).
    exists o2. split; [done|]. by etrans.
Qed.

Lemma dist_loop_perm fuel dists : ∀ ls ls' st out st',
  ls ≡ₚ ls' → (∀ dist, (length (filter (λ d, due dist d) ls) ≤ 1)%nat) →
  dist_loop fuel dists ls st = Done (out, st') →
  ∃ out', dist_loop fuel dists ls' st = Done (out', st') ∧ out ≡ₚ out'.
Proof.
  induction dists as [|dist dists IH]; simpl; intros ls ls' st out st' Hperm Hc.
  - intros [= <- <-]. by exists ls'.
  - intros ([ls1 st1] & Hp & Hd)%bind_Done. simpl in Hd.
    destruct (place_links_perm fuel dist ls ls' Hperm (Hc dist) _ _ _ Hp)
      as (ls1' & -> & Hperm1).
    simpl. eapply IH; [done| |done].
    intros dist'.
    by rewrite (due_length_unlevel dist' ls1 ls
                  (place_links_unlevel _ _ _ _ _ _ Hp)).
Qed.

Lemma layout_unfold fuel g :
  layout fuel g =
  dist_loop fuel (seq 0 (length (nodes g))) (resolved g)
    (Lanes (index_nodes 0 (nodes g) (∅, ∅)).2 0 0).
Proof. unfold layout, resolved. by destruct (index_nodes _ _ _). Qed.

Lemma resolved_wf g j d :
  resolved g !! j = Some d → wf_link (length (nodes g)) d.
Proof.
  intros (d0 & -> & _)%list_lookup_fmap_Some. apply resolve_wf.
  intros k i Hk. by apply nodeIdx_Some in Hk as [_ ?].
Qed.

Lemma wf_due_lt n dist d : wf_link n d → due dist d → (dist < n)%nat.
Proof.
  intros Hwf [Htop Hd]%due_distance.
  rewrite (wf_distance _ _ Hwf), Htop in Hd.
  destruct (source d) as [s|] eqn:Hs, (target d) as [t|] eqn:Ht; try done.
  pose proof (wf_source _ _ Hwf _ Hs). pose proof (wf_target _ _ Hwf _ Ht).
  injection Hd as <-. destruct (s <=? t)%nat; lia.
Qed.

Lemma filter_none {A} (P : A → Prop) `{∀ a, Decision (P a)} (l : list A) :
  (∀ a, a ∈ l → ¬ P a) → filter P l = [].
Proof.
  induction l as [|a l IH]; intros Hl; [done|].
  rewrite filter_cons, decide_False, IH; [done| |].
  - intros b Hb. apply Hl. by right.
  - apply Hl. by left.
Qed.

(** * The label set *)

Lemma elem_of_foldl_collect (test : d3_link → bool)
    (members : d3_link → gset Z) (ls : list d3_link) : ∀ (acc : gset Z) v,
  v ∈ foldl (λ acc d, if test d : bool then members d ∪ acc else acc) acc ls ↔
  v ∈ acc ∨ ∃ d, d ∈ ls ∧ test d = true ∧ v ∈ members d.
Proof.
  induction ls as [|d ls IH]; simpl; intros acc v.
  - split; [by left|]. by intros [?|(d & []%elem_of_nil & _)].
  - rewrite IH. split.
    + intros [Hv|(d' & ? & ? & ?)].
      * destruct (test d) eqn:Ht; [|by left].
        apply elem_of_union in Hv as [?|?]; [|by left].
        right. exists d. split_and!; [by left|done..].
      * right. exists d'. split_and!; [by right|done..].
    + intros [Hv|(d' & [->|?]%elem_of_cons & Ht & ?)].
      * left. destruct (test d); [|done]. by apply elem_of_union_r.
      * left. rewrite Ht. by apply elem_of_union_l.
      * right. by exists d'.
Qed.

Lemma elem_of_collect test members ls (v : Z) :
  v ∈ collect test members ls ↔
  ∃ d, d ∈ ls ∧ test d = true ∧ v ∈ members d.
Proof.
  unfold collect. rewrite elem_of_foldl_collect.
  split; [by intros [[]%not_elem_of_empty|?] | by right].
Qed.

Lemma elem_of_endpoints ls d :
  d ∈ ls → start d ∈ endpoints ls ∧ end_ d ∈ endpoints ls.
Proof.
  induction ls as [|d' ls IH]; [by intros []%elem_of_nil|].
  simpl. intros [->|[? ?]%IH]%elem_of_cons; set_solver.
Qed.

(** One pass of the expansion loop, from a state [acc]. *)
Lemma expand_pass (all ls : list d3_link) : ∀ acc r,
  (∀ d, d ∈ ls → d ∈ all) →
  foldl expand_step acc ls = r →
  acc.1 ⊆ r.1 ∧ r.1 ⊆ acc.1 ∪ endpoints all ∧
  (∀ P : Z → Prop, (∀ v, v ∈ acc.1 → P v) →
     (∀ d, d ∈ all → post d = "EQ" → P (start d) ↔ P (end_ d)) →
     ∀ v, v ∈ r.1 → P v) ∧
  (r.2 = true → acc.2 = true ∨ ∃ v, v ∈ r.1 ∧ v ∉ acc.1) ∧
  (r.2 = false →
     acc.2 = false ∧ r.1 = acc.1 ∧
     ∀ d, d ∈ ls → post d = "EQ" → start d ∈ acc.1 ↔ end_ d ∈ acc.1).
Proof.
  induction ls as [|d ls IH]; simpl; intros acc r Hall.
  { intros <-. split_and!; [done | set_solver | auto | auto |].
    intros ->. split_and!; [done..|]. by intros d []%elem_of_nil. }
  intros Hr.
  destruct (IH (expand_step acc d) r) as (Hsub & Hends & Hleast & Hadd & Hstop);
    [by intros d' ?; apply Hall; right | done |]. clear IH.
  assert (d ∈ all) as Hd by (apply Hall; left).
  destruct (elem_of_endpoints all d Hd) as [Hs He].
  unfold expand_step in *.
  destruct (String.eqb_spec (post d) "EQ") as [Hpost|Hpost].
  2:{ split_and!; [done..|].
      intros Hf. destruct (Hstop Hf) as (? & ? & Hcl). split_and!; [done..|].
      by intros d' [->|?]%elem_of_cons; [|apply Hcl]. }
  destruct (bool_decide_reflect (start d ∈ acc.1)) as [Hin1|Hin1],
    (bool_decide_reflect (end_ d ∈ acc.1)) as [Hin2|Hin2]; simpl in *.
  - split_and!; [done..|].
    intros Hf. destruct (Hstop Hf) as (? & ? & Hcl). split_and!; [done..|].
    by intros d' [->|?]%elem_of_cons; [|apply Hcl].
  - split_and!.
    + set_solver.
    + set_solver.
    + intros P HP Hcl. apply Hleast; [|done].
      intros v [->%elem_of_singleton|?]%elem_of_union; [|by apply HP].
      apply (Hcl d Hd Hpost). by apply HP.
    + intros _. right. exists (end_ d). split; [set_solver|done].
    + intros Hf. by destruct (Hstop Hf).
  - split_and!.
    + set_solver.
    + set_solver.
    + intros P HP Hcl. apply Hleast; [|done].
      intros v [->%elem_of_singleton|?]%elem_of_union; [|by apply HP].
      apply (Hcl d Hd Hpost). by apply HP.
    + intros _. right. exists (start d). split; [set_solver|done].
    + intros Hf. by destruct (Hstop Hf).
  - split_and!; [done..|].
    intros Hf. destruct (Hstop Hf) as (? & ? & Hcl). split_and!; [done..|].
    by intros d' [->|?]%elem_of_cons; [|apply Hcl].
Qed.

Lemma expand_total (ls : list d3_link) : ∀ fuel lab,
  (size (endpoints ls ∖ lab) < fuel)%nat →
  ∃ lab', expand fuel ls lab = Done lab' ∧ lab ⊆ lab' ∧
    (∀ d, d ∈ ls → post d = "EQ" → start d ∈ lab' ↔ end_ d ∈ lab') ∧
    (∀ P : Z → Prop, (∀ v, v ∈ lab → P v) →
       (∀ d, d ∈ ls → post d = "EQ" → P (start d) ↔ P (end_ d)) →
       ∀ v, v ∈ lab' → P v).
Proof.
  induction fuel as [|fuel IH]; intros lab Hfuel; [lia|].
  simpl.
  destruct (expand_pass ls ls (lab, false) _ (λ _ H, H) eq_refl)
    as (Hsub & Hends & Hleast & Hadd & Hstop).
  destruct (foldl expand_step (lab, false) ls) as [lab1 added]. simpl in *.
  destruct added.
  - destruct (Hadd eq_refl) as [?|(v & Hv1 & Hv)]; [done|].
    destruct (IH lab1) as (lab' & -> & Hsub' & Hcl & Hleast').
    { assert (endpoints ls ∖ lab1 ⊂ endpoints ls ∖ lab) as Hlt%subset_size
        by set_solver.
      lia. }
    exists lab'. split_and!; [done | set_solver | done |].
    intros P HP HclP. apply Hleast'; [|done]. by apply Hleast.
  - destruct (Hstop eq_refl) as (_ & -> & Hcl).
    exists lab. by split_and!.
Qed.


Lemma size_endpoints ls : (size (endpoints ls) ≤ 2 * length ls)%nat.
Proof.
  induction ls as [|d ls IH].
  { change (endpoints []) with (∅ : gset Z). rewrite size_empty. lia. }
  change (endpoints (d :: ls))
    with ({[start d]} ∪ {[end_ d]} ∪ endpoints ls).
  pose proof (size_union_alt ({[start d]} ∪ {[end_ d]}) (endpoints ls)) as H1.
  pose proof (size_union_alt ({[start d]}) ({[end_ d]} : gset Z)) as H2.
  pose proof (subseteq_size (endpoints ls ∖ ({[start d]} ∪ {[end_ d]}))
                (endpoints ls) ltac:(set_solver)).
  pose proof (subseteq_size ({[end_ d]} ∖ {[start d]}) ({[end_ d]} : gset Z)
                ltac:(set_solver)).
  rewrite !size_singleton in *. simpl length. lia.
Qed.

Lemma eq_linked_sym ls a b : eq_linked ls a b → eq_linked ls b a.
Proof. intros (d & ? & ? & [?|?]); exists d; auto. Qed.

Lemma closed_tc ls (lab : gset Z) :
  (∀ d, d ∈ ls → post d = "EQ" → start d ∈ lab ↔ end_ d ∈ lab) →
  ∀ a b, tc (eq_linked ls) a b → a ∈ lab → b ∈ lab.
Proof.
  intros Hcl.
  assert (∀ a b, eq_linked ls a b → a ∈ lab → b ∈ lab) as Hstep.
  { intros a b (d & Hd & Hpost & [[<- <-]|[<- <-]]); by apply Hcl. }
  induction 1; eauto.
Qed.

(** * The claims *)

(** What [prepareGraph] returns on [sample]. *)
Example prepareGraph_sample :
  prepareGraph 2 sample =
  Done (Graph (nodes sample)
    [Link (D3Link 0 10 "" "H") None (Some 0%nat) None 1 None;
     Link (D3Link 10 20 "ARG1" "NEQ") (Some 0%nat) (Some 1%nat) (Some 1%nat)
       1 (Some 1);
     Link (D3Link 10 20 "ARG2" "NEQ") (Some 0%nat) (Some 1%nat) (Some 1%nat)
       1 (Some 2);
     Link (D3Link 30 10 "" "EQ") (Some 2%nat) (Some 0%nat) (Some 2%nat)
       (-1) (Some (-2));
     Link (D3Link 20 30 "RSTR" "h") (Some 1%nat) (Some 2%nat) (Some 1%nat)
       (-1) (Some (-1));
     Link (D3Link 10 99 "ARG1" "NEQ") (Some 0%nat) None None 1 None]
    2 (-2) false).
Proof. vm_compute. reflexivity. Qed.

(** C1. After [prepareGraph], with enough iterations allowed for the level
    search, every non-TOP link that crosses a gap carries a level, and no two
    distinct non-TOP links that cross a common gap carry the same signed
    level. *)
Theorem C1_no_shared_lane fuel g :
  (length (links g) ≤ fuel)%nat →
  ∃ g', prepareGraph fuel g = Done g' ∧
    (∀ j d i, g_links g' !! j = Some d → is_top d = false → covers d i →
       is_Some (level d)) ∧
    (∀ j1 j2 d1 d2 i l, j1 ≠ j2 →
       g_links g' !! j1 = Some d1 → g_links g' !! j2 = Some d2 →
       is_top d1 = false → is_top d2 = false →
       covers d1 i → covers d2 i →
       level d1 = Some l → level d2 ≠ Some l).
Proof.
  intros Hfuel. destruct (layout_inv fuel g Hfuel) as (out & st & Hl & Hinv & _).
  eexists. split; [by apply prepareGraph_layout|]. simpl. split.
  - intros j d i Hj Htop (s & t & Hs & Ht & _).
    eapply inv_final_levelled; [done..| by rewrite Hs | by rewrite Ht].
  - intros j1 j2 d1 d2 i l Hne Hj1 Hj2 _ _ Hc1%elem_of_span Hc2%elem_of_span
      Hl1 Hl2.
    exact (inv_apart _ _ _ _ _ Hinv j1 j2 d1 d2 l i Hne Hj1 Hj2 Hl1 Hl2 Hc1 Hc2).
Qed.

Lemma C1_no_shared_lane_witness :
  ∃ g', prepareGraph 6 sample = Done g' ∧
    (∀ j d i, g_links g' !! j = Some d → is_top d = false → covers d i →
       is_Some (level d)) ∧
    (∀ j1 j2 d1 d2 i l, j1 ≠ j2 →
       g_links g' !! j1 = Some d1 → g_links g' !! j2 = Some d2 →
       is_top d1 = false → is_top d2 = false →
       covers d1 i → covers d2 i →
       level d1 = Some l → level d2 ≠ Some l).
Proof. apply (C1_no_shared_lane 6 sample). simpl. lia. Defined.

(** C2, as stated, fails: the link of [roleless_neq] is neither a bare
    equality (its post is not EQ) nor a handle link, and its direction is
    -1, not +1. *)
Lemma C2_counterexample :
  ∃ g' d, prepareGraph 1 roleless_neq = Done g' ∧
    g_links g' !! 0%nat = Some d ∧ is_top d = false ∧
    ¬ (rargname (parsed d) = "" ∧ post (parsed d) = "EQ") ∧
    toUpperCase (post (parsed d)) ≠ "H" ∧
    dir d = -1 ∧ dir d ≠ 1.
Proof.
  eexists _, _. split; [vm_compute; reflexivity|].
  split; [reflexivity|]. simpl. split_and!; try done. by intros [_ ?].
Qed.

(** C2, amended. After [prepareGraph], the direction of a non-TOP link is -1
    exactly when its role is the empty string, whatever its post, or its
    post is ["H"] up to case, and +1 in every other case. *)
Theorem C2_direction fuel g :
  (length (links g) ≤ fuel)%nat →
  ∃ g', prepareGraph fuel g = Done g' ∧
    ∀ j d, g_links g' !! j = Some d → is_top d = false →
      (toUpperCase (post (parsed d)) = "H" ↔
       post (parsed d) = "H" ∨ post (parsed d) = "h") ∧
      (dir d = -1 ↔
       rargname (parsed d) = "" ∨ toUpperCase (post (parsed d)) = "H") ∧
      (dir d = 1 ↔
       rargname (parsed d) ≠ "" ∧ toUpperCase (post (parsed d)) ≠ "H").
Proof.
  intros Hfuel.
  destruct (layout_resolved fuel g Hfuel) as (out & st & Hl & _ & Hun).
  eexists. split; [by apply prepareGraph_layout|]. simpl.
  intros j d Hj Htop. split; [apply toUpperCase_H|].
  destruct (resolved_lookup g out j d Hun Hj) as (d0 & _ & Hd).
  assert (parsed d = d0) as Hp.
  { change (parsed (unlevel d) = d0). rewrite Hd. apply resolve_parsed. }
  assert (dir d = dir (unlevel d)) as -> by done. rewrite Hd, Hp.
  rewrite resolve_dir.
  - destruct (String.eqb_spec (rargname d0) ""),
      (String.eqb_spec (toUpperCase (post d0)) "H"); simpl; naive_solver.
  - unfold is_top in Htop. rewrite Hp in Htop. lia.
Qed.

Lemma C2_direction_witness :
  ∃ g', prepareGraph 6 sample = Done g' ∧
    ∀ j d, g_links g' !! j = Some d → is_top d = false →
      (toUpperCase (post (parsed d)) = "H" ↔
       post (parsed d) = "H" ∨ post (parsed d) = "h") ∧
      (dir d = -1 ↔
       rargname (parsed d) = "" ∨ toUpperCase (post (parsed d)) = "H") ∧
      (dir d = 1 ↔
       rargname (parsed d) ≠ "" ∧ toUpperCase (post (parsed d)) ≠ "H").
Proof. apply (C2_direction 6 sample). simpl. lia. Defined.

(** C3. When the loop body reaches a non-TOP link [d] of the current
    distance, with lanes [st] that have an entry for every gap of its span,
    there is a magnitude [k >= 1] such that [dir * k] is free on every gap
    of the span [[min(source,target), max(source,target))] while every
    [dir * j] with [1 <= j < k] is taken on one of them; the search returns
    [dir * k] as soon as it is allowed enough iterations, never anything else,
    and leaves [dir * k] marked on every gap of the span and nothing else
    changed; that level is the one stored in the link. *)
Theorem C3_first_free_level dist d st :
  dir d = 1 ∨ dir d = -1 → is_top d = false → distance d = Some dist →
  keys_on (levelIdx st) (span d) →
  ∃ k idx' fuel0,
    (∀ i, i ∈ span d ↔ covers d i) ∧
    1 ≤ k ∧
    free_on (levelIdx st) (dir d * k) (span d) ∧
    (∀ j, 1 ≤ j < k → taken_on (levelIdx st) (dir d * j) (span d)) ∧
    marked (levelIdx st) idx' (dir d * k) (span d) ∧
    (∀ fuel l idx2,
       nextAvailableLevel fuel (source d) (target d) (dir d) (levelIdx st)
         = Done (l, idx2) → l = dir d * k ∧ idx2 = idx') ∧
    ∀ fuel, (fuel0 ≤ fuel)%nat →
      nextAvailableLevel fuel (source d) (target d) (dir d) (levelIdx st)
        = Done (dir d * k, idx') ∧
      ∃ st', place fuel dist d st = Done (set_level d (dir d * k), st') ∧
             levelIdx st' = idx'.
Proof.
  intros Hdir Htop Hdist Hkeys.
  destruct (nextAvailableLevel_total (source d) (target d) (dir d)
              (levelIdx st) Hdir Hkeys)
    as (fuel0 & k & idx' & Hk & Hfree & Hbelow & Hm & Hbig).
  exists k, idx', fuel0.
  split_and!; [apply elem_of_span | done.. | |].
  - intros fuel l idx2 Hn.
    pose proof (Hbig (fuel `max` fuel0)%nat ltac:(lia)) as Hn'.
    rewrite nextAvailableLevel_search in Hn, Hn'.
    rewrite (search_fuel_mono fuel (fuel `max` fuel0)%nat
               _ _ _ _ _ ltac:(lia) Hn) in Hn'; [|done].
    by injection Hn' as -> ->.
  - intros fuel Hle. split; [by apply Hbig|].
    rewrite place_unfold, Htop, (proj2 (dist_ne_false dist _) Hdist).
    simpl. rewrite (Hbig fuel Hle). simpl. by eexists.
Qed.

Lemma C3_first_free_level_witness :
  ∃ k idx' fuel0,
    (∀ i, i ∈ span long_link ↔ covers long_link i) ∧
    1 ≤ k ∧
    free_on (levelIdx busy_lanes) (dir long_link * k) (span long_link) ∧
    (∀ j, 1 ≤ j < k →
       taken_on (levelIdx busy_lanes) (dir long_link * j) (span long_link)) ∧
    marked (levelIdx busy_lanes) idx' (dir long_link * k) (span long_link) ∧
    (∀ fuel l idx2,
       nextAvailableLevel fuel (source long_link) (target long_link)
         (dir long_link) (levelIdx busy_lanes) = Done (l, idx2) →
       l = dir long_link * k ∧ idx2 = idx') ∧
    ∀ fuel, (fuel0 ≤ fuel)%nat →
      nextAvailableLevel fuel (source long_link) (target long_link)
        (dir long_link) (levelIdx busy_lanes) = Done (dir long_link * k, idx') ∧
      ∃ st', place fuel 2 long_link busy_lanes
               = Done (set_level long_link (dir long_link * k), st') ∧
             levelIdx st' = idx'.
Proof.
  apply (C3_first_free_level 2 long_link busy_lanes).
  - left. reflexivity.
  - reflexivity.
  - reflexivity.
  - intros i Hi. apply list_elem_of_In in Hi. simpl in Hi.
    destruct Hi as [<-|[<-|[]]]; vm_compute; eauto.
Defined.

(** The level found in the situation of the witness is 3. *)
Example C3_long_link_level :
  nextAvailableLevel 3 (source long_link) (target long_link) (dir long_link)
    (levelIdx busy_lanes)
  = Done (3, <[0%nat := {[3; 1]}]> (<[1%nat := {[3; 2]}]> (<[2%nat := ∅]> ∅))).
Proof. vm_compute. reflexivity. Qed.

(** C4. The levels and the lanes at the end of the two nested loops are the
    ones obtained by giving a level to the links of [schedule], one after the
    other.  In that list span distances never decrease, and the links of one
    distance are those of the input, in the order of the input.  When the
    span distances of the non-TOP links are pairwise different, a graph with
    the same links in another order ends with the same lanes and extents and
    with the same links carrying the same levels. *)
Theorem C4_processing_order fuel g :
  (length (links g) ≤ fuel)%nat →
  ∃ out st, layout fuel g = Done (out, st) ∧
    assign_all fuel (schedule (length (nodes g)) (resolved g))
      (Lanes (index_nodes 0 (nodes g) (∅, ∅)).2 0 0)
    = Done (schedule (length (nodes g)) out, st) ∧
    StronglySorted distance_le (schedule (length (nodes g)) (resolved g)) ∧
    (∀ dist, filter (λ d, due dist d) (schedule (length (nodes g)) (resolved g))
             = filter (λ d, due dist d) (resolved g)) ∧
    (∀ g2, nodes g2 = nodes g → links g2 ≡ₚ links g →
       distinct_distances (resolved g) →
       ∃ out2, layout fuel g2 = Done (out2, st) ∧ out2 ≡ₚ out).
Proof.
  intros Hfuel. destruct (layout_inv fuel g Hfuel) as (out & st & Hl & _ & _).
  exists out, st. split; [done|]. rewrite layout_unfold in Hl.
  split_and!.
  - by destruct (dist_loop_schedule _ _ _ _ _ _ _ Hl) as [? _].
  - apply schedule_from_sorted.
  - intros dist. unfold schedule. rewrite schedule_from_stable.
    destruct (decide _) as [|Hge]; [done|]. symmetry. apply filter_none.
    intros d [j Hj]%list_elem_of_lookup Hd.
    pose proof (wf_due_lt _ _ _ (resolved_wf _ _ _ Hj) Hd). lia.
  - intros g2 Hn Hperm Hdis.
    assert (resolved g ≡ₚ resolved g2) as Hperm'.
    { unfold resolved. by rewrite Hn, Hperm. }
    destruct (dist_loop_perm _ _ _ _ _ _ _ Hperm'
                (λ dist, distinct_due _ dist Hdis) Hl) as (out2 & Hl2 & ?).
    exists out2. split; [|done]. by rewrite layout_unfold, Hn.
Qed.

Lemma C4_processing_order_witness :
  ∃ out st, layout 3 fan = Done (out, st) ∧
    assign_all 3 (schedule (length (nodes fan)) (resolved fan))
      (Lanes (index_nodes 0 (nodes fan) (∅, ∅)).2 0 0)
    = Done (schedule (length (nodes fan)) out, st) ∧
    StronglySorted distance_le (schedule (length (nodes fan)) (resolved fan)) ∧
    (∀ dist,
       filter (λ d, due dist d) (schedule (length (nodes fan)) (resolved fan))
       = filter (λ d, due dist d) (resolved fan)) ∧
    (∀ g2, nodes g2 = nodes fan → links g2 ≡ₚ links fan →
       distinct_distances (resolved fan) →
       ∃ out2, layout 3 g2 = Done (out2, st) ∧ out2 ≡ₚ out).
Proof. apply (C4_processing_order 3 fan). simpl. lia. Defined.

(** The links of [fan] get levels 1, 2 and 3 in either order of the input. *)
Example fan_levels :
  ∃ g1 g2, prepareGraph 3 fan = Done g1 ∧
    prepareGraph 3 fan_reordered = Done g2 ∧
    role_levels g1 = [("ARG1", Some 1); ("ARG2", Some 2); ("ARG3", Some 3)] ∧
    role_levels g2 = [("ARG3", Some 3); ("ARG1", Some 1); ("ARG2", Some 2)].
Proof. eexists _, _. split_and!; vm_compute; reflexivity. Qed.

(** Of two links of the same span and direction, the first in the input gets
    the inner lane. *)
Example parallel_links_levels :
  ∃ g1 g2, prepareGraph 6 sample = Done g1 ∧
    prepareGraph 6 sample_swapped = Done g2 ∧
    role_levels g1 = [("", None); ("ARG1", Some 1); ("ARG2", Some 2);
                      ("", Some (-2)); ("RSTR", Some (-1)); ("ARG1", None)] ∧
    role_levels g2 = [("", None); ("ARG2", Some 1); ("ARG1", Some 2);
                      ("", Some (-2)); ("RSTR", Some (-1)); ("ARG1", None)].
Proof. eexists _, _. split_and!; vm_compute; reflexivity. Qed.

(** C5. After [prepareGraph], a TOP link has direction +1 and carries no
    level; every level recorded on a gap of [levelIdx] is the level of a
    non-TOP link crossing that gap, so a TOP link holds no lane; the path of a
    TOP link runs from height [y1 + (maxTopLevel + 1) * level_dy], with the
    final [maxTopLevel], straight down to the node; and that extent is above
    the lane of every link of direction +1: their level is less than
    [maxTopLevel + 1], and so is the height of their arc over the node. *)
Theorem C5_top_link fuel g :
  (length (links g) ≤ fuel)%nat →
  ∃ out st g', layout fuel g = Done (out, st) ∧
    prepareGraph fuel g = Done g' ∧ g_links g' = out ∧
    g_maxTopLevel g' = maxTopLevel st ∧
    (∀ j d, out !! j = Some d → is_top d = true →
       level d = None ∧ dir d = 1) ∧
    (∀ i lv l, levelIdx st !! i = Some lv → l ∈ lv →
       ∃ j d, out !! j = Some d ∧ is_top d = false ∧ level d = Some l ∧
              covers d i) ∧
    (∀ j d tn, out !! j = Some d → is_top d = true →
       node_at g' (target d) = Some tn →
       ∃ mid, getPathSpec d g' =
         Done ([Cmd "M"; num (x tn);
                num (bbox_height tn
                     + inject_Z (g_maxTopLevel g' + 1) * level_dy)%Q;
                Cmd "L"; num (x tn); num (bbox_height tn)], mid)) ∧
    (∀ j d l, out !! j = Some d → dir d = 1 → level d = Some l →
       l < g_maxTopLevel g' + 1 ∧
       (inject_Z (Z.abs l) * level_dy - 5
        < inject_Z (g_maxTopLevel g' + 1) * level_dy)%Q).
Proof.
  intros Hfuel. destruct (layout_inv fuel g Hfuel) as (out & st & Hl & Hinv & _).
  eexists out, st, _. split; [done|].
  split; [by apply prepareGraph_layout|]. simpl.
  assert (∀ j d, out !! j = Some d → is_top d = true →
            level d = None ∧ dir d = 1) as Htop.
  { intros j d Hj Ht. split.
    - destruct (level d) as [l|] eqn:Hlvl; [|done].
      destruct (inv_fresh _ _ _ _ _ Hinv j d l Hj Hlvl). congruence.
    - by apply (wf_top_dir _ _ (inv_wf _ _ _ _ _ Hinv j d Hj)). }
  split_and!; [done | done | done | | |].
  - intros i lv l Hlv Hin.
    destruct (inv_owner _ _ _ _ _ Hinv i lv l Hlv Hin) as (j & d & Hj & Hd & Hi).
    exists j, d. split_and!; [done | | done | by apply elem_of_span].
    by destruct (inv_fresh _ _ _ _ _ Hinv j d l Hj Hd).
  - intros j d tn Hj Ht Hn. destruct (Htop j d Hj Ht) as [_ Hd].
    unfold getPathSpec. rewrite Hn. unfold is_top in Ht. rewrite Ht.
    unfold top_extent. rewrite Hd. simpl. by eexists.
  - intros j d l Hj Hd Hlvl.
    destruct (inv_range _ _ _ _ _ Hinv j d l Hj Hlvl) as [H _]. apply H in Hd.
    split; [lia|]. apply lane_height_lt. lia.
Qed.

Lemma C5_top_link_witness :
  ∃ out st g', layout 6 sample = Done (out, st) ∧
    prepareGraph 6 sample = Done g' ∧ g_links g' = out ∧
    g_maxTopLevel g' = maxTopLevel st ∧
    (∀ j d, out !! j = Some d → is_top d = true →
       level d = None ∧ dir d = 1) ∧
    (∀ i lv l, levelIdx st !! i = Some lv → l ∈ lv →
       ∃ j d, out !! j = Some d ∧ is_top d = false ∧ level d = Some l ∧
              covers d i) ∧
    (∀ j d tn, out !! j = Some d → is_top d = true →
       node_at g' (target d) = Some tn →
       ∃ mid, getPathSpec d g' =
         Done ([Cmd "M"; num (x tn);
                num (bbox_height tn
                     + inject_Z (g_maxTopLevel g' + 1) * level_dy)%Q;
                Cmd "L"; num (x tn); num (bbox_height tn)], mid)) ∧
    (∀ j d l, out !! j = Some d → dir d = 1 → level d = Some l →
       l < g_maxTopLevel g' + 1 ∧
       (inject_Z (Z.abs l) * level_dy - 5
        < inject_Z (g_maxTopLevel g' + 1) * level_dy)%Q).
Proof. apply (C5_top_link 6 sample). simpl. lia. Defined.

(** C6, as stated, fails on a TOP link: the first link of [sample] has
    direction +1 and carries no level, so it has no level in
    [[1, maxTopLevel]].  So does its last link, a non-TOP link of direction
    +1 whose target is not a node of the graph. *)
Lemma C6_counterexample :
  ∃ g' d d', prepareGraph 6 sample = Done g' ∧
    g_links g' !! 0%nat = Some d ∧ is_top d = true ∧ dir d = 1 ∧
    (¬ ∃ l, level d = Some l ∧ 1 ≤ l ≤ g_maxTopLevel g') ∧
    g_links g' !! 5%nat = Some d' ∧ is_top d' = false ∧ dir d' = 1 ∧
    target d' = None ∧
    (¬ ∃ l, level d' = Some l ∧ 1 ≤ l ≤ g_maxTopLevel g').
Proof.
  eexists _, _, _. split; [vm_compute; reflexivity|].
  split; [reflexivity|]. simpl.
  split_and!; try done; by intros (l & ? & _).
Qed.

(** C6, amended. After [prepareGraph], [maxTopLevel >= 0] and
    [maxBottomLevel <= 0]; every link has direction +1 or -1; every non-TOP
    link with both ends resolved carries a level; a level carried by a link
    of direction +1 lies in [[1, maxTopLevel]], one carried by a link of
    direction -1 lies in [[maxBottomLevel, -1]], so no level is 0; and a TOP
    link, of direction +1, carries none. *)
Theorem C6_level_ranges fuel g :
  (length (links g) ≤ fuel)%nat →
  ∃ g', prepareGraph fuel g = Done g' ∧
    0 ≤ g_maxTopLevel g' ∧ g_maxBottomLevel g' ≤ 0 ∧
    ∀ j d, g_links g' !! j = Some d →
      (dir d = 1 ∨ dir d = -1) ∧
      (is_top d = false → is_Some (source d) → is_Some (target d) →
       is_Some (level d)) ∧
      (is_top d = true → dir d = 1 ∧ level d = None) ∧
      ∀ l, level d = Some l →
        l ≠ 0 ∧
        (dir d = 1 → 1 ≤ l ≤ g_maxTopLevel g') ∧
        (dir d = -1 → g_maxBottomLevel g' ≤ l ≤ -1).
Proof.
  intros Hfuel. destruct (layout_inv fuel g Hfuel) as (out & st & Hl & Hinv & _).
  eexists. split; [by apply prepareGraph_layout|]. simpl.
  pose proof (inv_sign _ _ _ _ _ Hinv).
  split_and!; [lia..|]. intros j d Hj.
  pose proof (inv_wf _ _ _ _ _ Hinv j d Hj) as Hwf.
  pose proof (wf_dir _ _ Hwf) as Hdir.
  split_and!; [done | by eapply inv_final_levelled | |].
  - intros Htop. split; [by apply (wf_top_dir _ _ Hwf)|].
    destruct (level d) as [l|] eqn:Hlvl; [|done].
    destruct (inv_fresh _ _ _ _ _ Hinv j d l Hj Hlvl). congruence.
  - intros l Hlvl.
    destruct (inv_range _ _ _ _ _ Hinv j d l Hj Hlvl) as [H1 H2].
    split_and!; [|done..].
    destruct Hdir as [Hd|Hd]; [apply H1 in Hd|apply H2 in Hd]; lia.
Qed.

Lemma C6_level_ranges_witness :
  ∃ g', prepareGraph 6 sample = Done g' ∧
    0 ≤ g_maxTopLevel g' ∧ g_maxBottomLevel g' ≤ 0 ∧
    ∀ j d, g_links g' !! j = Some d →
      (dir d = 1 ∨ dir d = -1) ∧
      (is_top d = false → is_Some (source d) → is_Some (target d) →
       is_Some (level d)) ∧
      (is_top d = true → dir d = 1 ∧ level d = None) ∧
      ∀ l, level d = Some l →
        l ≠ 0 ∧
        (dir d = 1 → 1 ≤ l ≤ g_maxTopLevel g') ∧
        (dir d = -1 → g_maxBottomLevel g' ≤ l ≤ -1).
Proof. apply (C6_level_ranges 6 sample). simpl. lia. Defined.

(** C7, as stated, fails: the last link of [sample] points to node 99, which
    [sample] does not have, and [prepareGraph] returns a graph, no error. *)
Lemma C7_counterexample :
  (∃ d, links sample !! 5%nat = Some d ∧ missing_reference sample d) ∧
  (∃ g', prepareGraph 6 sample = Done g') ∧
  ¬ ∃ e, prepareGraph 6 sample = Raise e.
Proof.
  split_and!.
  - eexists. split; [reflexivity|]. right. simpl.
    rewrite !elem_of_cons, elem_of_nil. lia.
  - eexists. vm_compute. reflexivity.
  - intros [e He]. vm_compute in He. discriminate.
Qed.

(** C7, amended. [prepareGraph] reports nothing about a link that names a
    node absent from the node list: it returns a graph, whatever the bound
    on the search no exception is raised, and the link is still in the list,
    with an end left undefined and no level.  The failure comes when its
    path is drawn: [getPathSpec] on it throws a TypeError. *)
Theorem C7_missing_reference fuel g :
  (length (links g) ≤ fuel)%nat →
  ∃ g', prepareGraph fuel g = Done g' ∧
    (∀ fuel' e, prepareGraph fuel' g ≠ Raise e) ∧
    ∀ j d0, links g !! j = Some d0 → missing_reference g d0 →
      ∃ d, g_links g' !! j = Some d ∧ parsed d = d0 ∧
        (source d = None ∨ target d = None) ∧ level d = None ∧
        getPathSpec d g' = Raise TypeError.
Proof.
  intros Hfuel.
  destruct (layout_resolved fuel g Hfuel) as (out & st & Hl & Hinv & Hun).
  pose proof (prepareGraph_layout _ _ _ _ Hl) as Hp.
  eexists. split; [done|]. simpl. split.
  { intros fuel' e He. destruct (Nat.le_ge_cases fuel fuel') as [Hle|Hle].
    - by rewrite (prepareGraph_fuel_mono _ _ _ _ Hle Hp) in He.
    - by rewrite (prepareGraph_fuel_mono _ _ _ _ Hle He) in Hp. }
  intros j d0 Hj Hmiss.
  pose proof (Hun j) as Hunj. unfold resolved in Hunj.
  rewrite list_lookup_fmap, Hj in Hunj. simpl in Hunj.
  destruct (out !! j) as [d|] eqn:Hout; [|done]. injection Hunj as Hd.
  exists d. split; [done|].
  set (nodeIdx := (index_nodes 0 (nodes g) (∅, ∅)).1) in *.
  assert (parsed d = d0) as Hpd.
  { change (parsed (unlevel d) = d0). rewrite Hd. apply resolve_parsed. }
  assert (target d = nodeIdx !! end_ d0) as Ht.
  { change (target (unlevel d) = nodeIdx !! end_ d0). rewrite Hd.
    unfold resolve. by destruct (start d0 =? 0). }
  assert (source d = if start d0 =? 0 then None else nodeIdx !! start d0) as Hs.
  { change (source (unlevel d) = if start d0 =? 0 then None
                                 else nodeIdx !! start d0).
    rewrite Hd. unfold resolve. by destruct (start d0 =? 0). }
  assert (∀ k, k ∉ id <$> nodes g → nodeIdx !! k = None) as Habsent.
  { intros k Hk. destruct (nodeIdx !! k) as [i|] eqn:Hi; [|done].
    by apply nodeIdx_Some in Hi as [? _]. }
  pose proof (inv_wf _ _ _ _ _ Hinv j d Hout) as Hwf.
  assert (source d = None ∨ target d = None) as Hundef.
  { destruct Hmiss as [[Hne Hm]|Hm].
    - left. rewrite Hs, (Habsent _ Hm). by destruct (start d0 =? 0).
    - right. by rewrite Ht, (Habsent _ Hm). }
  split_and!; [done..| |].
  - destruct (level d) as [l|] eqn:Hlvl; [|done].
    destruct (inv_fresh _ _ _ _ _ Hinv j d l Hout Hlvl) as [Htop (dd & Hdd & _)].
    rewrite (wf_distance _ _ Hwf), Htop in Hdd.
    by destruct Hundef as [Hu|Hu]; rewrite Hu in Hdd; [|destruct (source d)].
  - unfold getPathSpec, node_at. simpl.
    destruct (target d) as [t|] eqn:Htd; simpl; [|done].
    pose proof (wf_target _ _ Hwf t Htd) as Hlt.
    destruct (lookup_lt_is_Some_2 (nodes g) t Hlt) as [tn ->].
    destruct Hundef as [Hu|Hu]; [|done]. rewrite Hpd.
    destruct Hmiss as [[Hne Hm]|Hm].
    + destruct (Z.eqb_spec (start d0) 0); [done|]. by rewrite Hu.
    + by rewrite (Habsent _ Hm) in Ht.
Qed.

Lemma C7_missing_reference_witness :
  ∃ g', prepareGraph 6 sample = Done g' ∧
    (∀ fuel' e, prepareGraph fuel' sample ≠ Raise e) ∧
    ∀ j d0, links sample !! j = Some d0 → missing_reference sample d0 →
      ∃ d, g_links g' !! j = Some d ∧ parsed d = d0 ∧
        (source d = None ∨ target d = None) ∧ level d = None ∧
        getPathSpec d g' = Raise TypeError.
Proof. apply (C7_missing_reference 6 sample). simpl. lia. Defined.

(** C8. For every graph, as soon as the level search is allowed as many
    iterations as there are links, [prepareGraph] returns a graph in which
    every non-TOP link with both ends resolved carries a level; the graph
    returned does not depend on the bound, and with any bound whatever the
    only other outcome is that the bound was too small: no exception is
    raised.  The search itself ends from any lanes that have an entry for
    every gap of the span, for either direction. *)
Theorem C8_layout_terminates fuel g :
  (length (links g) ≤ fuel)%nat →
  ∃ g', prepareGraph fuel g = Done g' ∧
    (∀ j d, g_links g' !! j = Some d → is_top d = false →
       is_Some (source d) → is_Some (target d) → is_Some (level d)) ∧
    (∀ fuel', (fuel ≤ fuel')%nat → prepareGraph fuel' g = Done g') ∧
    (∀ fuel', prepareGraph fuel' g = Done g' ∨ prepareGraph fuel' g = OutOfFuel) ∧
    (∀ source target dir lvlIdx, dir = 1 ∨ dir = -1 →
       keys_on lvlIdx (span_gaps source target) →
       ∃ fuel0 lvl lvlIdx', ∀ fuel', (fuel0 ≤ fuel')%nat →
         nextAvailableLevel fuel' source target dir lvlIdx
         = Done (lvl, lvlIdx')).
Proof.
  intros Hfuel. destruct (layout_inv fuel g Hfuel) as (out & st & Hl & Hinv & _).
  pose proof (prepareGraph_layout _ _ _ _ Hl) as Hp.
  eexists. split; [done|]. simpl. split_and!.
  4:{ intros source target dir lvlIdx Hdir Hkeys.
      destruct (nextAvailableLevel_total source target dir lvlIdx Hdir Hkeys)
        as (fuel0 & k & idx' & _ & _ & _ & _ & Hbig).
      by exists fuel0, (dir * k), idx'. }
  - intros j d Hj. by eapply inv_final_levelled.
  - intros fuel' Hle. by eapply prepareGraph_fuel_mono.
  - intros fuel'. destruct (prepareGraph fuel' g) as [g'|e|] eqn:Hp'; [| |by right].
    + left. destruct (Nat.le_ge_cases fuel fuel') as [Hle|Hle].
      * rewrite <-Hp'. by eapply prepareGraph_fuel_mono.
      * by rewrite <-Hp, (prepareGraph_fuel_mono _ _ _ _ Hle Hp').
    + destruct (Nat.le_ge_cases fuel fuel') as [Hle|Hle].
      * by rewrite (prepareGraph_fuel_mono _ _ _ _ Hle Hp) in Hp'.
      * by rewrite (prepareGraph_fuel_mono _ _ _ _ Hle Hp') in Hp.
Qed.

Lemma C8_layout_terminates_witness :
  ∃ g', prepareGraph 6 sample = Done g' ∧
    (∀ j d, g_links g' !! j = Some d → is_top d = false →
       is_Some (source d) → is_Some (target d) → is_Some (level d)) ∧
    (∀ fuel', (6 ≤ fuel')%nat → prepareGraph fuel' sample = Done g') ∧
    (∀ fuel', prepareGraph fuel' sample = Done g' ∨
              prepareGraph fuel' sample = OutOfFuel) ∧
    (∀ source target dir lvlIdx, dir = 1 ∨ dir = -1 →
       keys_on lvlIdx (span_gaps source target) →
       ∃ fuel0 lvl lvlIdx', ∀ fuel', (fuel0 ≤ fuel')%nat →
         nextAvailableLevel fuel' source target dir lvlIdx
         = Done (lvl, lvlIdx')).
Proof. apply (C8_layout_terminates 6 sample). simpl. lia. Defined.



(** The scenario of the specification: outbound set {2}, label set {1, 3},
    scope set empty (and inbound set empty: the EQ link has no role). *)
Example scenario_sets :
  highlight_sets 1 scenario_links 1 = Done (Highlights {[2]} ∅ {[1; 3]} ∅).
Proof. vm_compute. reflexivity. Qed.

(** C10. After [prepareGraph], [maxTopLevel] is the greatest level carried by
    a link of direction +1: it bounds all of them, it is carried by a non-TOP
    link of direction +1 as soon as one such link carries a level, and it is
    0 when none does; symmetrically [maxBottomLevel] is the least level
    carried by a link of direction -1, and 0 when there is none. *)
Theorem C10_extents_attained fuel g :
  (length (links g) ≤ fuel)%nat →
  ∃ g', prepareGraph fuel g = Done g' ∧
    (∀ j d l, g_links g' !! j = Some d → dir d = 1 → level d = Some l →
       l ≤ g_maxTopLevel g') ∧
    ((∃ j d, g_links g' !! j = Some d ∧ dir d = 1 ∧ is_Some (level d)) →
     ∃ j d, g_links g' !! j = Some d ∧ is_top d = false ∧ dir d = 1 ∧
            level d = Some (g_maxTopLevel g')) ∧
    ((∀ j d, g_links g' !! j = Some d → dir d = 1 → level d = None) →
     g_maxTopLevel g' = 0) ∧
    (∀ j d l, g_links g' !! j = Some d → dir d = -1 → level d = Some l →
       g_maxBottomLevel g' ≤ l) ∧
    ((∃ j d, g_links g' !! j = Some d ∧ dir d = -1 ∧ is_Some (level d)) →
     ∃ j d, g_links g' !! j = Some d ∧ is_top d = false ∧ dir d = -1 ∧
            level d = Some (g_maxBottomLevel g')) ∧
    ((∀ j d, g_links g' !! j = Some d → dir d = -1 → level d = None) →
     g_maxBottomLevel g' = 0).
Proof.
  intros Hfuel. destruct (layout_inv fuel g Hfuel) as (out & st & Hl & Hinv & _).
  eexists. split; [by apply prepareGraph_layout|]. simpl.
  destruct Hinv. split_and!.
  - intros j d l Hj Hd Hlvl. destruct (inv_range0 j d l Hj Hlvl) as [H _].
    apply H in Hd. lia.
  - intros (j & d & Hj & Hd & [l Hlvl]).
    destruct inv_top0 as [H0|(j' & d' & Hj' & Hd' & Hl')].
    + destruct (inv_range0 j d l Hj Hlvl) as [H _]. apply H in Hd. lia.
    + exists j', d'. split_and!; [done| |done..].
      by destruct (inv_fresh0 j' d' _ Hj' Hl').
  - intros Hnone. destruct inv_top0 as [H0|(j' & d' & Hj' & Hd' & Hl')]; [done|].
    by rewrite (Hnone j' d' Hj' Hd') in Hl'.
  - intros j d l Hj Hd Hlvl. destruct (inv_range0 j d l Hj Hlvl) as [_ H].
    apply H in Hd. lia.
  - intros (j & d & Hj & Hd & [l Hlvl]).
    destruct inv_bottom0 as [H0|(j' & d' & Hj' & Hd' & Hl')].
    + destruct (inv_range0 j d l Hj Hlvl) as [_ H]. apply H in Hd. lia.
    + exists j', d'. split_and!; [done| |done..].
      by destruct (inv_fresh0 j' d' _ Hj' Hl').
  - intros Hnone.
    destruct inv_bottom0 as [H0|(j' & d' & Hj' & Hd' & Hl')]; [done|].
    by rewrite (Hnone j' d' Hj' Hd') in Hl'.
Qed.

Lemma C10_extents_attained_witness :
  ∃ g', prepareGraph 6 sample = Done g' ∧
    (∀ j d l, g_links g' !! j = Some d → dir d = 1 → level d = Some l →
       l ≤ g_maxTopLevel g') ∧
    ((∃ j d, g_links g' !! j = Some d ∧ dir d = 1 ∧ is_Some (level d)) →
     ∃ j d, g_links g' !! j = Some d ∧ is_top d = false ∧ dir d = 1 ∧
            level d = Some (g_maxTopLevel g')) ∧
    ((∀ j d, g_links g' !! j = Some d → dir d = 1 → level d = None) →
     g_maxTopLevel g' = 0) ∧
    (∀ j d l, g_links g' !! j = Some d → dir d = -1 → level d = Some l →
       g_maxBottomLevel g' ≤ l) ∧
    ((∃ j d, g_links g' !! j = Some d ∧ dir d = -1 ∧ is_Some (level d)) →
     ∃ j d, g_links g' !! j = Some d ∧ is_top d = false ∧ dir d = -1 ∧
            level d = Some (g_maxBottomLevel g')) ∧
    ((∀ j d, g_links g' !! j = Some d → dir d = -1 → level d = None) →
     g_maxBottomLevel g' = 0).
Proof. apply (C10_extents_attained 6 sample). simpl. lia. Defined.

(** * More about the level search *)

Lemma search_zero gs : ∀ fuel lvlIdx r, search fuel lvlIdx gs 0 0 ≠ Done r.
Proof.
  induction fuel as [|fuel IH]; intros lvlIdx r; [done|]. simpl.
  destruct (occupied lvlIdx 0 gs) as [taken| |]; simpl; [|done..].
  destruct taken; simpl; [apply IH|].
  destruct (mark lvlIdx 0 gs) as [idx1| |]; simpl; [apply IH | done..].
Qed.

Lemma search_zero_keys gs : ∀ fuel lvlIdx,
  keys_on lvlIdx gs → search fuel lvlIdx gs 0 0 = OutOfFuel.
Proof.
  induction fuel as [|fuel IH]; intros lvlIdx Hkeys; [done|]. simpl.
  destruct (occupied_total lvlIdx 0 gs Hkeys) as [taken ->]. simpl.
  destruct taken; simpl; [by apply IH|].
  destruct (mark lvlIdx 0 gs) as [idx1| |] eqn:Hmark; simpl.
  - apply IH. intros i Hi.
    rewrite (marked_is_Some _ _ _ _ i (mark_marked _ _ _ _ Hmark)). auto.
  - destruct (mark_total lvlIdx 0 gs Hkeys) as [? ?]. congruence.
  - done.
Qed.

(** Some gap of [gs] has no entry in [lvlIdx]. *)
Lemma occupied_missing lvlIdx c gs :
  (∃ i, i ∈ gs ∧ lvlIdx !! i = None) →
  occupied lvlIdx c gs = Done true ∨ occupied lvlIdx c gs = Raise TypeError.
Proof.
  intros (i & Hi & Hnone).
  destruct (occupied lvlIdx c gs) as [[]|[]|] eqn:Hocc; auto.
  - apply occupied_false in Hocc as [Hkeys _].
    destruct (Hkeys i Hi) as [? ?]. congruence.
  - exfalso. clear Hi Hnone. induction gs as [|j gs IH]; simpl in Hocc; [done|].
    destruct (lvlIdx !! j); [|done]. by destruct (bool_decide _).
Qed.

Lemma search_missing fuel lvlIdx gs dir c B :
  dir = 1 ∨ dir = -1 → 1 ≤ c →
  (∃ i, i ∈ gs ∧ lvlIdx !! i = None) →
  (∀ k, c ≤ k → taken_on lvlIdx (dir * k) gs → k ≤ B) →
  c ≤ B + 1 → B + 1 - c < Z.of_nat fuel →
  search fuel lvlIdx gs dir (dir * c) = Raise TypeError.
Proof.
  intros Hdir. revert c.
  induction fuel as [|fuel IH]; intros c Hc Hmiss HB HcB Hfuel; [lia|].
  simpl. destruct (occupied_missing lvlIdx (dir * c) gs Hmiss) as [Hocc|Hocc];
    rewrite Hocc; simpl; [|done].
  apply occupied_true in Hocc. pose proof (HB c (Z.le_refl _) Hocc).
  replace (dir * c + dir) with (dir * (c + 1)) by lia.
  apply IH; [lia | done | | lia | lia]. intros k Hk. apply HB. lia.
Qed.

(** X1. The level search does not depend on which end of the link is the
    source: exchanging the two ends gives the same outcome, whatever the
    lanes, the direction and the bound. *)
Theorem X1_search_ends_exchange fuel source target dir lvlIdx :
  nextAvailableLevel fuel source target dir lvlIdx =
  nextAvailableLevel fuel target source dir lvlIdx.
Proof.
  unfold nextAvailableLevel, js_gt, gaps.
  destruct source as [s|], target as [t|]; try done.
  destruct (Nat.ltb_spec t s), (Nat.ltb_spec s t); try done; try lia.
  by replace (t - s)%nat with 0%nat by lia; replace (s - t)%nat with 0%nat by lia;
    assert (s = t) as -> by lia.
Qed.

(** X2. A link that crosses no gap (both ends on one node, or an end that did
    not resolve) gets the first level of its side, [dir], at the first try,
    and the lanes are left as they were; no entry of the lanes is read. *)
Theorem X2_empty_span fuel source target dir lvlIdx :
  dir ≠ 0 → (0 < fuel)%nat →
  source = None ∨ target = None ∨ source = target →
  nextAvailableLevel fuel source target dir lvlIdx = Done (dir, lvlIdx).
Proof.
  intros Hdir Hfuel Hends. rewrite nextAvailableLevel_search.
  assert (span_gaps source target = []) as ->.
  { destruct Hends as [->|[->| ->]];
      [done | apply span_gaps_None_r |].
    destruct target as [t|]; [|done]. unfold span_gaps, js_gt, gaps.
    rewrite Nat.ltb_irrefl, Nat.sub_diag. done. }
  destruct fuel as [|fuel]; [lia|]. simpl.
  by destruct (Z.eqb_spec dir 0).
Qed.

Lemma X2_empty_span_witness :
  nextAvailableLevel 1 (Some 4%nat) (Some 4%nat) (-1) (levelIdx busy_lanes)
  = Done (-1, levelIdx busy_lanes).
Proof. apply X2_empty_span; [lia | lia | by right; right]. Defined.

(** X3. With direction 0 the search never returns: whatever the lanes and
    however many iterations it is allowed, it has no result, and when the
    lanes have an entry for every gap of the span it is still running when
    the iterations are used up. *)
Theorem X3_direction_zero_loops fuel source target lvlIdx :
  (∀ r, nextAvailableLevel fuel source target 0 lvlIdx ≠ Done r) ∧
  (keys_on lvlIdx (span_gaps source target) →
   nextAvailableLevel fuel source target 0 lvlIdx = OutOfFuel).
Proof.
  rewrite nextAvailableLevel_search. split.
  - intros r. apply search_zero.
  - apply search_zero_keys.
Qed.

(** X4. When the lanes lack the entry of a gap that the link crosses, the
    search never returns a level, and it throws a TypeError as soon as it is
    allowed enough iterations. *)
Theorem X4_missing_lane_entry source target dir lvlIdx :
  dir = 1 ∨ dir = -1 →
  (∃ i, i ∈ span_gaps source target ∧ lvlIdx !! i = None) →
  (∀ fuel r, nextAvailableLevel fuel source target dir lvlIdx ≠ Done r) ∧
  ∃ fuel0, ∀ fuel, (fuel0 ≤ fuel)%nat →
    nextAvailableLevel fuel source target dir lvlIdx = Raise TypeError.
Proof.
  intros Hdir Hmiss.
  destruct (taken_bound lvlIdx (span_gaps source target)) as (B & HB & Hbound).
  assert (search (Z.to_nat (B + 1)) lvlIdx (span_gaps source target) dir dir
          = Raise TypeError) as Hraise.
  { rewrite <-(Z.mul_1_r dir) at 2.
    apply (search_missing _ _ _ _ _ B); [done | lia | done | | lia | lia].
    intros k Hk Ht%Hbound. destruct Hdir as [-> | ->]; lia. }
  split.
  - intros fuel r Hdone. rewrite nextAvailableLevel_search in Hdone.
    destruct (Nat.le_ge_cases fuel (Z.to_nat (B + 1))) as [Hle|Hle].
    + by rewrite (search_fuel_mono _ _ _ _ _ _ _ Hle Hdone) in Hraise.
    + by rewrite (search_fuel_mono _ _ _ _ _ _ _ Hle Hraise) in Hdone.
  - exists (Z.to_nat (B + 1)). intros fuel Hle.
    rewrite nextAvailableLevel_search. by eapply search_fuel_mono.
Qed.

Lemma X4_missing_lane_entry_witness :
  (∀ fuel r, nextAvailableLevel fuel (Some 1%nat) (Some 5%nat) 1
               (levelIdx busy_lanes) ≠ Done r) ∧
  ∃ fuel0, ∀ fuel, (fuel0 ≤ fuel)%nat →
    nextAvailableLevel fuel (Some 1%nat) (Some 5%nat) 1 (levelIdx busy_lanes)
    = Raise TypeError.
Proof.
  apply X4_missing_lane_entry; [by left|].
  exists 3%nat. split; [|reflexivity].
  apply list_elem_of_In. simpl. auto.
Defined.

(** * More about prepareGraph *)

Lemma last_index_cons_S d ns k p :
  last_index (d :: ns) k (S p) ↔ last_index ns k p.
Proof.
  unfold last_index. simpl. split; intros [Hat Hlast]; (split; [done|]).
  - intros p' nd' Hlt Hp'. apply (Hlast (S p') nd'); [lia|done].
  - intros [|p'] nd' Hlt Hp'; [lia|]. apply (Hlast p' nd'); [lia|done].
Qed.

Lemma last_index_cons_0 d ns k :
  last_index (d :: ns) k 0 ↔ id d = k ∧ k ∉ (id <$> ns).
Proof.
  unfold last_index. simpl. split.
  - intros [(nd & [= <-] & Hid) Hlast]. split; [done|].
    intros (nd' & Hk & [p' Hp']%list_elem_of_lookup)%list_elem_of_fmap.
    by apply (Hlast (S p') nd'); [lia|..].
  - intros [Hid Hnot]. split; [by exists d|].
    intros [|p'] nd' Hlt Hp' Hk; [lia|]. apply Hnot.
    apply list_elem_of_fmap. exists nd'. split; [done|].
    by eapply list_elem_of_lookup_2.
Qed.

Lemma last_index_elem ns k p : last_index ns k p → k ∈ (id <$> ns).
Proof.
  intros [(nd & Hp & <-) _]. apply list_elem_of_fmap. exists nd.
  split; [done|]. by eapply list_elem_of_lookup_2.
Qed.

Lemma last_index_exists ns k : k ∈ (id <$> ns) → ∃ p, last_index ns k p.
Proof.
  induction ns as [|d ns IH]; [by intros []%elem_of_nil|].
  destruct (decide (k ∈ (id <$> ns))) as [Hin|Hnot].
  - intros _. destruct (IH Hin) as [p Hp]. exists (S p).
    by apply last_index_cons_S.
  - rewrite fmap_cons. intros [->|?]%elem_of_cons; [|done].
    exists 0%nat. by apply last_index_cons_0.
Qed.

Lemma index_nodes_last ns : ∀ i acc k j,
  (index_nodes i ns acc).1 !! k = Some j ↔
  (∃ p, j = (i + p)%nat ∧ last_index ns k p) ∨
  ((k ∉ (id <$> ns)) ∧ acc.1 !! k = Some j).
Proof.
  induction ns as [|d ns IH]; intros i acc k j.
  { simpl. split.
    - intros H. right. split; [apply not_elem_of_nil|done].
    - intros [(p & _ & [(nd & ? & _) _])|[_ ?]]; done. }
  simpl. rewrite IH. simpl. clear IH. split.
  - intros [(p & -> & Hp)|[Hnot Hacc]].
    + left. exists (S p). split; [lia|]. by apply last_index_cons_S.
    + apply lookup_insert_Some in Hacc as [[<- <-]|[Hne Hacc]].
      * left. exists 0%nat. split; [lia|]. by apply last_index_cons_0.
      * right. split; [|done]. rewrite not_elem_of_cons.
        split; [done|done].
  - intros [([|p] & -> & Hp)|[Hnot Hacc]].
    + apply last_index_cons_0 in Hp as [<- Hnot]. right. split; [done|].
      rewrite lookup_insert_eq. f_equal. lia.
    + apply last_index_cons_S in Hp. left. exists p. split; [lia|done].
    + rewrite not_elem_of_cons in Hnot. destruct Hnot as [Hne Hnot].
      right. split; [done|]. by rewrite lookup_insert_ne.
Qed.

Lemma nodeIdx_last g k j :
  (index_nodes 0 (nodes g) (∅, ∅)).1 !! k = Some j ↔ last_index (nodes g) k j.
Proof.
  rewrite index_nodes_last. simpl. split.
  - intros [(p & -> & ?)|[_ ?]]; done.
  - intros H. left. by exists j.
Qed.

Lemma nodeIdx_None g k :
  (index_nodes 0 (nodes g) (∅, ∅)).1 !! k = None ↔ k ∉ (id <$> nodes g).
Proof.
  split.
  - intros Hnone [p Hp%nodeIdx_last]%last_index_exists. congruence.
  - intros Hnot. destruct (_ !! k) as [j|] eqn:Hj; [|done].
    by apply nodeIdx_last, last_index_elem in Hj.
Qed.

Lemma resolve_target nodeIdx d0 :
  target (resolve nodeIdx d0) = nodeIdx !! end_ d0.
Proof. unfold resolve. by destruct (start d0 =? 0). Qed.

Lemma resolve_source nodeIdx d0 :
  source (resolve nodeIdx d0) =
  if start d0 =? 0 then None else nodeIdx !! start d0.
Proof. unfold resolve. by destruct (start d0 =? 0). Qed.

Lemma resolve_is_top nodeIdx d0 :
  is_top (resolve nodeIdx d0) = (start d0 =? 0).
Proof. unfold is_top. by rewrite resolve_parsed. Qed.

(** X5. [prepareGraph] keeps the node list as it is and keeps every link, in
    the order of the input and with the fields it was given; it resets the
    sticky flag of the graph. *)
Theorem X5_links_kept fuel g :
  (length (links g) ≤ fuel)%nat →
  ∃ g', prepareGraph fuel g = Done g' ∧
    g_nodes g' = nodes g ∧ parsed <$> g_links g' = links g ∧
    length (g_links g') = length (links g) ∧ g_sticky g' = false.
Proof.
  intros Hfuel. destruct (layout_inv fuel g Hfuel) as (out & st & Hl & _ & Hun).
  eexists. split; [by apply prepareGraph_layout|]. simpl.
  assert (parsed <$> out = links g) as Hparsed.
  { transitivity (parsed <$> (unlevel <$> out)).
    - rewrite <-list_fmap_compose. by apply list_fmap_ext.
    - rewrite Hun, <-list_fmap_compose. rewrite <-(list_fmap_id (links g)) at 2.
      apply list_fmap_ext. intros _ d _. apply resolve_parsed. }
  split_and!; [done..| |done]. by rewrite <-Hparsed, length_fmap.
Qed.

Lemma X5_links_kept_witness :
  ∃ g', prepareGraph 6 sample = Done g' ∧
    g_nodes g' = nodes sample ∧ parsed <$> g_links g' = links sample ∧
    length (g_links g') = length (links sample) ∧ g_sticky g' = false.
Proof. apply (X5_links_kept 6 sample). simpl. lia. Defined.

(** X6. After [prepareGraph], the target of a link is the position of the
    last node whose identifier is the link's [end], and it is undefined
    exactly when no node has that identifier; the same holds for the source
    of a non-TOP link and its [start]; the distance of a non-TOP link is the
    absolute difference of the two, and is below the number of nodes. *)
Theorem X6_ends_resolve fuel g :
  (length (links g) ≤ fuel)%nat →
  ∃ g', prepareGraph fuel g = Done g' ∧
    ∀ j d, g_links g' !! j = Some d →
      (∀ t, target d = Some t ↔ last_index (nodes g) (end_ (parsed d)) t) ∧
      (target d = None ↔ end_ (parsed d) ∉ (id <$> nodes g)) ∧
      (is_top d = false →
       (∀ s, source d = Some s ↔ last_index (nodes g) (start (parsed d)) s) ∧
       (source d = None ↔ start (parsed d) ∉ (id <$> nodes g)) ∧
       distance d = abs_diff (source d) (target d) ∧
       ∀ dd, distance d = Some dd → (dd < length (nodes g))%nat).
Proof.
  intros Hfuel.
  destruct (layout_resolved fuel g Hfuel) as (out & st & Hl & Hinv & Hun).
  eexists. split; [by apply prepareGraph_layout|]. simpl.
  intros j d Hj.
  destruct (resolved_lookup g out j d Hun Hj) as (d0 & _ & Hd).
  pose proof (inv_wf _ _ _ _ _ Hinv j d Hj) as Hwf.
  assert (parsed d = d0) as Hp.
  { change (parsed (unlevel d) = d0). rewrite Hd. apply resolve_parsed. }
  rewrite Hp.
  assert (target d = (index_nodes 0 (nodes g) (∅, ∅)).1 !! end_ d0) as Ht.
  { change (target d) with (target (unlevel d)). rewrite Hd.
    apply resolve_target. }
  split_and!.
  - intros t. rewrite Ht. apply nodeIdx_last.
  - rewrite Ht. apply nodeIdx_None.
  - intros Htop.
    assert (source d = (index_nodes 0 (nodes g) (∅, ∅)).1 !! start d0) as Hs.
    { change (source d) with (source (unlevel d)).
      rewrite Hd, resolve_source. unfold is_top in Htop.
      by rewrite Hp in Htop; rewrite Htop. }
    pose proof (wf_distance _ _ Hwf) as Hdist. rewrite Htop in Hdist.
    split_and!.
    + intros s. rewrite Hs. apply nodeIdx_last.
    + rewrite Hs. apply nodeIdx_None.
    + done.
    + intros dd Hdd. eapply wf_due_lt; [done|]. by apply due_distance.
Qed.

Lemma X6_ends_resolve_witness :
  ∃ g', prepareGraph 6 sample = Done g' ∧
    ∀ j d, g_links g' !! j = Some d →
      (∀ t, target d = Some t ↔ last_index (nodes sample) (end_ (parsed d)) t) ∧
      (target d = None ↔ end_ (parsed d) ∉ (id <$> nodes sample)) ∧
      (is_top d = false →
       (∀ s, source d = Some s ↔
               last_index (nodes sample) (start (parsed d)) s) ∧
       (source d = None ↔ start (parsed d) ∉ (id <$> nodes sample)) ∧
       distance d = abs_diff (source d) (target d) ∧
       ∀ dd, distance d = Some dd → (dd < length (nodes sample))%nat).
Proof. apply (X6_ends_resolve 6 sample). simpl. lia. Defined.

Lemma place_links_filter fuel dist (P : link → bool) ls :
  (∀ d d', unlevel d' = unlevel d → P d' = P d) →
  (∀ d, P d = false → due dist d = false) →
  ∀ st out st', place_links fuel dist ls st = Done (out, st') →
    place_links fuel dist (filter (λ d, P d) ls) st
    = Done (filter (λ d, P d) out, st').
Proof.
  intros Hstable Hskip. induction ls as [|d ls IH]; simpl; intros st out st'.
  { by intros [= <- <-]. }
  intros ([d' st1] & Hp & ([out' st2] & Hps & [= <- <-])%bind_Done)%bind_Done.
  rewrite !filter_cons, (Hstable _ _ (place_unlevel _ _ _ _ _ _ Hp)).
  destruct (P d) eqn:HP; simpl.
  - rewrite Hp. simpl. by rewrite (IH _ _ _ Hps).
  - rewrite place_due, (Hskip d HP) in Hp. injection Hp as <- <-.
    by apply IH.
Qed.

Lemma dist_loop_filter fuel (P : link → bool) dists :
  (∀ d d', unlevel d' = unlevel d → P d' = P d) →
  (∀ d dist, P d = false → due dist d = false) →
  ∀ ls st out st', dist_loop fuel dists ls st = Done (out, st') →
    dist_loop fuel dists (filter (λ d, P d) ls) st
    = Done (filter (λ d, P d) out, st').
Proof.
  intros Hstable Hskip.
  induction dists as [|dist dists IH]; simpl; intros ls st out st'.
  { by intros [= <- <-]. }
  intros ([ls1 st1] & Hp & Hd)%bind_Done. simpl in Hd.
  rewrite (place_links_filter _ _ P _ Hstable (λ d, Hskip d dist) _ _ _ Hp).
  simpl. by apply IH.
Qed.

Lemma resolved_without_top g :
  resolved (without_top g) = filter (λ d, negb (is_top d)) (resolved g).
Proof.
  unfold resolved, without_top. simpl.
  generalize (index_nodes 0 (nodes g) (∅, ∅)).1. intros nodeIdx.
  induction (links g) as [|d0 ls IH]; [done|].
  rewrite fmap_cons, !filter_cons, resolve_is_top.
  destruct (Z.eqb_spec (start d0) 0) as [Hs|Hs]; simpl.
  - by rewrite decide_False by (by intros ?).
  - rewrite decide_True by done. by rewrite fmap_cons, IH.
Qed.

(** X9. The TOP links have no effect on the other links: laying out the
    graph without its TOP links gives the same lanes and extents, and the
    other links, in the same order, get the same levels. *)
Theorem X9_top_links_ignored fuel g :
  (length (links g) ≤ fuel)%nat →
  ∃ g', prepareGraph fuel g = Done g' ∧
    prepareGraph fuel (without_top g) =
    Done (Graph (g_nodes g') (filter (λ d, negb (is_top d)) (g_links g'))
            (g_maxTopLevel g') (g_maxBottomLevel g') false).
Proof.
  intros Hfuel. destruct (layout_inv fuel g Hfuel) as (out & st & Hl & _ & _).
  eexists. split; [by apply prepareGraph_layout|]. simpl.
  apply (prepareGraph_layout fuel (without_top g)).
  rewrite layout_unfold in Hl |- *.
  rewrite resolved_without_top. simpl.
  apply (dist_loop_filter _ (λ d, negb (is_top d))); [| |done].
  - intros d d' Hd. unfold is_top.
    pose proof (f_equal parsed Hd) as Hp. simpl in Hp. by rewrite Hp.
  - intros d dist Ht. unfold due. by rewrite Ht.
Qed.

Lemma X9_top_links_ignored_witness :
  ∃ g', prepareGraph 6 sample = Done g' ∧
    prepareGraph 6 (without_top sample) =
    Done (Graph (g_nodes g') (filter (λ d, negb (is_top d)) (g_links g'))
            (g_maxTopLevel g') (g_maxBottomLevel g') false).
Proof. apply (X9_top_links_ignored 6 sample). simpl. lia. Defined.

(** * The extents against the number of links *)

Lemma placed_dir_app s L1 L2 :
  placed_dir s (L1 ++ L2) = (placed_dir s L1 + placed_dir s L2)%nat.
Proof. unfold placed_dir. by rewrite filter_app, length_app. Qed.

Lemma placed_dir_insert s L k d lvl :
  L !! k = Some d → level d = None →
  placed_dir s (<[k := set_level d lvl]> L) =
  (placed_dir s L + if decide (dir d = s) then 1 else 0)%nat.
Proof.
  intros Hk Hnone. pose proof (lookup_lt_Some _ _ _ Hk) as Hlt.
  rewrite insert_take_drop by done.
  pose proof (take_drop_middle L k d Hk) as HL. revert HL.
  generalize (take k L) (drop (S k) L). intros L1 L2 <-.
  rewrite !placed_dir_app.
  change (set_level d lvl :: L2) with ([set_level d lvl] ++ L2).
  change (d :: L2) with ([d] ++ L2). rewrite !placed_dir_app.
  assert (placed_dir s [d] = 0%nat) as ->.
  { unfold placed_dir. rewrite filter_cons_False; [done|].
    rewrite Hnone. by intros [[??] _]. }
  assert (placed_dir s [set_level d lvl] = if decide (dir d = s) then 1 else 0)%nat
    as ->.
  { unfold placed_dir. case_decide.
    - rewrite filter_cons_True; [done|]. simpl. eauto.
    - rewrite filter_cons_False; [done|]. simpl. by intros [_ ?]. }
  lia.
Qed.

Lemma place_count n fuel dist k L st d d' st' :
  inv n dist k L st → inv_count L st → L !! k = Some d →
  place fuel dist d st = Done (d', st') → inv_count (<[k := d']> L) st'.
Proof.
  intros Hinv Hcnt Hk. rewrite place_due. destruct (due dist d) eqn:Hdue.
  2: { intros [= <- <-]. by rewrite list_insert_id. }
  apply Is_true_true, due_distance in Hdue as [Htop Hdist].
  intros ([l idx] & Hs & [= <- <-])%bind_Done.
  rewrite nextAvailableLevel_search in Hs. fold (span d) in Hs.
  pose proof (inv_wf _ _ _ _ _ Hinv k d Hk) as Hwf.
  assert (search fuel (levelIdx st) (span d) (dir d) (dir d * 1)
          = Done (l, idx)) as Hs' by (by rewrite Z.mul_1_r).
  apply search_done in Hs' as (c & -> & Hc & _ & _ & Hbelow & Hm);
    [|by destruct Hwf|lia].
  assert (level d = None) as Hnone.
  { destruct (level d) as [l|] eqn:Hl; [|done].
    destruct (inv_fresh _ _ _ _ _ Hinv k d l Hk Hl) as [_ (dd & Hdd & ?)].
    rewrite Hdist in Hdd. injection Hdd as <-. lia. }
  assert ((dir d = 1 → c ≤ Z.of_nat (placed_dir 1 L) + 1) ∧
          (dir d = -1 → c ≤ Z.of_nat (placed_dir (-1) L) + 1)) as [Hup Hdown].
  { split; intros Hd; (destruct (decide (c = 1)); [lia|]);
      (destruct (Hbelow (c - 1)) as (i & lv & _ & Hlv & Hin); [lia|]);
      destruct (cnt_lanes _ _ Hcnt i lv _ Hlv Hin) as [H1 H2];
      rewrite Hd in *; lia. }
  pose proof (placed_dir_insert 1 L k d (dir d * c) Hk Hnone) as Hp1.
  pose proof (placed_dir_insert (-1) L k d (dir d * c) Hk Hnone) as Hp2.
  set (L' := <[k := set_level d (dir d * c)]> L) in *.
  assert ((0 < dir d * c → dir d * c ≤ Z.of_nat (placed_dir 1 L')) ∧
          (dir d * c < 0 → - (dir d * c) ≤ Z.of_nat (placed_dir (-1) L')))
    as Hnew.
  { rewrite Hp1, Hp2.
    destruct (wf_dir _ _ Hwf) as [Hd|Hd]; rewrite Hd in *;
      repeat case_decide; lia. }
  split; simpl.
  - intros i lv' l0 Hlv Hin.
    destruct (marked_inv _ _ _ _ _ _ _ Hm Hlv Hin) as [[-> _]|(lv & Hlv0 & Hin0)];
      [done|].
    destruct (cnt_lanes _ _ Hcnt i lv l0 Hlv0 Hin0). rewrite Hp1, Hp2. lia.
  - intros j d0 l0 [(-> & <- & _)|[Hne Hj]]%list_lookup_insert_Some Hl.
    + simpl in Hl. injection Hl as <-. simpl.
      destruct Hnew as [H1 H2]. split; intros Hd; rewrite Hd in *; lia.
    + destruct (cnt_links _ _ Hcnt j d0 l0 Hj Hl). rewrite Hp1, Hp2. lia.
Qed.

(** A property of the links and lanes that each step of the loop body
    keeps is kept by the whole of [layout]. *)
Section kept.
Variable Q : list link → lanes → Prop.
Hypothesis Q_place : ∀ n fuel dist k L st d d' st',
  inv n dist k L st → Q L st → L !! k = Some d →
  place fuel dist d st = Done (d', st') → Q (<[k := d']> L) st'.

Lemma place_links_kept n fuel dist ls : ∀ pre st out st',
  inv n dist (length pre) (pre ++ ls) st → Q (pre ++ ls) st →
  (length (pre ++ ls) ≤ fuel)%nat →
  place_links fuel dist ls st = Done (out, st') → Q (pre ++ out) st'.
Proof using Q_place.
  induction ls as [|d ls IH]; intros pre st out st' Hinv HQ Hfuel; simpl.
  { by intros [= <- <-]. }
  intros ([d' st1] & Hp & ([out' st2] & Hps & [= <- <-])%bind_Done)%bind_Done.
  destruct (place_inv n fuel dist (length pre) (pre ++ d :: ls) st d)
    as (d1 & st1' & Hp' & Hinv1); [done | by apply list_lookup_middle | done |].
  rewrite Hp in Hp'. injection Hp' as <- <-.
  pose proof (Q_place _ _ _ _ _ _ _ _ _ Hinv HQ
                (list_lookup_middle pre ls d _ eq_refl) Hp) as HQ1.
  rewrite insert_app_r_alt, Nat.sub_diag in Hinv1, HQ1 by done.
  simpl in Hinv1, HQ1. rewrite cons_middle, (assoc_L (++)) in Hinv1, HQ1.
  rewrite cons_middle, (assoc_L (++)).
  apply (IH (pre ++ [d']) st1); [|done| |done].
  - by rewrite length_app, Nat.add_1_r.
  - rewrite <-(assoc_L (++)). simpl. by rewrite length_app in Hfuel |- *.
Qed.

Lemma dist_loop_kept n fuel m : ∀ dist L st out st',
  inv n dist 0 L st → Q L st → (length L ≤ fuel)%nat →
  dist_loop fuel (seq dist m) L st = Done (out, st') → Q out st'.
Proof using Q_place.
  induction m as [|m IH]; intros dist L st out st' Hinv HQ Hfuel; simpl.
  { by intros [= <- <-]. }
  intros ([L1 st1] & Hp & Hd)%bind_Done. simpl in Hd.
  destruct (place_links_inv n fuel dist L [] st)
    as (L1' & st1' & Hp' & Hlen & Hinv1); [done..|].
  rewrite Hp in Hp'. injection Hp' as <- <-.
  simpl in *. rewrite <-Hlen in Hinv1. apply inv_next_dist in Hinv1.
  apply (IH (S dist) L1 st1); [done| |lia|done].
  by apply (place_links_kept n fuel dist L [] st).
Qed.

Lemma layout_kept fuel g :
  (∀ L st, (∀ j d, L !! j = Some d → level d = None) →
           (∀ i lv, levelIdx st !! i = Some lv → lv = ∅) → Q L st) →
  (length (links g) ≤ fuel)%nat →
  ∃ out st, layout fuel g = Done (out, st) ∧
    inv (length (nodes g)) (length (nodes g)) 0 out st ∧ Q out st.
Proof using Q_place.
  intros Hinit Hfuel.
  destruct (layout_inv fuel g Hfuel) as (out & st & Hl & Hinv & _).
  exists out, st. split_and!; [done..|].
  unfold layout in Hl.
  destruct (index_nodes 0 (nodes g) (∅, ∅)) as [nodeIdx lvlIdx] eqn:Hidx.
  pose proof (inv_init g nodeIdx lvlIdx Hidx) as Hinv0.
  eapply (dist_loop_kept _ fuel _ 0); [exact Hinv0 | | by rewrite length_fmap
                                      | exact Hl].
  apply Hinit; simpl.
  - intros j d (d0 & -> & _)%list_lookup_fmap_Some. apply resolve_level.
  - intros i lv Hlv. apply set_eq. intros l. split; [|set_solver].
    intros Hin.
    destruct (inv_owner _ _ _ _ _ Hinv0 i lv l Hlv Hin)
      as (j & d & (d0 & -> & _)%list_lookup_fmap_Some & Hlev & _).
    by rewrite resolve_level in Hlev.
Qed.
End kept.

Lemma layout_count fuel g :
  (length (links g) ≤ fuel)%nat →
  ∃ out st, layout fuel g = Done (out, st) ∧
    inv (length (nodes g)) (length (nodes g)) 0 out st ∧ inv_count out st.
Proof.
  apply (layout_kept inv_count).
  - intros n fuel' dist k L st d d' st'. apply place_count.
  - intros L st Hnone Hempty. split.
    + intros i lv l ->%Hempty. set_solver.
    + intros j d l Hj. by rewrite (Hnone j d Hj).
Qed.

Lemma filter_disjoint_length {A} (P Q R : A → Prop)
    `{!∀ x, Decision (P x)} `{!∀ x, Decision (Q x)} `{!∀ x, Decision (R x)}
    (l : list A) :
  (∀ x, P x → Q x → False) → (∀ x, P x → R x) → (∀ x, Q x → R x) →
  (length (filter P l) + length (filter Q l) ≤ length (filter R l))%nat.
Proof.
  intros Hdisj HP HQ. induction l as [|a l IH]; [done|].
  rewrite !filter_cons.
  destruct (decide (P a)) as [Ha|], (decide (Q a)) as [Hb|],
    (decide (R a)) as [|Hc]; simpl; try lia;
    try (by destruct (Hdisj a)); destruct Hc; auto.
Qed.

Lemma non_top_length L :
  length (filter (λ d, is_top d = false) L) =
  length (filter (λ d, start d ≠ 0) (parsed <$> L)).
Proof.
  induction L as [|d L IH]; [done|]. rewrite fmap_cons, !filter_cons.
  assert (is_top d = false ↔ start (parsed d) ≠ 0) as Hiff
    by apply Z.eqb_neq.
  destruct (decide (is_top d = false)) as [Ht|Ht],
    (decide (start (parsed d) ≠ 0)) as [Hs|Hs]; simpl;
    [by rewrite IH | by apply Hiff in Ht | by apply Hiff in Hs | done].
Qed.

Lemma unlevel_parsed nodeIdx (out : list link) (ls : list d3_link) :
  unlevel <$> out = resolve nodeIdx <$> ls → parsed <$> out = ls.
Proof.
  intros Hun. transitivity (parsed <$> (unlevel <$> out)).
  - rewrite <-list_fmap_compose. by apply list_fmap_ext.
  - rewrite Hun, <-list_fmap_compose. rewrite <-(list_fmap_id ls) at 2.
    apply list_fmap_ext. intros _ d _. apply resolve_parsed.
Qed.

Lemma filter_length_impl {A} (P Q : A → Prop)
    `{!∀ x, Decision (P x)} `{!∀ x, Decision (Q x)} (l : list A) :
  (∀ x, x ∈ l → P x → Q x) →
  (length (filter P l) ≤ length (filter Q l))%nat.
Proof.
  induction l as [|a l IH]; intros Himpl; [done|].
  rewrite !filter_cons.
  assert (length (filter P l) ≤ length (filter Q l))%nat.
  { apply IH. intros x Hx. apply Himpl. by right. }
  destruct (decide (P a)) as [HP|], (decide (Q a)) as [|HQ]; simpl; [lia| |lia..].
  destruct HQ. apply Himpl; [by left|done].
Qed.

(** X7. The extents are bounded by the number of links: [maxTopLevel] is at
    most the number of non-TOP links of direction 1, [-maxBottomLevel] at
    most the number of those of direction -1, so the drawing is at most
    [(number of links + 3) * level_dy] high. *)
Theorem X7_extents_bounded fuel g :
  (length (links g) ≤ fuel)%nat →
  ∃ g', prepareGraph fuel g = Done g' ∧
    g_maxTopLevel g' ≤
      Z.of_nat (length (filter (λ d, is_top d = false ∧ dir d = 1)
                          (g_links g'))) ∧
    - g_maxBottomLevel g' ≤
      Z.of_nat (length (filter (λ d, is_top d = false ∧ dir d = -1)
                          (g_links g'))) ∧
    g_maxTopLevel g' - g_maxBottomLevel g' ≤
      Z.of_nat (length (filter (λ d, start d ≠ 0) (links g))) ∧
    (svg_height g' <= inject_Z (Z.of_nat (length (links g)) + 3) * level_dy)%Q.
Proof.
  intros Hfuel.
  destruct (layout_count fuel g Hfuel) as (out & st & Hl & Hinv & Hcnt).
  destruct (layout_inv fuel g Hfuel) as (out' & st'' & Hl' & _ & Hun).
  rewrite Hl in Hl'. injection Hl' as <- <-.
  eexists. split; [by apply prepareGraph_layout|]. simpl.
  assert (∀ s, (placed_dir s out ≤
            length (filter (λ d, is_top d = false ∧ dir d = s) out))%nat) as Hpd.
  { intros s. apply filter_length_impl. intros d [j Hj]%list_elem_of_lookup.
    intros [[l Hlev] Hd]. split; [|done].
    by destruct (inv_fresh _ _ _ _ _ Hinv j d l Hj Hlev). }
  assert (maxTopLevel st ≤ Z.of_nat (placed_dir 1 out)) as Htop.
  { destruct (inv_top _ _ _ _ _ Hinv) as [->|(j & d & Hj & Hd & Hlev)]; [lia|].
    by apply (cnt_links _ _ Hcnt j d _ Hj Hlev). }
  assert (- maxBottomLevel st ≤ Z.of_nat (placed_dir (-1) out)) as Hbot.
  { destruct (inv_bottom _ _ _ _ _ Hinv) as [->|(j & d & Hj & Hd & Hlev)];
      [lia|].
    by apply (cnt_links _ _ Hcnt j d _ Hj Hlev). }
  assert (length (filter (λ d, is_top d = false ∧ dir d = 1%Z) out) +
          length (filter (λ d, is_top d = false ∧ dir d = (-1)%Z) out)
          ≤ length (filter (λ d, start d ≠ 0%Z) (links g)))%nat as Hsum.
  { pose proof (unlevel_parsed _ _ _ Hun) as Hparsed.
    rewrite <-Hparsed, <-non_top_length.
    apply filter_disjoint_length.
    - intros d [_ ?] [_ ?]. lia.
    - by intros d [? _].
    - by intros d [? _]. }
  pose proof (Hpd 1). pose proof (Hpd (-1)).
  split_and!; [lia..|].
  pose proof (length_filter (λ d, start d ≠ 0) (links g)).
  unfold svg_height. simpl. apply Qmult_le_compat_r; [|done].
  rewrite <-Zle_Qle. lia.
Qed.

Lemma X7_extents_bounded_witness :
  ∃ g', prepareGraph 6 sample = Done g' ∧
    g_maxTopLevel g' ≤
      Z.of_nat (length (filter (λ d, is_top d = false ∧ dir d = 1)
                          (g_links g'))) ∧
    - g_maxBottomLevel g' ≤
      Z.of_nat (length (filter (λ d, is_top d = false ∧ dir d = -1)
                          (g_links g'))) ∧
    g_maxTopLevel g' - g_maxBottomLevel g' ≤
      Z.of_nat (length (filter (λ d, start d ≠ 0) (links sample))) ∧
    (svg_height g' <=
     inject_Z (Z.of_nat (length (links sample)) + 3) * level_dy)%Q.
Proof. apply (X7_extents_bounded 6 sample). simpl. lia. Defined.

(** * The drawing *)

Lemma set_x_length getBBox ns : ∀ i x_pos,
  length (set_x getBBox i x_pos ns).1 = length ns.
Proof.
  induction ns as [|d ns IH]; intros i x_pos; simpl; [done|].
  specialize (IH (S i) (x_pos + bb_width (getBBox i) / 2 +
                        bb_width (getBBox i) / 2 + node_dx)%Q).
  destruct (set_x _ _ _ _) as [out x_end]. simpl in *. by rewrite IH.
Qed.

Lemma getPathSpec_Raise d G :
  getPathSpec d G = Raise TypeError ↔
  node_at G (target d) = None ∨
  (is_top d = false ∧ node_at G (source d) = None).
Proof.
  unfold getPathSpec, is_top.
  destruct (node_at G (target d)) as [tn|]; [|naive_solver].
  destruct (start (parsed d) =? 0); [naive_solver|].
  destruct (node_at G (source d)) as [sn|]; [|naive_solver].
  destruct (Qlt_le_dec _ _); naive_solver.
Qed.

Lemma getPathSpec_Done d G :
  node_at G (target d) ≠ None →
  (is_top d = false → node_at G (source d) ≠ None) →
  ∃ p, getPathSpec d G = Done p ∧
    ((is_top d = true ∨ is_Some (level d)) →
       (Num None ∉ p.1) ∧ is_Some (mid_y p.2)).
Proof.
  unfold getPathSpec, is_top. intros Ht Hs.
  destruct (node_at G (target d)) as [tn|]; [|done].
  destruct (start (parsed d) =? 0).
  { eexists. split; [done|]. intros _. simpl. split; [|done].
    rewrite !elem_of_cons, elem_of_nil. unfold num. naive_solver. }
  destruct (node_at G (source d)) as [sn|]; [|by destruct Hs].
  destruct (Qlt_le_dec _ _); (eexists; split; [done|]);
    (intros [?|[l Hl]]; [done|]); rewrite Hl; simpl; (split; [|done]);
    rewrite !elem_of_cons, elem_of_nil; unfold num; naive_solver.
Qed.

Lemma path_specs_Done G ls :
  (∀ d, d ∈ ls → ∃ p, getPathSpec d G = Done p) →
  ∃ ps, path_specs G ls = Done ps ∧
    Forall2 (λ d p, getPathSpec d G = Done p) ls ps.
Proof.
  induction ls as [|d ls IH]; intros Hall; simpl.
  { exists []. by split. }
  destruct (Hall d) as [p Hp]; [by left|]. rewrite Hp. simpl.
  destruct IH as (ps & -> & Hps).
  { intros d' Hd'. apply Hall. by right. }
  exists (p :: ps). split; [done|]. by constructor.
Qed.

Lemma path_specs_Raise G ls d :
  d ∈ ls → getPathSpec d G = Raise TypeError →
  path_specs G ls = Raise TypeError.
Proof.
  induction ls as [|d' ls IH]; [by intros ?%elem_of_nil|].
  intros [->|Hin]%elem_of_cons Hd; simpl; [by rewrite Hd|].
  destruct (getPathSpec d' G) as [p|[]|] eqn:Hp; simpl; [|done|].
  - by rewrite (IH Hin Hd).
  - unfold getPathSpec in Hp. repeat case_match; done.
Qed.

(** The ends of a link after [layout], read off the link it came from. *)
Lemma out_ends nodeIdx (out : list link) (ls : list d3_link) j d :
  unlevel <$> out = resolve nodeIdx <$> ls → out !! j = Some d →
  ls !! j = Some (parsed d) ∧
  target d = nodeIdx !! end_ (parsed d) ∧
  source d = if start (parsed d) =? 0 then None
             else nodeIdx !! start (parsed d).
Proof.
  intros Hun Hj.
  assert ((unlevel <$> out) !! j = Some (unlevel d)) as Hu
    by (by rewrite list_lookup_fmap, Hj).
  rewrite Hun in Hu. apply list_lookup_fmap_Some in Hu as (d0 & Hd & Hd0).
  assert (parsed d = d0) as Hp.
  { change (parsed (unlevel d) = d0). rewrite Hd. apply resolve_parsed. }
  rewrite Hp. split_and!; [done| |].
  - change (target d) with (target (unlevel d)). rewrite Hd.
    apply resolve_target.
  - change (source d) with (source (unlevel d)). rewrite Hd.
    apply resolve_source.
Qed.

Lemma missing_ends g d :
  target d = (index_nodes 0 (nodes g) (∅, ∅)).1 !! end_ (parsed d) →
  source d = (if start (parsed d) =? 0 then None
              else (index_nodes 0 (nodes g) (∅, ∅)).1 !! start (parsed d)) →
  missing_reference g (parsed d) ↔
  target d = None ∨ (is_top d = false ∧ source d = None).
Proof.
  intros -> ->. unfold missing_reference, is_top.
  rewrite !nodeIdx_None.
  destruct (Z.eqb_spec (start (parsed d)) 0) as [Hs|Hs].
  - naive_solver.
  - rewrite nodeIdx_None. naive_solver.
Qed.

Lemma node_at_None G n d :
  wf_link n d → length (g_nodes G) = n →
  (node_at G (target d) = None ↔ target d = None) ∧
  (node_at G (source d) = None ↔ source d = None).
Proof.
  intros Hwf Hlen. unfold node_at.
  split; [destruct (target d) as [t|] eqn:Ht|destruct (source d) as [s|] eqn:Hs];
    simpl; try done; rewrite lookup_ge_None;
    [pose proof (wf_target _ _ Hwf _ Ht)|pose proof (wf_source _ _ Hwf _ Hs)];
    split; (done || lia).
Qed.

(** X10. [dmrsDisplay] ends with a TypeError when some link names a node
    that the graph does not have (other than the root marker 0 as [from]);
    on every other graph it draws one box per node and one path per link, no
    path has a [NaN] in it and every label has its place. *)
Theorem X10_display_outcome fuel getBBox g :
  (length (links g) ≤ fuel)%nat →
  ((∃ d, d ∈ links g ∧ missing_reference g d) →
     dmrsDisplay fuel getBBox g = Raise TypeError) ∧
  ((∀ d, d ∈ links g → ¬ missing_reference g d) →
     ∃ D, dmrsDisplay fuel getBBox g = Done D ∧
       length (boxes D) = length (nodes g) ∧
       length (shown_links D) = length (links g) ∧
       ∀ dl, dl ∈ shown_links D →
         (Num None ∉ dl_d dl) ∧ is_Some (dl_text_y dl)).
Proof.
  intros Hfuel.
  destruct (layout_inv fuel g Hfuel) as (out & st & Hl & Hinv & Hun).
  unfold dmrsDisplay. rewrite (prepareGraph_layout _ _ _ _ Hl). simpl.
  set (ns := (set_x getBBox 0 10 (nodes g)).1).
  set (G := Graph (ns.*1) out (maxTopLevel st) (maxBottomLevel st) false).
  assert (length (g_nodes G) = length (nodes g)) as HlenG.
  { simpl. unfold ns. by rewrite length_fmap, set_x_length. }
  assert (∀ j d, out !! j = Some d →
            links g !! j = Some (parsed d) ∧
            (getPathSpec d G = Raise TypeError ↔
             missing_reference g (parsed d)) ∧
            (¬ missing_reference g (parsed d) →
             ∃ p, getPathSpec d G = Done p ∧ (Num None ∉ p.1) ∧
                  is_Some (mid_y p.2))) as Hlink.
  { intros j d Hj.
    destruct (out_ends _ _ _ _ _ Hun Hj) as (Hj0 & Ht & Hs).
    pose proof (missing_ends g d Ht Hs) as Hmiss.
    pose proof (inv_wf _ _ _ _ _ Hinv j d Hj) as Hwf.
    destruct (node_at_None G _ d Hwf HlenG) as [Hnt Hns].
    split_and!; [done| |].
    - by rewrite getPathSpec_Raise, Hmiss, Hnt, Hns.
    - intros Hok. rewrite Hmiss in Hok.
      destruct (getPathSpec_Done d G) as (p & Hp & Hnum).
      + rewrite Hnt. tauto.
      + rewrite Hns. tauto.
      + exists p. split; [done|]. apply Hnum.
        destruct (is_top d) eqn:Htop; [by left|right].
        eapply inv_final_levelled; [done..| |].
        * destruct (source d); [done|]. tauto.
        * destruct (target d); [done|]. tauto. }
  split.
  - intros (d0 & [j Hj0]%list_elem_of_lookup & Hmiss).
    assert (is_Some (out !! j)) as [d Hj].
    { apply lookup_lt_is_Some. apply lookup_lt_Some in Hj0.
      by rewrite <-(length_fmap unlevel), Hun, length_fmap. }
    destruct (Hlink j d Hj) as (Hj' & Hr & _).
    assert (parsed d = d0) as Hp by congruence.
    rewrite (path_specs_Raise G out d); [done| |].
    + by eapply list_elem_of_lookup_2.
    + apply Hr. by rewrite Hp.
  - intros Hok.
    assert (∀ d, d ∈ out → ¬ missing_reference g (parsed d)) as Hok'.
    { intros d [j Hj]%list_elem_of_lookup.
      destruct (Hlink j d Hj) as (Hj' & _). apply Hok.
      by eapply list_elem_of_lookup_2. }
    destruct (path_specs_Done G out) as (ps & -> & Hps).
    { intros d Hd. pose proof Hd as [j Hj]%list_elem_of_lookup.
      destruct (Hlink j d Hj) as (_ & _ & Hdone).
      destruct Hdone as (p & ? & _); [|by exists p].
      apply Hok'. by eapply list_elem_of_lookup_2. }
    simpl. eexists. split; [done|]. simpl.
    pose proof (Forall2_length _ _ _ Hps) as Hlen.
    assert (length out = length (links g)) as Hout
      by (by rewrite <-(length_fmap unlevel), Hun, length_fmap).
    split_and!.
    + unfold ns. by rewrite length_fmap, set_x_length.
    + rewrite length_zip_with. lia.
    + intros dl (j & Hdl)%list_elem_of_lookup.
      apply lookup_zip_with_Some in Hdl as (d & p & -> & Hj & Hpj).
      simpl. destruct (Hlink j d Hj) as (_ & _ & Hdone).
      destruct Hdone as (p' & Hp' & Hnum & [y Hy]).
      { apply Hok'. by eapply list_elem_of_lookup_2. }
      pose proof (Forall2_lookup_lr _ _ _ _ _ _ Hps Hj Hpj) as Hp.
      simpl in Hp. rewrite Hp' in Hp. injection Hp as ->.
      split; [done|]. by rewrite Hy.
Qed.

Lemma X10_display_outcome_witness :
  ((∃ d, d ∈ links sample ∧ missing_reference sample d) →
     dmrsDisplay 6 (λ _, TextBox 40 12) sample = Raise TypeError) ∧
  ((∀ d, d ∈ links sample → ¬ missing_reference sample d) →
     ∃ D, dmrsDisplay 6 (λ _, TextBox 40 12) sample = Done D ∧
       length (boxes D) = length (nodes sample) ∧
       length (shown_links D) = length (links sample) ∧
       ∀ dl, dl ∈ shown_links D →
         (Num None ∉ dl_d dl) ∧ is_Some (dl_text_y dl)).
Proof.
  apply (X10_display_outcome 6 (λ _, TextBox 40 12) sample). simpl. lia.
Defined.

Lemma layout_Done_inv fuel g out st :
  layout fuel g = Done (out, st) →
  inv (length (nodes g)) (length (nodes g)) 0 out st ∧
  unlevel <$> out = resolve (index_nodes 0 (nodes g) (∅, ∅)).1 <$> links g.
Proof.
  intros Hl.
  destruct (layout_inv (fuel `max` length (links g)) g)
    as (out' & st' & Hl' & Hinv & Hun); [lia|].
  rewrite (layout_fuel_mono fuel _ g _ (Nat.le_max_l _ _) Hl) in Hl'; [|done].
  by injection Hl' as <- <-.
Qed.

Lemma path_specs_Done_inv G ls : ∀ ps,
  path_specs G ls = Done ps →
  Forall2 (λ d p, getPathSpec d G = Done p) ls ps.
Proof.
  induction ls as [|d ls IH]; simpl; intros ps.
  - intros [= <-]. constructor.
  - intros (p & Hp & (ps' & Hps' & [= <-])%bind_Done)%bind_Done.
    constructor; [done|]. by apply IH.
Qed.

Lemma dmrsDisplay_Done fuel getBBox g D :
  dmrsDisplay fuel getBBox g = Done D →
  ∃ out st ps,
    let ns := (set_x getBBox 0 10 (nodes g)).1 in
    let G := Graph (nodes g) out (maxTopLevel st) (maxBottomLevel st) false in
    layout fuel g = Done (out, st) ∧
    Forall2 (λ d p, getPathSpec d (Graph (ns.*1) out (maxTopLevel st)
                                     (maxBottomLevel st) false) = Done p)
      out ps ∧
    D = Display (svg_height G) (baseline G) (svg_width ns) ns (nodeBox <$> ns)
          (zip_with draw out ps).
Proof.
  unfold dmrsDisplay, prepareGraph.
  destruct (layout fuel g) as [[out st]| |]; simpl; [|done..].
  intros (ps & Hps & [= <-])%bind_Done. exists out, st, ps.
  split_and!; [done| |done]. by apply path_specs_Done_inv.
Qed.

(** * The row of node boxes *)

Lemma Qinv_2 : (/ 2)%Q = (1 # 2)%Q.
Proof. done. Qed.

(** [lra] with the halves written as products. *)
Ltac qlra := unfold Qdiv in *; rewrite ?Qinv_2 in *; lra.

Lemma svg_width_shift ns : ∀ acc,
  (foldl (λ acc (d : node * text_box), acc + (bb_width d.2 + node_dx)) acc ns
   == acc + svg_width ns)%Q.
Proof.
  unfold svg_width. induction ns as [|d ns IH]; intros acc; simpl.
  - qlra.
  - rewrite (IH (acc + _)%Q), (IH (0 + _)%Q). qlra.
Qed.

Lemma set_x_row getBBox ns : ∀ i x_pos out x_end,
  set_x getBBox i x_pos ns = (out, x_end) →
  (x_end == x_pos + svg_width out)%Q ∧
  (∀ d, out !! 0%nat = Some d → (r_x (nodeBox d) == x_pos - 2)%Q) ∧
  (∀ j d, out !! j = Some d →
     d.2 = getBBox (i + j)%nat ∧ bbox_height d.1 = bb_height d.2 ∧
     (x d.1 == r_x (nodeBox d) + r_width (nodeBox d) / 2)%Q) ∧
  (∀ j d d', out !! j = Some d → out !! S j = Some d' →
     (r_x (nodeBox d') == r_x (nodeBox d) + r_width (nodeBox d) + 16)%Q) ∧
  ((∀ k, (0 <= bb_width (getBBox k))%Q) →
   (x_pos <= x_end)%Q ∧
   ∀ j d, out !! j = Some d →
     (x_pos - 2 <= r_x (nodeBox d))%Q ∧
     (r_x (nodeBox d) + r_width (nodeBox d) <= x_end - 18)%Q).
Proof.
  induction ns as [|nd ns IH]; intros i x_pos out x_end; simpl.
  { intros [= <- <-]. unfold svg_width. simpl.
    split_and!; try done; [qlra|]. intros _. split; [qlra|done]. }
  set (w := bb_width (getBBox i)).
  set (x_pos' := (x_pos + w / 2 + w / 2 + node_dx)%Q).
  destruct (set_x getBBox (S i) x_pos' ns) as [out' x_end'] eqn:Hrec.
  intros [= <- <-].
  destruct (IH _ _ _ _ Hrec) as (Hend & Hhead & Hat & Hnext & Hin).
  assert (r_x (nodeBox (Node (id nd) (x_pos + w / 2) (bb_height (getBBox i)),
                        getBBox i)) == x_pos - 2)%Q as Hx.
  { simpl. fold w. qlra. }
  assert (r_width (nodeBox (Node (id nd) (x_pos + w / 2)
                              (bb_height (getBBox i)), getBBox i)) == w + 4)%Q
    as Hw.
  { simpl. fold w. qlra. }
  split_and!.
  - unfold svg_width. simpl. rewrite svg_width_shift. fold w.
    rewrite Hend. unfold x_pos', node_dx. qlra.
  - by intros d [= <-].
  - intros [|j] d; simpl.
    + intros [= <-]. simpl. fold w. split_and!; [by rewrite Nat.add_0_r|done|].
      qlra.
    + intros Hj. rewrite Nat.add_succ_r. by apply Hat.
  - intros [|j] d d'; simpl.
    + intros [= <-] Hd'. rewrite (Hhead d' Hd'), Hx, Hw.
      unfold x_pos', node_dx. qlra.
    + apply Hnext.
  - intros Hpos. destruct (Hin Hpos) as [Hle Hbox].
    pose proof (Hpos i) as Hwi. fold w in Hwi.
    assert (x_pos + w + 20 <= x_end')%Q as Hle'.
    { unfold x_pos', node_dx in Hle. qlra. }
    split; [qlra|]. intros [|j] d; simpl.
    + intros [= <-]. rewrite Hx, Hw. qlra.
    + intros Hj. destruct (Hbox j d Hj) as [H1 H2].
      simpl in H1, H2. unfold x_pos', node_dx in H1. qlra.
Qed.



(** * The drawing fits its height *)

Lemma fit_top (T B : Z) (y1 y : Q) :
  B ≤ 0 ≤ T → (0 <= y1 <= 25)%Q →
  (y == y1 + inject_Z (T + 1) * 25 ∨ y == y1)%Q →
  (0 <= inject_Z (T + 2) * 25 + inject_Z (1 * -1) * y
     <= inject_Z (T - B + 3) * 25)%Q.
Proof.
  intros [HB HT] Hy1 Hy.
  rewrite Zle_Qle in HB, HT.
  assert (inject_Z (T + 1) == inject_Z T + 1)%Q as E1
    by (by rewrite inject_Z_plus).
  assert (inject_Z (T + 2) == inject_Z T + 2)%Q as E2
    by (by rewrite inject_Z_plus).
  assert (inject_Z (T - B + 3) == inject_Z T - inject_Z B + 3)%Q as E3.
  { unfold Z.sub. by rewrite !inject_Z_plus, inject_Z_opp. }
  change (inject_Z (1 * -1)) with (-1 # 1)%Q. change (inject_Z 0) with 0%Q in *.
  rewrite E2, E3. destruct Hy as [-> | ->]; [rewrite E1|]; lra.
Qed.

Lemma fit_link (T B l dir : Z) (y1 y : Q) :
  B ≤ 0 ≤ T → (dir = 1 ∧ 1 ≤ l ≤ T) ∨ (dir = -1 ∧ B ≤ l ≤ -1) →
  (0 <= y1 <= 25)%Q →
  (y == y1 - 5 ∨ y == y1 + (inject_Z (Z.abs l) * 25 - 5) - 15 ∨
   y == y1 + (inject_Z (Z.abs l) * 25 - 5) ∨ y == y1)%Q →
  (0 <= inject_Z (T + 2) * 25 + inject_Z (dir * -1) * y
     <= inject_Z (T - B + 3) * 25)%Q.
Proof.
  intros [HB HT] Hl Hy1 Hy.
  assert (1 ≤ Z.abs l) as Hl1 by lia.
  rewrite Zle_Qle in HB, HT, Hl1.
  assert (inject_Z (T + 2) == inject_Z T + 2)%Q as E2
    by (by rewrite inject_Z_plus).
  assert (inject_Z (T - B + 3) == inject_Z T - inject_Z B + 3)%Q as E3.
  { unfold Z.sub. by rewrite !inject_Z_plus, inject_Z_opp. }
  change (inject_Z 0) with 0%Q in *. change (inject_Z 1) with 1%Q in *.
  rewrite E2, E3.
  destruct Hl as [[-> Hl]|[-> Hl]].
  - assert (Z.abs l ≤ T) as Hle by lia. rewrite Zle_Qle in Hle.
    change (inject_Z (1 * -1)) with (-1 # 1)%Q.
    destruct Hy as [-> | [-> | [-> | ->]]]; lra.
  - assert (Z.abs l ≤ - B) as Hle by lia. rewrite Zle_Qle in Hle.
    rewrite inject_Z_opp in Hle.
    change (inject_Z (-1 * -1)) with 1%Q.
    destruct Hy as [-> | [-> | [-> | ->]]]; lra.
Qed.

(** X12. When the text of every node is at most [level_dy] high, the drawing
    fits its height: every point of every path, turned over by the
    [scale(1, ...)] of the path and shifted by the [translate] of the group,
    lies between 0 and the [height] of the drawing. *)
Theorem X12_links_fit fuel getBBox g D :
  (∀ k, (0 <= bb_height (getBBox k) <= level_dy)%Q) →
  dmrsDisplay fuel getBBox g = Done D →
  ∀ dl a b, dl ∈ shown_links D → (a, b) ∈ path_points (dl_d dl) →
    ∃ y, b = Num (Some y) ∧
      (0 <= group_dy D + inject_Z (dl_scale dl) * y <= svg_h D)%Q.
Proof.
  intros Hh (out & st & ps & Hl & Hps & ->)%dmrsDisplay_Done dl a b. simpl.
  intros (j & Hdl)%list_elem_of_lookup.
  apply lookup_zip_with_Some in Hdl as (d & p & -> & Hj & Hpj).
  pose proof (Forall2_lookup_lr _ _ _ _ _ _ Hps Hj Hpj) as Hp.
  simpl in Hp. simpl.
  destruct (layout_Done_inv _ _ _ _ Hl) as [Hinv _].
  pose proof (inv_wf _ _ _ _ _ Hinv j d Hj) as Hwf.
  pose proof (inv_sign _ _ _ _ _ Hinv) as Hsign.
  destruct (set_x getBBox 0 10 (nodes g)) as [ns x_end] eqn:Hset.
  destruct (set_x_row _ _ _ _ _ _ Hset) as (_ & _ & Hat & _). simpl in Hp.
  assert (∀ i tn, ns.*1 !! i = Some tn → (0 <= bbox_height tn <= 25)%Q)
    as Hnode.
  { intros i tn (nd & -> & Hnd)%list_lookup_fmap_Some.
    destruct (Hat i nd Hnd) as (-> & -> & _). apply Hh. }
  unfold svg_height, baseline, level_dy. simpl.
  unfold getPathSpec in Hp.
  destruct (node_at _ (target d)) as [tn|] eqn:Htn; [|done].
  assert (0 <= bbox_height tn <= 25)%Q as Hy1.
  { unfold node_at in Htn. destruct (target d) as [t|]; [|done]. simpl in Htn.
    by eapply Hnode. }
  destruct (start (parsed d) =? 0) eqn:Htop.
  { injection Hp as <-. simpl.
    rewrite (wf_top_dir _ _ Hwf Htop). unfold top_extent. simpl.
    rewrite (wf_top_dir _ _ Hwf Htop). simpl.
    rewrite !elem_of_cons, elem_of_nil. unfold num.
    intros [[= -> ->]|[[= -> ->]|[]]]; (eexists; split; [done|]);
      apply (fit_top _ _ (bbox_height tn)); unfold level_dy; auto;
      (by left) || by right. }
  destruct (node_at _ (source d)) as [sn|] eqn:Hsn; [|done].
  destruct (inv_final_levelled _ _ _ j d Hinv Hj Htop) as [l Hlev].
  { unfold node_at in Hsn. by destruct (source d). }
  { unfold node_at in Htn. by destruct (target d). }
  rewrite Hlev in Hp. simpl in Hp.
  pose proof (inv_range _ _ _ _ _ Hinv j d l Hj Hlev) as [Hup Hdown].
  assert ((dir d = 1 ∧ 1 ≤ l ≤ maxTopLevel st) ∨
          (dir d = -1 ∧ maxBottomLevel st ≤ l ≤ -1)) as Hdir.
  { destruct (wf_dir _ _ Hwf); [left|right]; auto. }
  unfold level_dy, edge_radius, num in Hp.
  destruct (Qlt_le_dec _ _); injection Hp as <-; simpl;
    rewrite !elem_of_cons, elem_of_nil;
    intros Hpt; repeat (destruct Hpt as [[= -> ->]|Hpt]); try done;
    (eexists; split; [done|]);
    apply (fit_link _ _ l _ (bbox_height tn)); auto;
    (by left) || (by right; left) || (by right; right; left) ||
    (by right; right; right).
Qed.

Lemma X12_links_fit_witness :
  ∃ D, dmrsDisplay 3 (λ _, TextBox 40 12) fan = Done D ∧
    ∀ dl a b, dl ∈ shown_links D → (a, b) ∈ path_points (dl_d dl) →
      ∃ y, b = Num (Some y) ∧
        (0 <= group_dy D + inject_Z (dl_scale dl) * y <= svg_h D)%Q.
Proof.
  eexists. split; [by vm_compute|].
  apply (X12_links_fit 3 (λ _, TextBox 40 12) fan).
  - intros k. split; by vm_compute.
  - by vm_compute.
Defined.

(** * More about the highlight sets *)

Lemma highlight_sets_spec fuel ls nid :
  (2 * length ls < fuel)%nat →
  ∃ h, highlight_sets fuel ls nid = Done h ∧
    (∀ v, v ∈ labelset h ↔ tc (eq_linked ls) nid v) ∧
    (∀ v, v ∈ outs h ↔
       ∃ d, d ∈ ls ∧ rargname d ≠ "" ∧ start d = nid ∧ end_ d = v) ∧
    (∀ v, v ∈ ins h ↔
       ∃ d, d ∈ ls ∧ rargname d ≠ "" ∧ end_ d = nid ∧ start d = v) ∧
    (∀ v, v ∈ scopes h ↔
       ∃ d, d ∈ ls ∧ start d = nid ∧ (post d = "H" ∨ post d = "HEQ") ∧
            end_ d = v).
Proof.
  intros Hfuel. unfold highlight_sets.
  set (lab0 := collect _ (λ d, {[end_ d]} ∪ {[start d]}) ls).
  destruct (expand_total ls fuel lab0) as (lab & Hrun & Hsub & Hcl & Hleast).
  { pose proof (size_endpoints ls).
    pose proof (subseteq_size (endpoints ls ∖ lab0) (endpoints ls)
                  ltac:(set_solver)). lia. }
  rewrite Hrun. simpl. eexists. split; [done|]. simpl.
  assert (∀ v, v ∈ lab0 ↔
            ∃ d, d ∈ ls ∧ post d = "EQ" ∧ (start d = nid ∨ end_ d = nid) ∧
                 (v = end_ d ∨ v = start d)) as Hlab0.
  { intros v. unfold lab0. rewrite elem_of_collect.
    apply exist_proper. intros d.
    rewrite andb_true_iff, orb_true_iff, String.eqb_eq, !Z.eqb_eq.
    rewrite elem_of_union, !elem_of_singleton. naive_solver. }
  split_and!.
  - intros v. split.
    + apply Hleast.
      * intros w (d & Hd & Hpost & Hnid & Hw)%Hlab0.
        assert (eq_linked ls (start d) (end_ d)) as Hlink
          by (exists d; auto).
        pose proof (eq_linked_sym _ _ _ Hlink) as Hlink'.
        destruct Hnid as [<-|<-], Hw as [->| ->].
        -- by apply tc_once.
        -- by eapply tc_l, tc_once.
        -- by eapply tc_l, tc_once.
        -- by apply tc_once.
      * intros d Hd Hpost.
        assert (eq_linked ls (start d) (end_ d)) as Hlink
          by (exists d; auto).
        pose proof (eq_linked_sym _ _ _ Hlink) as Hlink'.
        split; intros Htc; by eapply tc_r.
    + assert (∀ w, eq_linked ls nid w → w ∈ lab) as Hfirst.
      { intros w (d & Hd & Hpost & Hends). apply Hsub, Hlab0.
        exists d. naive_solver. }
      intros Htc. inversion Htc as [? ? Hstep|? w ? Hstep Hrest]; subst.
      * by apply Hfirst.
      * eapply closed_tc; [done..|]. by apply Hfirst.
  - intros v. rewrite elem_of_collect. apply exist_proper. intros d.
    unfold truthy.
    rewrite andb_true_iff, negb_true_iff, String.eqb_neq, Z.eqb_eq.
    rewrite elem_of_singleton. naive_solver.
  - intros v. rewrite elem_of_collect. apply exist_proper. intros d.
    unfold truthy.
    rewrite andb_true_iff, negb_true_iff, String.eqb_neq, Z.eqb_eq.
    rewrite elem_of_singleton. naive_solver.
  - intros v. rewrite elem_of_collect. apply exist_proper. intros d.
    rewrite andb_true_iff, orb_true_iff, !String.eqb_eq, Z.eqb_eq.
    rewrite elem_of_singleton. naive_solver.
Qed.

Lemma eq_linked_perm ls ls' a b :
  ls ≡ₚ ls' → eq_linked ls a b → eq_linked ls' a b.
Proof. intros Hp (d & Hd & ?). exists d. by rewrite <-Hp. Qed.

Lemma tc_eq_linked_perm ls ls' a b :
  ls ≡ₚ ls' → tc (eq_linked ls) a b → tc (eq_linked ls') a b.
Proof.
  intros Hp. induction 1 as [a b H|a b c H _ IH].
  - apply tc_once. by eapply eq_linked_perm.
  - eapply tc_l; [|done]. by eapply eq_linked_perm.
Qed.

Lemma tc_eq_linked_sym ls a b :
  tc (eq_linked ls) a b → tc (eq_linked ls) b a.
Proof.
  induction 1 as [a b H|a b c H _ IH].
  - by apply tc_once, eq_linked_sym.
  - eapply tc_r; [done|]. by apply eq_linked_sym.
Qed.

Lemma highlights_eq (h h' : highlights) :
  outs h = outs h' → ins h = ins h' → labelset h = labelset h' →
  scopes h = scopes h' → h = h'.
Proof. destruct h, h'. simpl. by intros -> -> -> ->. Qed.

(** X13. The four highlight sets of a node do not depend on the order of
    the links, although the number of passes of the label loop does. *)
Theorem X13_highlights_order fuel ls ls' nid :
  ls ≡ₚ ls' → (2 * length ls < fuel)%nat →
  ∃ h, highlight_sets fuel ls nid = Done h ∧
       highlight_sets fuel ls' nid = Done h.
Proof.
  intros Hp Hfuel.
  destruct (highlight_sets_spec fuel ls nid Hfuel)
    as (h & Hh & Hlab & Houts & Hins & Hscopes).
  destruct (highlight_sets_spec fuel ls' nid)
    as (h' & Hh' & Hlab' & Houts' & Hins' & Hscopes').
  { by rewrite <-Hp. }
  exists h. split; [done|]. rewrite Hh'. f_equal.
  apply highlights_eq; apply set_eq; intros v.
  - rewrite Houts, Houts'. by setoid_rewrite Hp.
  - rewrite Hins, Hins'. by setoid_rewrite Hp.
  - rewrite Hlab, Hlab'. split; by apply tc_eq_linked_perm.
  - rewrite Hscopes, Hscopes'. by setoid_rewrite Hp.
Qed.

Lemma X13_highlights_order_witness :
  ∃ h, highlight_sets 5 scenario_links 1 = Done h ∧
       highlight_sets 5 (reverse scenario_links) 1 = Done h.
Proof.
  apply (X13_highlights_order 5 scenario_links (reverse scenario_links) 1).
  - symmetry. apply reverse_Permutation.
  - simpl. lia.
Defined.

(** X14. The sets of two nodes agree with each other: [v] is in the outbound
    set of [nid] exactly when [nid] is in the inbound set of [v], and every
    node in the label set of [nid] has the same label set as [nid]. *)
Theorem X14_highlights_agree fuel ls nid :
  (2 * length ls < fuel)%nat →
  ∃ h, highlight_sets fuel ls nid = Done h ∧
    ∀ v, ∃ h', highlight_sets fuel ls v = Done h' ∧
      (v ∈ outs h ↔ nid ∈ ins h') ∧
      (v ∈ ins h ↔ nid ∈ outs h') ∧
      (v ∈ labelset h ↔ nid ∈ labelset h') ∧
      (v ∈ labelset h → labelset h' = labelset h).
Proof.
  intros Hfuel.
  destruct (highlight_sets_spec fuel ls nid Hfuel)
    as (h & Hh & Hlab & Houts & Hins & _).
  exists h. split; [done|]. intros v.
  destruct (highlight_sets_spec fuel ls v Hfuel)
    as (h' & Hh' & Hlab' & Houts' & Hins' & _).
  exists h'. split; [done|]. split_and!.
  - rewrite Houts, Hins'. naive_solver.
  - rewrite Hins, Houts'. naive_solver.
  - rewrite Hlab, Hlab'. split; apply tc_eq_linked_sym.
  - rewrite Hlab. intros Htc. apply set_eq. intros w. rewrite Hlab, Hlab'.
    split; intros Hw.
    + by etrans.
    + etrans; [|done]. by apply tc_eq_linked_sym.
Qed.

Lemma X14_highlights_agree_witness :
  ∃ h, highlight_sets 5 scenario_links 1 = Done h ∧
    ∀ v, ∃ h', highlight_sets 5 scenario_links v = Done h' ∧
      (v ∈ outs h ↔ 1 ∈ ins h') ∧
      (v ∈ ins h ↔ 1 ∈ outs h') ∧
      (v ∈ labelset h ↔ 1 ∈ labelset h') ∧
      (v ∈ labelset h → labelset h' = labelset h).
Proof. apply (X14_highlights_agree 5 scenario_links 1). simpl. lia. Defined.

(** * The selection *)

Lemma clear_selected_fresh ns :
  (∀ i d, ns !! i = Some d → n_sticky d = false) →
  (λ d', if n_selected d' then NodeUI false false else d') <$> ns
  = replicate (length ns) (NodeUI false false).
Proof.
  induction ns as [|d ns IH]; intros Hns; [done|].
  rewrite fmap_cons. cbn [length replicate].
  rewrite IH by (intros i d'; apply (Hns (S i))). f_equal.
  pose proof (Hns 0%nat d eq_refl). destruct d as [[] []]; naive_solver.
Qed.

Lemma clear_selected_one n k :
  (λ d', if n_selected d' then NodeUI false false else d')
    <$> <[k := NodeUI true true]> (replicate n (NodeUI false false))
  = replicate n (NodeUI false false).
Proof.
  rewrite list_fmap_insert, fmap_replicate. simpl.
  apply list_eq. intros j.
  destruct (decide (j = k)) as [->|Hne].
  - destruct (decide (k < n)%nat).
    + rewrite list_lookup_insert_eq by (by rewrite length_replicate).
      by rewrite lookup_replicate_2.
    + by rewrite list_insert_ge by (rewrite length_replicate; lia).
  - by rewrite list_lookup_insert_ne.
Qed.

Lemma fresh_insert_lookup n k j d :
  <[k := NodeUI true true]> (replicate n (NodeUI false false)) !! j = Some d →
  (k < n)%nat →
  (j < n)%nat ∧ d = if decide (j = k) then NodeUI true true
                    else NodeUI false false.
Proof.
  intros Hj Hk. destruct (decide (j = k)) as [->|Hne].
  - rewrite list_lookup_insert_eq in Hj by (by rewrite length_replicate).
    by injection Hj as <-.
  - rewrite list_lookup_insert_ne in Hj by done.
    by apply lookup_replicate in Hj as [-> ?].
Qed.

Lemma sel_inv_fresh n : sel_inv n (fresh_ui n).
Proof.
  split; simpl; [by rewrite length_replicate|].
  by intros i d [-> _]%lookup_replicate.
Qed.

Lemma sel_inv_handle n e st : sel_inv n st → sel_inv n (handle e st).
Proof.
  destruct st as [ns gs]. intros [Hlen Hst]. unfold handle. simpl in *.
  destruct (ns !! event_node e) as [d|] eqn:Hd; [|done].
  pose proof (lookup_lt_Some _ _ _ Hd) as Hlt.
  destruct e as [i|i|i]; simpl in *.
  - destruct gs; [done|]. split; simpl; [by rewrite length_insert|].
    intros j d' [(-> & <- & _)|[_ Hj]]%list_lookup_insert_Some; simpl; eauto.
  - destruct (n_sticky d) eqn:Hs; [done|].
    split; simpl; [by rewrite length_insert|]. destruct gs.
    + destruct Hst as (k & Hk & ->). exists k. split; [done|].
      destruct (fresh_insert_lookup _ _ _ _ Hd Hk) as [_ ->].
      case_decide; [done|]. simpl.
      rewrite list_insert_id; [done|].
      rewrite list_lookup_insert_ne by done.
      apply lookup_replicate_2. lia.
    + intros j d' [(-> & <- & _)|[_ Hj]]%list_lookup_insert_Some; simpl; eauto.
  - unfold toggleSticky. destruct (n_sticky d) eqn:Hs.
    + split; simpl; [by rewrite length_insert|]. destruct gs.
      * destruct Hst as (k & Hk & ->).
        destruct (fresh_insert_lookup _ _ _ _ Hd Hk) as [_ ->].
        case_decide as Hik; [subst i|done].
        rewrite list_insert_insert_eq.
        intros j d'. rewrite insert_replicate.
        by intros [-> _]%lookup_replicate.
      * by rewrite (Hst i d Hd) in Hs.
    + split; simpl; [by rewrite length_insert, length_fmap|].
      exists i. split; [lia|]. f_equal. destruct gs.
      * destruct Hst as (k & Hk & ->). apply clear_selected_one.
      * rewrite clear_selected_fresh by done. by rewrite Hlen.
Qed.

Lemma sel_inv_run n evs : sel_inv n (run_events n evs).
Proof.
  unfold run_events. induction evs as [|e evs IH] using rev_ind.
  - apply sel_inv_fresh.
  - rewrite foldl_app. simpl. by apply sel_inv_handle.
Qed.

(** X15. Whatever events have occurred on the nodes of a drawing: a sticky
    node is selected, at most one node is sticky, [graph.sticky] is set
    exactly when some node is sticky, and then no other node is selected. *)
Theorem X15_one_sticky_node n evs :
  let st := run_events n evs in
  length (ui_nodes st) = n ∧
  (∀ i d, ui_nodes st !! i = Some d → n_sticky d = true →
     n_selected d = true) ∧
  (∀ i j d d', ui_nodes st !! i = Some d → ui_nodes st !! j = Some d' →
     n_sticky d = true → n_sticky d' = true → i = j) ∧
  (ui_sticky st = true ↔
     ∃ i d, ui_nodes st !! i = Some d ∧ n_sticky d = true) ∧
  (ui_sticky st = true →
     ∀ i d, ui_nodes st !! i = Some d → n_selected d = true →
       n_sticky d = true).
Proof.
  intros st. destruct (sel_inv_run n evs) as [Hlen Hst]. fold st in Hlen, Hst.
  split; [done|]. destruct (ui_sticky st).
  - destruct Hst as (k & Hk & Hns). rewrite Hns.
    assert (∀ i d,
      <[k := NodeUI true true]> (replicate n (NodeUI false false)) !! i
        = Some d →
      d = if decide (i = k) then NodeUI true true else NodeUI false false)
      as Hat.
    { intros i d Hd. by destruct (fresh_insert_lookup _ _ _ _ Hd Hk). }
    split_and!.
    + intros i d ->%Hat. by case_decide.
    + intros i j d d' ->%Hat ->%Hat. by repeat case_decide; simplify_eq.
    + split; [|done]. intros _. exists k, (NodeUI true true). split; [|done].
      apply list_lookup_insert_eq. by rewrite length_replicate.
    + intros _ i d ->%Hat. by case_decide.
  - split_and!.
    + intros i d Hd. by rewrite (Hst i d Hd).
    + intros i j d d' Hd _. by rewrite (Hst i d Hd).
    + split; [done|]. intros (i & d & Hd & Hs). by rewrite (Hst i d Hd) in Hs.
    + done.
Qed.

(** X16. While a node is sticky, moving the pointer over or off any node
    changes nothing.  A click on a node leaves no other node selected or
    sticky: a click on the sticky node clears it (although the pointer is
    still over it), a click on any other node makes that one sticky and
    selected. *)
Theorem X16_click_and_hover n evs i d :
  let st := run_events n evs in
  ui_nodes st !! i = Some d →
  (ui_sticky st = true →
     handle (Mouseover i) st = st ∧ handle (Mouseout i) st = st) ∧
  handle (Click i) st =
    UI (<[i := NodeUI (negb (n_sticky d)) (negb (n_sticky d))]>
          (replicate n (NodeUI false false)))
       (negb (n_sticky d)).
Proof.
  intros st Hd. pose proof (sel_inv_run n evs) as Hinv. fold st in Hinv.
  clearbody st. destruct st as [ns gs]. destruct Hinv as [Hlen Hst].
  simpl in *. unfold handle. simpl. rewrite Hd. split.
  - intros ->. split; [done|].
    destruct (n_sticky d) eqn:Hsd; [done|].
    destruct Hst as (k & Hk & Hns).
    rewrite list_insert_id; [done|].
    rewrite Hd. f_equal. rewrite Hns in Hd.
    destruct (fresh_insert_lookup _ _ _ _ Hd Hk) as [_ ->].
    by case_decide.
  - unfold toggleSticky. destruct (n_sticky d) eqn:Hsd; simpl; f_equal.
    + destruct gs.
      * destruct Hst as (k & Hk & Hns). rewrite Hns in Hd |- *.
        destruct (fresh_insert_lookup _ _ _ _ Hd Hk) as [_ ->].
        case_decide as Hik; [subst i|done].
        by rewrite list_insert_insert_eq.
      * by rewrite (Hst i d Hd) in Hsd.
    + f_equal. destruct gs.
      * destruct Hst as (k & Hk & ->). apply clear_selected_one.
      * rewrite clear_selected_fresh by done. by rewrite Hlen.
Qed.

Lemma X16_click_and_hover_witness :
  let st := run_events 3 [Mouseover 1%nat; Click 1%nat; Mouseout 1%nat] in
  ui_nodes st !! 1%nat = Some (NodeUI true true) ∧
  (ui_sticky st = true →
     handle (Mouseover 1) st = st ∧ handle (Mouseout 1) st = st) ∧
  handle (Click 1) st =
    UI (<[1%nat := NodeUI (negb true) (negb true)]>
          (replicate 3 (NodeUI false false)))
       (negb true).
Proof.
  split; [reflexivity|].
  apply (X16_click_and_hover 3 [Mouseover 1%nat; Click 1%nat; Mouseout 1%nat]
           1 (NodeUI true true)).
  reflexivity.
Defined.

(** * Arcs over arcs *)

Lemma place_below n fuel dist k L st d d' st' :
  inv n dist k L st → inv_below L st → L !! k = Some d →
  place fuel dist d st = Done (d', st') → inv_below (<[k := d']> L) st'.
Proof.
  intros Hinv Hbel Hk. rewrite place_due. destruct (due dist d) eqn:Hdue.
  2: { intros [= <- <-]. by rewrite list_insert_id. }
  apply Is_true_true, due_distance in Hdue as [Htop Hdist].
  intros ([l idx] & Hs & [= <- <-])%bind_Done.
  rewrite nextAvailableLevel_search in Hs. fold (span d) in Hs.
  pose proof (inv_wf _ _ _ _ _ Hinv k d Hk) as Hwf.
  assert (search fuel (levelIdx st) (span d) (dir d) (dir d * 1)
          = Done (l, idx)) as Hs' by (by rewrite Z.mul_1_r).
  apply search_done in Hs' as (c0 & -> & Hc0 & _ & _ & Hbelow & _);
    [|by destruct Hwf|lia].
  assert (level d = None) as Hnone.
  { destruct (level d) as [l|] eqn:Hl; [|done].
    destruct (inv_fresh _ _ _ _ _ Hinv k d l Hk Hl) as [_ (dd & Hdd & ?)].
    rewrite Hdist in Hdd. injection Hdd as <-. lia. }
  assert (∀ j3 d3 l3, L !! j3 = Some d3 → level d3 = Some l3 →
            <[k := set_level d (dir d * c0)]> L !! j3 = Some d3) as Hold.
  { intros j3 d3 l3 Hj3 Hl3. rewrite list_lookup_insert_ne; [done|].
    intros ->. congruence. }
  intros j d1 l1 c [(-> & <- & _)|[Hne Hj]]%list_lookup_insert_Some Hl1 Hc.
  - simpl in Hl1. injection Hl1 as <-. simpl.
    assert (Z.abs (dir d * c0) = c0) as Habs
      by (destruct (wf_dir _ _ Hwf) as [-> | ->]; lia).
    destruct (Hbelow c) as (i & lv & Hi & Hlv & Hin); [lia|].
    destruct (inv_owner _ _ _ _ _ Hinv i lv _ Hlv Hin)
      as (j3 & d3 & Hj3 & Hl3 & Hi3).
    destruct (inv_fresh _ _ _ _ _ Hinv j3 d3 _ Hj3 Hl3)
      as [_ (dd & Hdd & Hdone)].
    exists j3, d3, i. split_and!; [by eapply Hold|done| |done..].
    exists dd, dist. by split_and!.
  - destruct (Hbel j d1 l1 c Hj Hl1 Hc)
      as (j3 & d3 & i & Hj3 & Hl3 & Hbefore & Hi3 & Hi1).
    exists j3, d3, i. split_and!; [by eapply Hold|done..].
Qed.

Lemma layout_below fuel g :
  (length (links g) ≤ fuel)%nat →
  ∃ out st, layout fuel g = Done (out, st) ∧
    inv (length (nodes g)) (length (nodes g)) 0 out st ∧ inv_below out st.
Proof.
  apply (layout_kept inv_below).
  - intros n fuel' dist k L st d d' st'. apply place_below.
  - intros L st Hnone _ j d l c Hj. by rewrite (Hnone j d Hj).
Qed.

Lemma placed_before_irrefl j d : ¬ placed_before j d j d.
Proof. intros (x & y & Hx & Hy & H). rewrite Hx in Hy. injection Hy as <-. lia. Qed.

Lemma placed_before_asym j1 d1 j2 d2 :
  placed_before j1 d1 j2 d2 → ¬ placed_before j2 d2 j1 d1.
Proof.
  intros (x & y & Hx & Hy & H) (y' & x' & Hy' & Hx' & H').
  rewrite Hx in Hx'. rewrite Hy in Hy'. injection Hx' as <-.
  injection Hy' as <-. lia.
Qed.

(** X8. Arcs on the same side of the line that are nested do not cross: if
    the arc of a link lies over every gap that the arc of a link placed
    before it crosses (a shorter one, or one of the same span that comes
    earlier in the list), it is drawn strictly further out. *)
Theorem X8_nested_arcs fuel g :
  (length (links g) ≤ fuel)%nat →
  ∃ g', prepareGraph fuel g = Done g' ∧
    ∀ j1 j2 d1 d2 l1 l2,
      g_links g' !! j1 = Some d1 → g_links g' !! j2 = Some d2 →
      level d1 = Some l1 → level d2 = Some l2 → dir d1 = dir d2 →
      placed_before j1 d1 j2 d2 →
      (∃ i, covers d1 i) → (∀ i, covers d1 i → covers d2 i) →
      Z.abs l1 < Z.abs l2.
Proof.
  intros Hfuel.
  destruct (layout_below fuel g Hfuel) as (out & st & Hl & Hinv & Hbel).
  eexists. split; [by apply prepareGraph_layout|]. simpl.
  intros j1 j2 d1 d2 l1 l2 Hj1 Hj2 Hl1 Hl2 Hdir Hbefore [i0 Hi0] Hsub.
  pose proof (inv_wf _ _ _ _ _ Hinv j1 d1 Hj1) as Hwf1.
  pose proof (inv_range _ _ _ _ _ Hinv j1 d1 l1 Hj1 Hl1) as [Hr1 Hr1'].
  pose proof (inv_range _ _ _ _ _ Hinv j2 d2 l2 Hj2 Hl2) as [Hr2 Hr2'].
  assert (j1 ≠ j2) as Hne.
  { intros ->. assert (d1 = d2) as -> by congruence.
    by eapply placed_before_irrefl. }
  destruct (Z.lt_ge_cases (Z.abs l1) (Z.abs l2)) as [?|Hge]; [done|exfalso].
  assert (l2 = dir d1 * Z.abs l2) as Hl2abs.
  { rewrite <-Hdir in Hr2, Hr2'. destruct (wf_dir _ _ Hwf1) as [Hd|Hd];
      rewrite Hd in *; lia. }
  destruct (decide (Z.abs l2 = Z.abs l1)) as [Heq|Hlt].
  - assert (l1 = l2) as ->.
    { rewrite <-Hdir in Hr2, Hr2'. destruct (wf_dir _ _ Hwf1) as [Hd|Hd];
        rewrite Hd in *; lia. }
    eapply (inv_apart _ _ _ _ _ Hinv j1 j2 d1 d2 l2 i0); try done.
    + by apply elem_of_span.
    + by apply elem_of_span, Hsub.
  - destruct (Hbel j1 d1 l1 (Z.abs l2) Hj1 Hl1)
      as (j3 & d3 & i & Hj3 & Hl3 & Hb3 & Hi3 & Hi1).
    { rewrite <-Hdir in Hr2, Hr2'. destruct (wf_dir _ _ Hwf1) as [Hd|Hd];
        rewrite Hd in *; lia. }
    rewrite <-Hl2abs in Hl3.
    assert (j3 ≠ j2) as Hne3.
    { intros ->. assert (d3 = d2) as -> by congruence.
      by eapply placed_before_asym. }
    eapply (inv_apart _ _ _ _ _ Hinv j3 j2 d3 d2 l2 i); try done.
    by apply elem_of_span, Hsub, elem_of_span.
Qed.

Lemma X8_nested_arcs_witness :
  ∃ g', prepareGraph 3 fan = Done g' ∧
    ∀ j1 j2 d1 d2 l1 l2,
      g_links g' !! j1 = Some d1 → g_links g' !! j2 = Some d2 →
      level d1 = Some l1 → level d2 = Some l2 → dir d1 = dir d2 →
      placed_before j1 d1 j2 d2 →
      (∃ i, covers d1 i) → (∀ i, covers d1 i → covers d2 i) →
      Z.abs l1 < Z.abs l2.
Proof. apply (X8_nested_arcs 3 fan). simpl. lia. Defined.

(** * Class, side and arrowhead of a path *)

Lemma out_dir nodeIdx (out : list link) (ls : list d3_link) j d :
  unlevel <$> out = resolve nodeIdx <$> ls → out !! j = Some d →
  dir d = dir (resolve nodeIdx (parsed d)).
Proof.
  intros Hun Hj.
  assert ((unlevel <$> out) !! j = Some (unlevel d)) as Hu
    by (by rewrite list_lookup_fmap, Hj).
  rewrite Hun in Hu. apply list_lookup_fmap_Some in Hu as (d0 & Hd & Hd0).
  assert (parsed d = d0) as Hp.
  { change (parsed (unlevel d) = d0). rewrite Hd. apply resolve_parsed. }
  rewrite Hp. change (dir d) with (dir (unlevel d)). by rewrite Hd.
Qed.

(** X17. How a link is drawn follows from its fields: the class is
    [topedge] exactly for the links from 0, and those are on the upper side;
    an [eqedge] path is on the lower side and has no arrowhead; the
    arrowhead is left out exactly when the role is empty and the post is EQ,
    whatever the class; a link not from 0 is on the lower side exactly when
    its role is empty or its post is H in either case. *)
Theorem X17_link_styles fuel getBBox g D :
  dmrsDisplay fuel getBBox g = Done D →
  length (shown_links D) = length (links g) ∧
  ∀ j dl d0, shown_links D !! j = Some dl → links g !! j = Some d0 →
    dl_text dl = rargname d0 +:+ "/" +:+ post d0 ∧
    (dl_class dl = topedge ↔ start d0 = 0) ∧
    (dl_class dl = topedge → dl_scale dl = -1) ∧
    (dl_class dl = eqedge → dl_scale dl = 1 ∧ dl_arrowhead dl = false) ∧
    (dl_arrowhead dl = false ↔ rargname d0 = "" ∧ post d0 = "EQ") ∧
    (start d0 ≠ 0 →
       (dl_scale dl = 1 ↔ rargname d0 = "" ∨ toUpperCase (post d0) = "H") ∧
       (dl_scale dl = -1 ↔
          ¬ (rargname d0 = "" ∨ toUpperCase (post d0) = "H"))).
Proof.
  intros (out & st & ps & Hl & Hps & ->)%dmrsDisplay_Done. simpl.
  destruct (layout_Done_inv _ _ _ _ Hl) as [Hinv Hun].
  pose proof (Forall2_length _ _ _ Hps) as Hlen.
  assert (length out = length (links g)) as Hout
    by (by rewrite <-(length_fmap unlevel), Hun, length_fmap).
  split; [rewrite length_zip_with; lia|].
  intros j dl d0 Hdl Hj0.
  apply lookup_zip_with_Some in Hdl as (d & p & -> & Hj & Hpj).
  destruct (out_ends _ _ _ _ _ Hun Hj) as (Hj0' & _).
  assert (parsed d = d0) as Hp by congruence.
  pose proof (inv_wf _ _ _ _ _ Hinv j d Hj) as Hwf.
  pose proof (out_dir _ _ _ _ _ Hun Hj) as Hdir. rewrite Hp in Hdir.
  unfold draw, edge_class_of, undirected_eq. simpl. rewrite Hp.
  assert ((String.eqb (rargname d0) "" && String.eqb (post d0) "EQ") = false
          ↔ ¬ (rargname d0 = "" ∧ post d0 = "EQ")) as Hundir.
  { rewrite <-not_true_iff_false, andb_true_iff, !String.eqb_eq. done. }
  split_and!.
  - done.
  - destruct (Z.eqb_spec (start d0) 0); [done|].
    by destruct (_ && _).
  - destruct (Z.eqb_spec (start d0) 0) as [Hs|Hs].
    + intros _. rewrite (wf_top_dir _ _ Hwf); [done|].
      unfold is_top. rewrite Hp. by apply Z.eqb_eq.
    + by destruct (_ && _).
  - destruct (Z.eqb_spec (start d0) 0) as [Hs|Hs]; [done|].
    destruct (String.eqb (rargname d0) "") eqn:Hr; simpl; [|done].
    destruct (String.eqb (post d0) "EQ") eqn:Hpo; [|done].
    intros _. rewrite Hdir, (resolve_dir _ _ Hs), Hr. done.
  - rewrite negb_false_iff, andb_true_iff, !String.eqb_eq. done.
  - intros Hs. rewrite Hdir, (resolve_dir _ _ Hs).
    destruct (String.eqb (rargname d0) "") eqn:Hr; simpl.
    { apply String.eqb_eq in Hr. split; split; (done || tauto || auto). }
    apply String.eqb_neq in Hr.
    destruct (String.eqb (toUpperCase (post d0)) "H") eqn:Hh.
    { apply String.eqb_eq in Hh. split; split; (done || tauto || auto). }
    apply String.eqb_neq in Hh. split; split; (done || tauto).
Qed.

Lemma X17_link_styles_witness :
  ∃ D, dmrsDisplay 3 (λ _, TextBox 40 12) fan = Done D ∧
  length (shown_links D) = length (links fan) ∧
  ∀ j dl d0, shown_links D !! j = Some dl → links fan !! j = Some d0 →
    dl_text dl = rargname d0 +:+ "/" +:+ post d0 ∧
    (dl_class dl = topedge ↔ start d0 = 0) ∧
    (dl_class dl = topedge → dl_scale dl = -1) ∧
    (dl_class dl = eqedge → dl_scale dl = 1 ∧ dl_arrowhead dl = false) ∧
    (dl_arrowhead dl = false ↔ rargname d0 = "" ∧ post d0 = "EQ") ∧
    (start d0 ≠ 0 →
       (dl_scale dl = 1 ↔ rargname d0 = "" ∨ toUpperCase (post d0) = "H") ∧
       (dl_scale dl = -1 ↔
          ¬ (rargname d0 = "" ∨ toUpperCase (post d0) = "H"))).
Proof.
  eexists. split; [by vm_compute|].
  apply (X17_link_styles 3 (λ _, TextBox 40 12) fan). by vm_compute.
Defined.

(** * Arcs run one way *)




(** * Highlighted links and highlighted nodes *)

(** X19. The classes of links and nodes fit together: a link classed [out]
    ends at a node classed [out] and every node classed [out] is the end of
    such a link; the same for [in] and the start of the link; both ends of a
    link classed [labelset] are nodes classed [labelset]; a node is classed
    [scope] exactly when a link classed [scope] runs from the selected node
    to it (the links of that class that come in mark no node). *)
Theorem X19_classes_fit fuel ls nid :
  (2 * length ls < fuel)%nat →
  ∃ h, highlight_sets fuel ls nid = Done h ∧
    (∀ d, d ∈ ls →
       (f_out (link_flags nid d) = true →
          f_out (node_flags h (end_ d)) = true) ∧
       (f_in (link_flags nid d) = true →
          f_in (node_flags h (start d)) = true) ∧
       (f_labelset (link_flags nid d) = true →
          f_labelset (node_flags h (start d)) = true ∧
          f_labelset (node_flags h (end_ d)) = true)) ∧
    (∀ v,
       (f_out (node_flags h v) = true ↔
          ∃ d, d ∈ ls ∧ f_out (link_flags nid d) = true ∧ end_ d = v) ∧
       (f_in (node_flags h v) = true ↔
          ∃ d, d ∈ ls ∧ f_in (link_flags nid d) = true ∧ start d = v) ∧
       (f_scope (node_flags h v) = true ↔
          ∃ d, d ∈ ls ∧ f_scope (link_flags nid d) = true ∧
               start d = nid ∧ end_ d = v)).
Proof.
  intros Hfuel.
  destruct (highlight_sets_spec fuel ls nid Hfuel)
    as (h & Hh & Hlab & Houts & Hins & Hscopes).
  exists h. split; [done|].
  assert (∀ d, f_out (link_flags nid d) = true ↔
               rargname d ≠ "" ∧ start d = nid) as Hfo.
  { intros d. simpl. unfold truthy.
    rewrite andb_true_iff, negb_true_iff, String.eqb_neq, Z.eqb_eq.
    naive_solver. }
  assert (∀ d, f_in (link_flags nid d) = true ↔
               rargname d ≠ "" ∧ end_ d = nid) as Hfi.
  { intros d. simpl. unfold truthy.
    rewrite andb_true_iff, negb_true_iff, String.eqb_neq, Z.eqb_eq.
    naive_solver. }
  assert (∀ d, start d = nid →
               (f_scope (link_flags nid d) = true ↔
                post d = "H" ∨ post d = "HEQ")) as Hfs.
  { intros d Hd. simpl. apply Z.eqb_eq in Hd. rewrite Hd. simpl.
    destruct (String.eqb (post d) "H" || String.eqb (post d) "HEQ") eqn:Hp.
    - apply orb_true_iff in Hp. rewrite !String.eqb_eq in Hp. done.
    - apply orb_false_iff in Hp. rewrite !String.eqb_neq in Hp.
      rewrite andb_false_r. naive_solver. }
  split.
  - intros d Hd. split_and!.
    + intros [? ?]%Hfo. simpl. rewrite bool_decide_eq_true, Houts. eauto.
    + intros [? ?]%Hfi. simpl. rewrite bool_decide_eq_true, Hins. eauto.
    + simpl. rewrite andb_true_iff, orb_true_iff, String.eqb_eq, !Z.eqb_eq.
      intros [Hpost Hends]. rewrite !bool_decide_eq_true, !Hlab.
      assert (eq_linked ls (start d) (end_ d)) as Hlink by (exists d; auto).
      pose proof (eq_linked_sym _ _ _ Hlink) as Hlink'.
      destruct Hends as [<-|<-]; split;
        (by apply tc_once) || (by eapply tc_l, tc_once).
  - intros v. simpl. rewrite !bool_decide_eq_true. split_and!.
    + rewrite Houts. setoid_rewrite Hfo. naive_solver.
    + rewrite Hins. setoid_rewrite Hfi. naive_solver.
    + rewrite Hscopes. split.
      * intros (d & Hd & Hs & Hp & He). exists d. split_and!; try done.
        by apply (Hfs d Hs).
      * intros (d & Hd & Hf & Hs & He). exists d. split_and!; try done.
        by apply (Hfs d Hs).
Qed.

Lemma X19_classes_fit_witness :
  ∃ h, highlight_sets 5 scenario_links 1 = Done h ∧
    (∀ d, d ∈ scenario_links →
       (f_out (link_flags 1 d) = true →
          f_out (node_flags h (end_ d)) = true) ∧
       (f_in (link_flags 1 d) = true →
          f_in (node_flags h (start d)) = true) ∧
       (f_labelset (link_flags 1 d) = true →
          f_labelset (node_flags h (start d)) = true ∧
          f_labelset (node_flags h (end_ d)) = true)) ∧
    (∀ v,
       (f_out (node_flags h v) = true ↔
          ∃ d, d ∈ scenario_links ∧ f_out (link_flags 1 d) = true ∧
               end_ d = v) ∧
       (f_in (node_flags h v) = true ↔
          ∃ d, d ∈ scenario_links ∧ f_in (link_flags 1 d) = true ∧
               start d = v) ∧
       (f_scope (node_flags h v) = true ↔
          ∃ d, d ∈ scenario_links ∧ f_scope (link_flags 1 d) = true ∧
               start d = 1 ∧ end_ d = v)).
Proof. apply (X19_classes_fit 5 scenario_links 1). simpl. lia. Defined.

Lemma selected_ids_fresh ids n :
  selected_ids ids (replicate n (NodeUI false false)) = [].
Proof.
  unfold selected_ids. revert n.
  induction ids as [|a ids IH]; intros [|n]; simpl; try done.
  rewrite filter_cons_False by (simpl; done). apply IH.
Qed.

Lemma selected_ids_one ids n k nid :
  ids !! k = Some nid → (k < n)%nat →
  selected_ids ids (<[k := NodeUI true true]> (replicate n (NodeUI false false)))
  = [nid].
Proof.
  unfold selected_ids. revert n k.
  induction ids as [|a ids IH]; intros [|n] [|k]; simpl; try done; try lia.
  - intros [= ->] _. f_equal. exact (selected_ids_fresh ids n).
  - intros Hk Hlt. rewrite filter_cons_False by (simpl; done).
    apply IH; [done|lia].
Qed.

(** X20. While a node is sticky, whatever events have occurred, the
    highlighting shown is that of the sticky node alone; and when no node is
    selected nothing is highlighted. *)
Theorem X20_sticky_highlights fuel ls ids evs :
  (2 * length ls < fuel)%nat →
  let st := run_events (length ids) evs in
  (ui_sticky st = true →
     ∃ k nid h, ids !! k = Some nid ∧
       ui_nodes st !! k = Some (NodeUI true true) ∧
       highlight_sets fuel ls nid = Done h ∧
       shown_sets fuel ls (selected_ids ids (ui_nodes st)) = Done (Some h)) ∧
  ((∀ i d, ui_nodes st !! i = Some d → n_selected d = false) →
     shown_sets fuel ls (selected_ids ids (ui_nodes st)) = Done None).
Proof.
  intros Hfuel st. pose proof (sel_inv_run (length ids) evs) as Hinv.
  fold st in Hinv. clearbody st. destruct st as [ns gs].
  destruct Hinv as [Hlen Hst]. simpl in *. split.
  - intros ->. destruct Hst as (k & Hk & ->).
    destruct (lookup_lt_is_Some_2 ids k Hk) as [nid Hnid].
    destruct (highlight_sets_spec fuel ls nid Hfuel) as (h & Hh & _).
    exists k, nid, h. split_and!; [done| |done|].
    + apply list_lookup_insert_eq. by rewrite length_replicate.
    + rewrite (selected_ids_one _ _ _ _ Hnid Hk). unfold shown_sets. simpl.
      by rewrite Hh.
  - intros Hnone.
    assert (selected_ids ids ns = []) as ->; [|done].
    unfold selected_ids. clear Hst Hlen.
    revert ns Hnone. induction ids as [|a ids IH]; intros [|d ns] Hnone;
      simpl; try done.
    rewrite filter_cons_False.
    + apply IH. intros i d'. apply (Hnone (S i)).
    + simpl. by rewrite (Hnone 0%nat d eq_refl).
Qed.

Lemma X20_sticky_highlights_witness :
  let st := run_events (length [1; 2; 3])
              [Mouseover 0%nat; Click 0%nat; Mouseout 0%nat; Mouseover 1%nat] in
  (ui_sticky st = true →
     ∃ k nid h, [1; 2; 3] !! k = Some nid ∧
       ui_nodes st !! k = Some (NodeUI true true) ∧
       highlight_sets 5 scenario_links nid = Done h ∧
       shown_sets 5 scenario_links (selected_ids [1; 2; 3] (ui_nodes st))
       = Done (Some h)) ∧
  ((∀ i d, ui_nodes st !! i = Some d → n_selected d = false) →
     shown_sets 5 scenario_links (selected_ids [1; 2; 3] (ui_nodes st))
     = Done None).
Proof.
  apply (X20_sticky_highlights 5 scenario_links [1; 2; 3]
           [Mouseover 0%nat; Click 0%nat; Mouseout 0%nat; Mouseover 1%nat]).
  simpl. lia.
Defined.
